(** * MyWarehouse: the SQLite data layer, the categorizer and the role policy

    A shallow embedding of
    - [warehouse_manager/database.py] (class [Database]): the tables of
      [_migration_1] and [_migration_3], the schema migrator and the
      inventory and user methods;
    - [warehouse_manager/categorizer.py]: [normalize], [extract_family],
      [CATEGORY_PATTERNS], [guess_category] and [get_alias_map];
    - [warehouse_manager/gui/user_management_gui.py]: [ROLE_LEVELS],
      [_role_level], [_can_manage_role], [_allowed_new_roles] and the three
      actions of the users tab;
    - [warehouse_manager/gui/customer_gui.py]: [_assign_serials_dialog].

    Modelling conventions.
    - A table with a primary key is a [gmap] from the key to the remaining
      columns; [assignments], whose rows are selected and counted by other
      columns, is the list of its rows in rowid order.
    - [TEXT] is [string], [INTEGER] is [Z], [REAL] is [Q] (no claim depends
      on binary64 rounding), a nullable column is an [option].
    - The connection runs with [PRAGMA foreign_keys = ON] (database.py,
      line 47), so every statement below carries the checks and the
      [ON DELETE CASCADE] action that the DDL declares for it.
    - [strftime('%s','now')] and [date('now')] are read from a [clock] value
      handed to each method.
    - SQLite's compile-time limits (number of host parameters, statement
      length) are not modelled. *)

From Stdlib Require Import ZArith QArith String Ascii List Lqa.
From stdpp Require Import gmap strings list fin_maps sorting pretty.

Local Open Scope Z_scope.

Module database.

(** ** Rows *)

Record clock := Clock { today : string; epoch : Z }.

Record customer_row := CustomerRow {
  c_name : string;
  c_phone : option string;
  c_email : option string;
  c_pin4 : option string;
  c_last_modified : Z }.

Record material_row := MaterialRow {
  m_name : string;
  m_model : string;
  m_producer : option string;
  m_description : option string;
  m_image_path : option string;
  m_retail_price : option Q;
  m_is_used : Z;
  m_warranty_months : option Z;
  m_category : option string;
  m_auto_category : option string;
  m_auto_confidence : Q;
  m_model_family : option string;
  m_last_modified : Z }.

Record serial_row := SerialRow {
  s_material_id : Z;
  s_production_date : option string;
  s_acquisition_date : option string;
  s_warranty_expiration : option string;
  s_assigned_to : option string;
  s_last_modified : Z;
  s_extra_json : option string;
  s_retail_price : option Q }.

Record assignment_row := AssignmentRow {
  a_id : Z;
  a_customer_id : string;
  a_serial : string;
  a_assigned_date : string;
  a_material_id : Z;
  a_material_name : string;
  a_material_model : string;
  a_warranty_expiration : option string;
  a_last_modified : Z;
  a_deleted : Z;
  a_extra_json : option string }.

(** The hex digest that [_hash_password] returns, kept as the call that
    produced it: [hashlib.pbkdf2_hmac('sha256', password, salt, iterations)]. *)
Inductive digest :=
  | Pbkdf2_hmac_sha256 (password salt : string) (iterations : Z).

Record user_row := UserRow {
  u_password_hash : digest;
  u_salt : string;
  u_role : string }.

(** ** The store

    [objects] is the set of names in [sqlite_master]; [materials_seq] and
    [assignments_seq] are the two [AUTOINCREMENT] counters of
    [sqlite_sequence]. *)

Record tables := Tables {
  objects : gset string;
  schema_version : list Z;
  customers : gmap string customer_row;
  materials : gmap Z material_row;
  materials_seq : Z;
  serial_numbers : gmap string serial_row;
  assignments : list assignment_row;
  assignments_seq : Z;
  category_aliases : list (string * string);
  users : gmap string user_row }.

Definition set_objects (f : gset string → gset string) (t : tables) : tables :=
  Tables (f (objects t)) (schema_version t) (customers t) (materials t)
    (materials_seq t) (serial_numbers t) (assignments t) (assignments_seq t)
    (category_aliases t) (users t).

Definition set_schema_version (f : list Z → list Z) (t : tables) : tables :=
  Tables (objects t) (f (schema_version t)) (customers t) (materials t)
    (materials_seq t) (serial_numbers t) (assignments t) (assignments_seq t)
    (category_aliases t) (users t).

Definition set_customers
    (f : gmap string customer_row → gmap string customer_row) (t : tables) : tables :=
  Tables (objects t) (schema_version t) (f (customers t)) (materials t)
    (materials_seq t) (serial_numbers t) (assignments t) (assignments_seq t)
    (category_aliases t) (users t).

Definition set_materials
    (f : gmap Z material_row → gmap Z material_row) (t : tables) : tables :=
  Tables (objects t) (schema_version t) (customers t) (f (materials t))
    (materials_seq t) (serial_numbers t) (assignments t) (assignments_seq t)
    (category_aliases t) (users t).

Definition set_materials_seq (n : Z) (t : tables) : tables :=
  Tables (objects t) (schema_version t) (customers t) (materials t)
    n (serial_numbers t) (assignments t) (assignments_seq t)
    (category_aliases t) (users t).

Definition set_serial_numbers
    (f : gmap string serial_row → gmap string serial_row) (t : tables) : tables :=
  Tables (objects t) (schema_version t) (customers t) (materials t)
    (materials_seq t) (f (serial_numbers t)) (assignments t) (assignments_seq t)
    (category_aliases t) (users t).

Definition set_assignments
    (f : list assignment_row → list assignment_row) (t : tables) : tables :=
  Tables (objects t) (schema_version t) (customers t) (materials t)
    (materials_seq t) (serial_numbers t) (f (assignments t)) (assignments_seq t)
    (category_aliases t) (users t).

Definition set_assignments_seq (n : Z) (t : tables) : tables :=
  Tables (objects t) (schema_version t) (customers t) (materials t)
    (materials_seq t) (serial_numbers t) (assignments t) n
    (category_aliases t) (users t).

Definition set_category_aliases
    (f : list (string * string) → list (string * string)) (t : tables) : tables :=
  Tables (objects t) (schema_version t) (customers t) (materials t)
    (materials_seq t) (serial_numbers t) (assignments t) (assignments_seq t)
    (f (category_aliases t)) (users t).

Definition set_users
    (f : gmap string user_row → gmap string user_row) (t : tables) : tables :=
  Tables (objects t) (schema_version t) (customers t) (materials t)
    (materials_seq t) (serial_numbers t) (assignments t) (assignments_seq t)
    (category_aliases t) (f (users t)).

(** The file before its first connection: no schema object, no row. *)
Definition empty_store : tables :=
  Tables ∅ [] ∅ ∅ 0 ∅ [] 0 [] ∅.

(** ** Exceptions, log records and the connection monad *)

Inductive exn :=
  | ValueError (msg : string)
  | IntegrityError (msg : string)
  | OperationalError (msg : string)
  | TypeError (msg : string)
  | IndexError (msg : string).

Inductive outcome (A : Type) :=
  | Ok (a : A)
  | Raise (e : exn).
Arguments Ok {A} a.
Arguments Raise {A} e.

(** What the methods hand to [LOGGER]. *)
Inductive log_record :=
  | Applying_migration (target_version : Z)
  | No_users_found
  | Failed_default_admin (e : exn)
  | Serial_skipped (serial : string) (e : exn).

(** [live] is what the connection's own statements read and write; [durable]
    is the last committed content, the only thing another connection or a
    later start of the program sees. [sqlite3] opens a transaction before an
    INSERT, UPDATE or DELETE when none is open ([in_transaction]); only
    [commit] ends it (no method calls [rollback]). *)
Record conn := Conn {
  durable : tables;
  live : tables;
  in_transaction : bool;
  logged : list log_record }.

Definition M (A : Type) : Type := conn → conn * outcome A.

Definition ret {A} (a : A) : M A := λ c, (c, Ok a).

Definition raise {A} (e : exn) : M A := λ c, (c, Raise e).

Definition bind {A B} (m : M A) (k : A → M B) : M B :=
  λ c, match m c with
       | (c', Ok a) => k a c'
       | (c', Raise e) => (c', Raise e)
       end.

Notation "'let!' x ':=' m 'in' k" := (bind m (λ x, k))
  (at level 10, x pattern, m at level 100, k at level 200, only parsing).
Notation "m ';;;' k" := (bind m (λ _, k))
  (at level 100, k at level 200, right associativity, only parsing).

(** [cur.execute] of a reading statement followed by its [fetch]. *)
Definition query {A} (f : tables → A) : M A := λ c, (c, Ok (f (live c))).

(** [cur.execute] of an INSERT, UPDATE or DELETE. A statement that violates
    a constraint is undone as a whole and raises; the transaction that was
    opened for it stays open. *)
Definition execute (f : tables → outcome tables) : M unit :=
  λ c, match f (live c) with
       | Ok t' => (Conn (durable c) t' true (logged c), Ok tt)
       | Raise e => (Conn (durable c) (live c) true (logged c), Raise e)
       end.

(** [cur.execute] of a CREATE statement: no transaction is opened for it, so
    outside a transaction it is committed at once. *)
Definition execute_ddl (f : tables → tables) : M unit :=
  λ c, if in_transaction c
       then (Conn (durable c) (f (live c)) true (logged c), Ok tt)
       else (Conn (f (live c)) (f (live c)) false (logged c), Ok tt).

(** [self.conn.commit()]. *)
Definition commit : M unit :=
  λ c, (Conn (live c) (live c) false (logged c), Ok tt).

(** [cur.executescript]: commits a pending transaction, then runs the script
    in autocommit mode. *)
Definition executescript (f : tables → tables) : M unit :=
  commit ;;; execute_ddl f.

(** [LOGGER.info], [LOGGER.warning], [LOGGER.error]. *)
Definition log (r : log_record) : M unit :=
  λ c, (Conn (durable c) (live c) (in_transaction c) (logged c ++ [r]), Ok tt).

(** [sqlite3.connect(path)] on a file whose committed content is [t]. *)
Definition connect (t : tables) : conn := Conn t t false [].

(** The connection a method leaves behind. *)
Definition after {A} (m : M A) (c : conn) : conn := (m c).1.

(** What a method returns or raises. *)
Definition result {A} (m : M A) (c : conn) : outcome A := (m c).2.

(** ** Statements on the inventory tables

    Each definition is one SQL statement of database.py, with the
    constraints of the DDL of [_migration_1] that apply to it. *)

Definition fk_failed {A} : outcome A :=
  Raise (IntegrityError "FOREIGN KEY constraint failed").

Definition unique_failed {A} (column : string) : outcome A :=
  Raise (IntegrityError ("UNIQUE constraint failed: " +:+ column)).

(** [INTEGER PRIMARY KEY AUTOINCREMENT]: one more than the largest rowid the
    table holds or has ever held. *)
Definition next_rowid (seq : Z) (ids : list Z) : Z := 1 + foldr Z.max seq ids.

Definition next_material_id (t : tables) : Z :=
  next_rowid (materials_seq t) ((map_to_list (materials t)).*1).

Definition next_assignment_id (t : tables) : Z :=
  next_rowid (assignments_seq t) (a_id <$> assignments t).

(** INSERT INTO customers (id, name, phone, email, pin4, last_modified) *)
Definition insert_customer (now : clock) (customer_id name : string)
    (phone email pin4 : option string) (t : tables) : outcome tables :=
  match customers t !! customer_id with
  | Some _ => unique_failed "customers.id"
  | None =>
      Ok (set_customers
            <[customer_id := CustomerRow name phone email pin4 (epoch now)]> t)
  end.

(** INSERT INTO materials (name, model, producer, description, image_path,
    retail_price, is_used, warranty_months, last_modified); the other
    columns take their defaults. *)
Definition insert_material (now : clock) (name model : string)
    (producer description image_path : option string) (retail_price : option Q)
    (is_used : Z) (warranty_months : option Z) (t : tables) : outcome tables :=
  let material_id := next_material_id t in
  Ok (set_materials_seq material_id
        (set_materials
           <[material_id := MaterialRow name model producer description image_path
                              retail_price is_used warranty_months None None 0%Q None
                              (epoch now)]> t)).

(** INSERT INTO serial_numbers (serial, material_id, production_date,
    acquisition_date, retail_price, last_modified): [serial] is the primary
    key and [material_id] references [materials(id)]. *)
Definition insert_serial (now : clock) (serial : string) (material_id : Z)
    (production_date acquisition_date : option string) (retail_price : option Q)
    (t : tables) : outcome tables :=
  match serial_numbers t !! serial with
  | Some _ => unique_failed "serial_numbers.serial"
  | None =>
      match materials t !! material_id with
      | None => fk_failed
      | Some _ =>
          Ok (set_serial_numbers
                <[serial := SerialRow material_id production_date acquisition_date
                              None None (epoch now) None retail_price]> t)
      end
  end.

(** DELETE FROM serial_numbers WHERE serial IN (...): the rows of
    [assignments] that reference a deleted serial go with it
    ([serial ... REFERENCES serial_numbers(serial) ON DELETE CASCADE]). *)
Definition delete_serial_rows (serials : list string) (t : tables) : tables :=
  set_assignments
    (filter (λ a, ¬ (a_serial a ∈ serials ∧ is_Some (serial_numbers t !! a_serial a))))
    (set_serial_numbers (λ m, foldr delete m serials) t).

(** SELECT serial, assigned_to FROM serial_numbers WHERE serial IN (...) *)
Definition select_serials_in (serials : list string) (t : tables)
    : list (string * option string) :=
  prod_map id s_assigned_to
    <$> map_to_list (filter (λ kv, kv.1 ∈ serials) (serial_numbers t)).

(** SELECT material_id, production_date, warranty_expiration
    FROM serial_numbers WHERE serial=? AND assigned_to IS NULL *)
Definition select_available_serial (serial : string) (t : tables)
    : option (Z * option string * option string) :=
  match serial_numbers t !! serial with
  | Some r =>
      match s_assigned_to r with
      | None => Some (s_material_id r, s_production_date r, s_warranty_expiration r)
      | Some _ => None
      end
  | None => None
  end.

(** SELECT name, model FROM materials WHERE id=? *)
Definition select_material_name_model (material_id : Z) (t : tables)
    : option (string * string) :=
  (λ r, (m_name r, m_model r)) <$> materials t !! material_id.

(** INSERT INTO assignments (customer_id, serial, assigned_date, material_id,
    material_name, material_model, warranty_expiration, last_modified);
    [deleted] defaults to 0. The three REFERENCES clauses are checked. *)
Definition insert_assignment (now : clock) (customer_id serial : string)
    (material_id : Z) (mat_name mat_model : string)
    (warranty_exp : option string) (t : tables) : outcome tables :=
  match customers t !! customer_id, serial_numbers t !! serial,
        materials t !! material_id with
  | Some _, Some _, Some _ =>
      let id := next_assignment_id t in
      Ok (set_assignments_seq id
            (set_assignments
               (λ l, l ++ [AssignmentRow id customer_id serial (today now) material_id
                             mat_name mat_model warranty_exp (epoch now) 0 None]) t))
  | _, _, _ => fk_failed
  end.

Definition with_assigned_to (now : clock) (v : option string) (r : serial_row)
    : serial_row :=
  SerialRow (s_material_id r) (s_production_date r) (s_acquisition_date r)
    (s_warranty_expiration r) v (epoch now) (s_extra_json r) (s_retail_price r).

(** UPDATE serial_numbers SET assigned_to=?, last_modified=... WHERE serial=?
    with a customer id: [assigned_to] references [customers(id)]. *)
Definition update_serial_assigned_to (now : clock) (customer_id serial : string)
    (t : tables) : outcome tables :=
  match serial_numbers t !! serial with
  | None => Ok t
  | Some r =>
      match customers t !! customer_id with
      | None => fk_failed
      | Some _ =>
          Ok (set_serial_numbers
                <[serial := with_assigned_to now (Some customer_id) r]> t)
      end
  end.

(** UPDATE serial_numbers SET assigned_to=NULL, last_modified=... WHERE serial=? *)
Definition clear_serial_assigned_to (now : clock) (serial : string) (t : tables)
    : outcome tables :=
  Ok (set_serial_numbers (alter (with_assigned_to now None) serial) t).

Definition is_active (serial : string) (a : assignment_row) : Prop :=
  a_serial a = serial ∧ a_deleted a = 0.

#[global] Instance is_active_dec serial a : Decision (is_active serial a).
Proof. unfold is_active. apply _. Defined.

(** The row that [ORDER BY assigned_date DESC LIMIT 1] keeps. Dates are the
    texts of [date('now')] and compare bytewise. SQL leaves the choice among
    equal dates open; the model keeps the row with the smallest rowid. *)
Fixpoint latest (l : list assignment_row) : option assignment_row :=
  match l with
  | [] => None
  | a :: l' =>
      match latest l' with
      | None => Some a
      | Some b =>
          if String.ltb (a_assigned_date a) (a_assigned_date b) then Some b else Some a
      end
  end.

(** SELECT id FROM assignments WHERE serial=? AND deleted=0
    ORDER BY assigned_date DESC LIMIT 1 *)
Definition select_active_assignment (serial : string) (t : tables) : option Z :=
  a_id <$> latest (filter (is_active serial) (assignments t)).

(** DELETE FROM assignments WHERE id=? *)
Definition delete_assignment (assignment_id : Z) (t : tables) : outcome tables :=
  Ok (set_assignments (filter (λ a, a_id a ≠ assignment_id)) t).

Definition with_deleted (v : Z) (a : assignment_row) : assignment_row :=
  AssignmentRow (a_id a) (a_customer_id a) (a_serial a) (a_assigned_date a)
    (a_material_id a) (a_material_name a) (a_material_model a)
    (a_warranty_expiration a) (a_last_modified a) v (a_extra_json a).

(** UPDATE assignments SET deleted=1 WHERE id=? *)
Definition mark_assignment_deleted (assignment_id : Z) (t : tables) : outcome tables :=
  Ok (set_assignments
        (fmap (λ a, if decide (a_id a = assignment_id) then with_deleted 1 a else a)) t).

(** SELECT assigned_to, material_id FROM serial_numbers WHERE serial=? *)
Definition select_holder_and_material (serial : string) (t : tables)
    : option (option string * Z) :=
  (λ r, (s_assigned_to r, s_material_id r)) <$> serial_numbers t !! serial.

Definition with_is_used (now : clock) (v : Z) (r : material_row) : material_row :=
  MaterialRow (m_name r) (m_model r) (m_producer r) (m_description r)
    (m_image_path r) (m_retail_price r) v (m_warranty_months r) (m_category r)
    (m_auto_category r) (m_auto_confidence r) (m_model_family r) (epoch now).

(** UPDATE materials SET is_used=1, last_modified=... WHERE id=? *)
Definition update_material_used (now : clock) (material_id : Z) (t : tables)
    : outcome tables :=
  Ok (set_materials (alter (with_is_used now 1) material_id) t).

Definition with_s_last_modified (now : clock) (r : serial_row) : serial_row :=
  with_assigned_to now (s_assigned_to r) r.

(** UPDATE serial_numbers SET last_modified=... WHERE serial=? *)
Definition touch_serial (now : clock) (serial : string) (t : tables)
    : outcome tables :=
  Ok (set_serial_numbers (alter (with_s_last_modified now) serial) t).

(** [ORDER BY production_date]: NULL sorts first, texts compare bytewise. *)
Definition production_date_le (x y : string * serial_row) : Prop :=
  match s_production_date x.2, s_production_date y.2 with
  | None, _ => True
  | Some _, None => False
  | Some d, Some e => String.leb d e = true
  end.

#[global] Instance production_date_le_dec x y : Decision (production_date_le x y).
Proof.
  unfold production_date_le.
  destruct (s_production_date x.2), (s_production_date y.2); apply _.
Defined.

(** SELECT * FROM serial_numbers WHERE material_id = ? [AND assigned_to IS NULL]
    ORDER BY production_date *)
Definition select_serials_of_material (material_id : Z) (include_assigned : bool)
    (t : tables) : list (string * serial_row) :=
  merge_sort production_date_le
    (map_to_list
       (filter (λ kv, s_material_id kv.2 = material_id
                      ∧ (include_assigned = true ∨ s_assigned_to kv.2 = None))
          (serial_numbers t))).

(** ** The inventory methods of [Database] *)

(** [try: ... except sqlite3.IntegrityError as exc: ...] *)
Definition except_IntegrityError (body : M unit) (handler : exn → M unit) : M unit :=
  λ c, match body c with
       | (c', Raise (IntegrityError msg)) => handler (IntegrityError msg) c'
       | r => r
       end.

Definition add_customer (now : clock) (customer_id name : string)
    (phone email pin4 : option string) : M unit :=
  execute (insert_customer now customer_id name phone email pin4) ;;;
  commit.

Definition add_material (now : clock) (name model : string)
    (producer description image_path : option string) (retail_price : option Q)
    (is_used : Z) (warranty_months : option Z) : M Z :=
  let! material_id := query next_material_id in   (* cur.lastrowid *)
  execute (insert_material now name model producer description image_path
             retail_price is_used warranty_months) ;;;
  commit ;;;
  ret material_id.

Definition get_serials_by_material (material_id : Z) (include_assigned : bool)
    : M (list (string * serial_row)) :=
  query (select_serials_of_material material_id include_assigned).

Fixpoint add_serials_loop (now : clock) (material_id : Z) (serials : list string)
    (production_date acquisition_date : option string) (retail_price : option Q)
    : M unit :=
  match serials with
  | [] => ret tt
  | serial :: rest =>
      except_IntegrityError
        (execute (insert_serial now serial material_id production_date
                    acquisition_date retail_price))
        (λ exc, log (Serial_skipped serial exc)) ;;;
      add_serials_loop now material_id rest production_date acquisition_date
        retail_price
  end.

Definition add_serials_to_material (now : clock) (material_id : Z)
    (serials : list string) (production_date acquisition_date : option string)
    (retail_price : option Q) : M unit :=
  add_serials_loop now material_id serials production_date acquisition_date
    retail_price ;;;
  commit.

Definition delete_serials (serials : list string) : M unit :=
  execute (λ t, Ok (delete_serial_rows serials t)) ;;;
  commit.

(** The [for s in serials] loop of [resolve_serials_for_customer]; [seen] is
    the dict built from the fetched rows. *)
Fixpoint resolve_loop (seen : gmap string (option string)) (serials : list string)
    (valid invalid : list string) : list string * list string :=
  match serials with
  | [] => (valid, invalid)
  | s :: rest =>
      match seen !! s with
      | None => resolve_loop seen rest valid (invalid ++ [s])
      | Some None => resolve_loop seen rest (valid ++ [s]) invalid
      | Some (Some _) => resolve_loop seen rest valid (invalid ++ [s])
      end
  end.

Definition resolve_serials_for_customer (serials : list string)
    : M (list string * list string) :=
  match serials with
  | [] => ret ([], [])
  | _ =>
      let! rows := query (select_serials_in serials) in
      let seen : gmap string (option string) := list_to_map rows in
      ret (resolve_loop seen serials [] [])
  end.

Definition assign_serial_to_customer (now : clock) (customer_id serial : string)
    : M unit :=
  let! res := query (select_available_serial serial) in
  match res with
  | None =>
      raise (ValueError ("Serial " +:+ serial +:+ " not available or does not exist"))
  | Some (material_id, prod_date, warranty_exp) =>
      let! material := query (select_material_name_model material_id) in
      match material with
      | None => raise (ValueError ("Material for serial " +:+ serial +:+ " not found"))
      | Some (mat_name, mat_model) =>
          execute (insert_assignment now customer_id serial material_id
                     mat_name mat_model warranty_exp) ;;;
          execute (update_serial_assigned_to now customer_id serial) ;;;
          commit
      end
  end.

Definition unassign_serial (now : clock) (serial : string) (force : bool) : M unit :=
  let! row := query (select_active_assignment serial) in
  match row with
  | Some assignment_id =>
      if force then execute (delete_assignment assignment_id)
      else execute (mark_assignment_deleted assignment_id)
  | None => ret tt
  end ;;;
  execute (clear_serial_assigned_to now serial) ;;;
  commit.

(** [assigned_to is not None and
     (from_customer is None or assigned_to == from_customer)] *)
Definition holder_matches (assigned_to from_customer : option string) : bool :=
  match assigned_to with
  | None => false
  | Some holder =>
      match from_customer with
      | None => true
      | Some customer => bool_decide (holder = customer)
      end
  end.

Fixpoint transfer_loop (now : clock) (serials : list string)
    (from_customer : option string) : M unit :=
  match serials with
  | [] => ret tt
  | serial :: rest =>
      let! row := query (select_holder_and_material serial) in
      match row with
      | None => transfer_loop now rest from_customer   (* continue *)
      | Some (assigned_to, material_id) =>
          (if holder_matches assigned_to from_customer
           then unassign_serial now serial false else ret tt) ;;;
          execute (update_material_used now material_id) ;;;
          execute (touch_serial now serial) ;;;
          transfer_loop now rest from_customer
      end
  end.

Definition transfer_serials_to_used (now : clock) (serials : list string)
    (from_customer : option string) : M unit :=
  transfer_loop now serials from_customer ;;;
  commit.


(** ** Users *)

(** INSERT INTO users (username, password_hash, salt, role) *)
Definition insert_user (username : string) (password_hash : digest)
    (salt role : string) (t : tables) : outcome tables :=
  if decide ("users" ∈ objects t) then
    match users t !! username with
    | Some _ => unique_failed "users.username"
    | None => Ok (set_users <[username := UserRow password_hash salt role]> t)
    end
  else Raise (OperationalError "no such table: users").

(** [hashlib.pbkdf2_hmac('sha256', password.encode('utf-8'), salt, 100000).hex()] *)
Definition _hash_password (password salt : string) : digest :=
  Pbkdf2_hmac_sha256 password salt 100000.

(** [salt] stands for the 16 bytes that [os.urandom] hands out; the column
    [salt] keeps their hex form, which the model does not tell apart from
    the bytes. *)
Definition add_user (salt username password role : string) : M unit :=
  let password_hash := _hash_password password salt in
  execute (insert_user username password_hash salt role) ;;;
  commit.

(** DELETE FROM users WHERE username=? *)
Definition delete_user (username : string) : M unit :=
  execute (λ t, Ok (set_users (delete username) t)) ;;;
  commit.

(** UPDATE users SET role=? WHERE username=? *)
Definition update_user_role (username new_role : string) : M unit :=
  execute (λ t, Ok (set_users
                      (alter (λ r, UserRow (u_password_hash r) (u_salt r) new_role)
                         username) t)) ;;;
  commit.

Definition get_user_role (username : string) : M (option string) :=
  query (λ t, u_role <$> users t !! username).

(** ** Schema management *)

(** CREATE TABLE IF NOT EXISTS: a table that is created starts without
    rows; [no_rows] empties its part of the model. *)
Definition create_table_if_not_exists (name : string) (no_rows : tables → tables)
    (t : tables) : tables :=
  if decide (name ∈ objects t) then t
  else no_rows (set_objects (λ o, o ∪ {[name]}) t).

(** CREATE INDEX IF NOT EXISTS *)
Definition create_index_if_not_exists (name : string) (t : tables) : tables :=
  set_objects (λ o, o ∪ {[name]}) t.

Definition create_schema_version : tables → tables :=
  create_table_if_not_exists "schema_version" (set_schema_version (λ _, [])).

Definition get_schema_version : M Z :=
  let! row := query (λ t, head (schema_version t)) in
  match row with
  | Some version => ret version
  | None => raise (TypeError "'NoneType' object is not subscriptable")
  end.

(** A script runs its statements one after the other. *)
Definition script (statements : list (tables → tables)) (t : tables) : tables :=
  foldl (λ t statement, statement t) t statements.

Definition _migration_1 : M unit :=
  executescript
    (script
       [create_table_if_not_exists "customers" (set_customers (λ _, ∅));
        create_table_if_not_exists "materials"
          (λ t, set_materials_seq 0 (set_materials (λ _, ∅) t));
        create_table_if_not_exists "serial_numbers" (set_serial_numbers (λ _, ∅));
        create_table_if_not_exists "assignments"
          (λ t, set_assignments_seq 0 (set_assignments (λ _, []) t));
        create_table_if_not_exists "category_aliases" (set_category_aliases (λ _, []));
        create_schema_version]) ;;;
  (* Create indices *)
  executescript
    (script
       (create_index_if_not_exists
          <$> ["idx_customers_name"; "idx_materials_name"; "idx_materials_model";
               "idx_materials_auto_category"; "idx_serial_numbers_material_id";
               "idx_assignments_customer_id"; "idx_assignments_serial"])).

Definition _migration_2 : M unit := ret tt.

Definition _migration_3 : M unit :=
  execute_ddl (create_table_if_not_exists "users" (set_users (λ _, ∅))) ;;;
  execute_ddl (create_index_if_not_exists "idx_users_role").

Definition _ensure_default_admin_user (salt : string) : M unit :=
  let! found := query (λ t, bool_decide ("users" ∈ objects t)) in
  if found then
    let! count := query (λ t, size (users t)) in
    match count with
    | O => log No_users_found ;;; add_user salt "admin" "admin" "admin1"
    | S _ => ret tt
    end
  else ret tt.

(** [enumerate(migrations, start=1)] *)
Fixpoint enumerate {A} (start : Z) (l : list A) : list (Z * A) :=
  match l with
  | [] => []
  | x :: l' => (start, x) :: enumerate (start + 1) l'
  end.

Definition migrations : list (M unit) := [_migration_1; _migration_2; _migration_3].

(** The body of [for target_version, migration in enumerate(...)]. *)
Definition migration_step (version : Z) (step : Z * M unit) : M unit :=
  let '(target_version, migration) := step in
  if version <? target_version then
    log (Applying_migration target_version) ;;;
    migration ;;;
    execute (λ t, Ok (set_schema_version (fmap (λ _, target_version)) t)) ;;;
    commit
  else ret tt.

Fixpoint migration_loop (version : Z) (steps : list (Z * M unit)) : M unit :=
  match steps with
  | [] => ret tt
  | step :: rest => migration_step version step ;;; migration_loop version rest
  end.

(** [try: ... except Exception as exc: ...] *)
Definition except_Exception (body : M unit) (handler : exn → M unit) : M unit :=
  λ c, match body c with
       | (c', Raise e) => handler e c'
       | r => r
       end.

Definition _ensure_schema (salt : string) : M unit :=
  execute_ddl create_schema_version ;;;
  let! count := query (λ t, length (schema_version t)) in
  match count with
  | O => execute (λ t, Ok (set_schema_version (λ rows, rows ++ [0]) t)) ;;; commit
  | S _ => ret tt
  end ;;;
  let! version := get_schema_version in
  migration_loop version (enumerate 1 migrations) ;;;
  except_Exception (_ensure_default_admin_user salt)
    (λ exc, log (Failed_default_admin exc)).

(** [Database(path)] on a file whose committed content is [t]. *)
Definition Database (salt : string) (t : tables) : conn :=
  after (_ensure_schema salt) (connect t).

(** ** Further methods of [Database] *)

Definition get_customer_by_id (customer_id : string) : M (option customer_row) :=
  query (λ t, customers t !! customer_id).

(** The columns that [update_customer] lets through. *)
Definition allowed : list string := ["name"; "phone"; "email"; "pin4"].

(** UPDATE customers SET k=?, ..., last_modified=... WHERE id=? for the
    columns [keys], with the values that [fields] holds for them ([None] is
    Python's None); [name] is NOT NULL. *)
Definition update_customer_columns (now : clock) (keys : list string)
    (fields : gmap string (option string)) (customer_id : string) (t : tables)
    : outcome tables :=
  match customers t !! customer_id with
  | None => Ok t
  | Some r =>
      let value (column : string) (old : option string) : option string :=
        if decide (column ∈ keys) then default None (fields !! column) else old in
      match value "name" (Some (c_name r)) with
      | None => Raise (IntegrityError "NOT NULL constraint failed: customers.name")
      | Some name =>
          Ok (set_customers
                <[customer_id := CustomerRow name (value "phone" (c_phone r))
                                   (value "email" (c_email r)) (value "pin4" (c_pin4 r))
                                   (epoch now)]> t)
      end
  end.

(** [fields] is the dict of the keyword arguments. *)
Definition update_customer (now : clock) (customer_id : string)
    (fields : gmap string (option string)) : M unit :=
  let keys := filter (λ k, k ∈ allowed) (map_to_list fields).*1 in
  match keys with
  | [] => ret tt
  | _ :: _ =>
      execute (update_customer_columns now keys fields customer_id) ;;;
      commit
  end.

(** [ORDER BY a.assigned_date DESC, a.id DESC]: [x] may come before [y]. *)
Definition history_order (x y : assignment_row * option string * option string) : Prop :=
  String.ltb (a_assigned_date y.1.1) (a_assigned_date x.1.1) = true
  ∨ (a_assigned_date x.1.1 = a_assigned_date y.1.1 ∧ a_id y.1.1 ≤ a_id x.1.1).

#[global] Instance history_order_dec x y : Decision (history_order x y).
Proof. unfold history_order. apply _. Defined.



Definition with_category (now : clock) (v : option string) (r : material_row)
    : material_row :=
  MaterialRow (m_name r) (m_model r) (m_producer r) (m_description r)
    (m_image_path r) (m_retail_price r) (m_is_used r) (m_warranty_months r) v
    (m_auto_category r) (m_auto_confidence r) (m_model_family r) (epoch now).

(** UPDATE materials SET category=?, last_modified=... WHERE id=? *)
Definition set_material_category (now : clock) (material_id : Z)
    (category : option string) : M unit :=
  execute (λ t, Ok (set_materials (alter (with_category now category) material_id) t)) ;;;
  commit.

(** [calc_hash == stored_hash] *)
#[global] Instance digest_eq_dec : EqDecision digest.
Proof. solve_decision. Defined.

(** The rows that a SELECT on [users] reads; the statement fails on a file
    in which the table is still to be created. *)
Definition select_users : M (gmap string user_row) :=
  λ c, if decide ("users" ∈ objects (live c)) then (c, Ok (users (live c)))
       else (c, Raise (OperationalError "no such table: users")).

(** The dict that [authenticate_user] returns: username and role. *)
Definition authenticate_user (username password : string)
    : M (option (string * string)) :=
  let! rows := select_users in
  match rows !! username with
  | None => ret None
  | Some r =>
      let stored_hash := u_password_hash r in
      let calc_hash := _hash_password password (u_salt r) in
      if decide (calc_hash = stored_hash) then ret (Some (username, u_role r))
      else ret None
  end.

(** [ORDER BY username]: texts compare bytewise. *)
Definition username_le (x y : string * string) : Prop := String.leb x.1 y.1 = true.

#[global] Instance username_le_dec x y : Decision (username_le x y).
Proof. unfold username_le. apply _. Defined.

(** SELECT username, role FROM users ORDER BY username *)
Definition list_users : M (list (string * string)) :=
  let! rows := select_users in
  ret (merge_sort username_le (prod_map id u_role <$> map_to_list rows)).

(** ** The scenario of smoke_test.py *)

Definition t0 : clock := Clock "2024-06-01" 1717200000.

Definition smoke_store : conn :=
  after (add_serials_to_material t0 1 ["S001"; "S002"; "S003"] (Some "2024-01-01")
           None None)
    (after (add_material t0 "Camera 4MP" "DS-2CD2343G2-I" (Some "HIKVISION")
              (Some "Dome camera") None (Some 100%Q) 0 (Some 24))
       (after (add_customer t0 "C001" "Alpha Corp" (Some "123456789")
                 (Some "alpha@example.com") (Some "1234"))
          (Database "5a17" empty_store))).

(** ... after [db.assign_serial_to_customer("C001", "S001")]. *)
Definition smoke_assigned : conn :=
  after (assign_serial_to_customer t0 "C001" "S001") smoke_store.

(** ... after [db.unassign_serial("S001")]. *)
Definition smoke_unassigned : conn :=
  after (unassign_serial t0 "S001" false) smoke_assigned.

End database.

(** * categorizer.py

    Text is a [string] of bytes; the model is exact on ASCII input, which is
    all that the scenario of the specification feeds it. *)

Module categorizer.

Local Open Scope char_scope.

Definition in_range (lo hi c : ascii) : bool :=
  (N_of_ascii lo <=? N_of_ascii c)%N && (N_of_ascii c <=? N_of_ascii hi)%N.

Definition is_upper (c : ascii) : bool := in_range "A" "Z" c.
Definition is_lower (c : ascii) : bool := in_range "a" "z" c.
Definition is_digit (c : ascii) : bool := in_range "0" "9" c.
Definition is_alpha (c : ascii) : bool := is_upper c || is_lower c.

(** [\w] *)
Definition is_word (c : ascii) : bool := is_alpha c || is_digit c || Ascii.eqb c "_".

(** [\s]: tab to carriage return, the four separators 0x1c-0x1f, space. *)
Definition is_space (c : ascii) : bool :=
  in_range "009" "013" c || in_range "028" "031" c || Ascii.eqb c " ".

Definition lower_char (c : ascii) : ascii :=
  if is_upper c then ascii_of_N (N_of_ascii c + 32) else c.

Local Open Scope string_scope.

(** [str.lower] *)
Fixpoint lower (s : string) : string :=
  match s with
  | "" => ""
  | String c r => String (lower_char c) (lower r)
  end.

(** [text.replace(k, v)] for a non-empty [k]: occurrences are replaced from
    the left and do not overlap; [skip] counts the characters of a match that
    are still to be dropped. *)
Fixpoint replace_from (skip : nat) (k v s : string) : string :=
  match s with
  | "" => ""
  | String c r =>
      match skip with
      | S n => replace_from n k v r
      | O =>
          if String.prefix k s
          then v +:+ replace_from (Nat.pred (String.length k)) k v r
          else String c (replace_from O k v r)
      end
  end.

Definition replace (k v s : string) : string := replace_from O k v s.

(** [re.sub(r"[^a-z0-9\s]", " ", text)] *)
Fixpoint blank_punctuation (s : string) : string :=
  match s with
  | "" => ""
  | String c r =>
      String (if is_lower c || is_digit c || is_space c then c else " "%char)
        (blank_punctuation r)
  end.

(** [re.sub(r"\s+", " ", text)] *)
Fixpoint compress_whitespace (in_run : bool) (s : string) : string :=
  match s with
  | "" => ""
  | String c r =>
      if is_space c
      then if in_run then compress_whitespace true r
           else String " " (compress_whitespace true r)
      else String c (compress_whitespace false r)
  end.

Fixpoint lstrip (s : string) : string :=
  match s with
  | String c r => if is_space c then lstrip r else s
  | "" => ""
  end.

Fixpoint rstrip (s : string) : string :=
  match s with
  | "" => ""
  | String c r =>
      match rstrip r with
      | "" => if is_space c then "" else String c ""
      | r' => String c r'
      end
  end.

(** [str.strip] *)
Definition strip (s : string) : string := rstrip (lstrip s).

Definition replacements : list (string * string) :=
  [("κάμερα", "camera"); ("kamera", "camera"); ("καμερα", "camera")].

Definition normalize (text : string) : string :=
  let text := lower text in
  let text := foldl (λ text kv, replace kv.1 kv.2 text) text replacements in
  let text := blank_punctuation text in
  strip (compress_whitespace false text).

(** [str.split()]: the maximal runs of non-whitespace characters. [word] is
    the run being read. *)
Fixpoint split_from (word : string) (s : string) : list string :=
  match s with
  | "" => match word with "" => [] | _ => [word] end
  | String c r =>
      if is_space c
      then match word with "" => split_from "" r | _ => word :: split_from "" r end
      else split_from (word +:+ String c "") r
  end.

Definition split (s : string) : list string := split_from "" s.

(** Longest prefix of characters in a class, and what follows it. *)
Fixpoint span (p : ascii → bool) (s : string) : string * string :=
  match s with
  | String c r =>
      if p c then let '(run, rest) := span p r in (String c run, rest) else ("", s)
  | "" => ("", "")
  end.

(** Group 1 of [re.match] with the pattern of [extract_family]: letters, a
    hyphen, digits, then letters again (possibly none), followed by a second
    group that takes the rest of the line. The repetitions are greedy; each
    is followed by a character outside its class or by the second group,
    which also matches the empty string, so giving characters back never
    turns a failure into a match and group 1 is made of the longest runs. *)
Definition family_match (model : string) : option string :=
  let '(letters, rest) := span is_alpha model in
  match letters, rest with
  | String _ _, String "-" rest =>
      let '(digits, rest) := span is_digit rest in
      match digits with
      | String _ _ =>
          let '(suffix, _) := span is_alpha rest in
          Some (letters +:+ "-" +:+ digits +:+ suffix)
      | "" => None
      end
  | _, _ => None
  end.

Import database.

Definition extract_family (model : string) : outcome string :=
  match family_match model with
  | Some group1 => Ok group1
  | None =>
      match model with
      | "" => Ok ""
      | _ =>
          match split model with
          | first :: _ => Ok first
          | [] => Raise (IndexError "list index out of range")
          end
      end
  end.

(** *** Regular expressions of [CATEGORY_PATTERNS] *)

Inductive regex :=
  | Lit (s : string)            (* the characters of [s] *)
  | WordBoundary                (* \b *)
  | Digit                       (* \d *)
  | Digits                      (* \d* *)
  | Seq (r1 r2 : regex)
  | Alt (r1 r2 : regex).

Definition char_eq (ignorecase : bool) (a b : ascii) : bool :=
  if ignorecase then Ascii.eqb (lower_char a) (lower_char b) else Ascii.eqb a b.

Definition at_boundary (prev : option ascii) (s : string) : bool :=
  xorb (from_option is_word false prev)
       (match s with String c _ => is_word c | "" => false end).

Fixpoint match_lit (ignorecase : bool) (l : string) (prev : option ascii) (s : string)
    (k : option ascii → string → bool) : bool :=
  match l with
  | "" => k prev s
  | String a l' =>
      match s with
      | String c r => char_eq ignorecase a c && match_lit ignorecase l' (Some c) r k
      | "" => false
      end
  end.

Fixpoint match_digits (prev : option ascii) (s : string)
    (k : option ascii → string → bool) : bool :=
  match s with
  | String c r => (is_digit c && match_digits (Some c) r k) || k prev s
  | "" => k prev s
  end.

(** [matches ic r prev s k]: [r] matches a prefix of [s], which follows the
    character [prev], and [k] accepts what is left. *)
Fixpoint matches (ignorecase : bool) (r : regex) (prev : option ascii) (s : string)
    (k : option ascii → string → bool) : bool :=
  match r with
  | Lit l => match_lit ignorecase l prev s k
  | WordBoundary => at_boundary prev s && k prev s
  | Digit =>
      match s with
      | String c r => is_digit c && k (Some c) r
      | "" => false
      end
  | Digits => match_digits prev s k
  | Seq r1 r2 => matches ignorecase r1 prev s (λ p s', matches ignorecase r2 p s' k)
  | Alt r1 r2 => matches ignorecase r1 prev s k || matches ignorecase r2 prev s k
  end.

Fixpoint search_from (ignorecase : bool) (r : regex) (prev : option ascii)
    (s : string) : bool :=
  matches ignorecase r prev s (λ _ _, true)
  || match s with
     | String c s' => search_from ignorecase r (Some c) s'
     | "" => false
     end.

(** [pattern.search(text)] as a truth value. *)
Definition search (pattern : bool * regex) (text : string) : bool :=
  search_from pattern.1 pattern.2 None text.

Definition IGNORECASE := true.
Definition no_flags := false.

Notation "'\b' r" := (Seq WordBoundary r) (at level 35, right associativity).
Notation "r1 '·' r2" := (Seq r1 r2) (at level 40, left associativity).
Notation "r1 '|||' r2" := (Alt r1 r2) (at level 50, left associativity).
Coercion Lit : string >-> regex.

Definition CATEGORY_PATTERNS : list ((bool * regex) * Q * string * string) :=
  [ (* Cameras *)
    ((no_flags, \b "DS-2CD"), 0.6, "Camera", "ds-2cd");
    ((IGNORECASE, \b "IPC" · WordBoundary), 0.5, "Camera", "ipc");
    ((IGNORECASE, \b "IP Cam" ||| "IPCam" ||| "Bullet" ||| "Dome"), 0.4, "Camera",
      "cam_keyword");
    (* NVR *)
    ((IGNORECASE, \b "NVR" · Digits), 0.6, "NVR", "nvr");
    ((IGNORECASE, \b "DS-76" ||| "DHI-NVR"), 0.5, "NVR", "nvr_prefix");
    (* DVR/XVR *)
    ((IGNORECASE, \b "DVR" · WordBoundary), 0.5, "DVR", "dvr");
    ((IGNORECASE, \b "XVR" · WordBoundary), 0.5, "DVR", "xvr");
    (* Switches / PoE *)
    ((IGNORECASE, \b "PoE" · WordBoundary), 0.3, "Switch", "poe");
    ((IGNORECASE, \b "Switch" ||| "SG" · Digit), 0.5, "Switch", "switch");
    (* Sensors *)
    ((IGNORECASE, \b "Sensor" · WordBoundary ||| "PIR" ||| "Motion"), 0.5, "Sensor",
      "sensor");
    ((IGNORECASE, \b "Magnetic" ||| "DoorContact"), 0.4, "Sensor", "doorcontact");
    (* Panels / Keypads *)
    ((IGNORECASE, \b "Panel" · WordBoundary ||| "Hub" ||| "Control" ||| "Keypad"), 0.5,
      "Panel", "panel");
    ((IGNORECASE, \b "DS-PK"), 0.5, "Panel", "ds-pk");
    (* Access control / locks *)
    ((IGNORECASE, \b "Reader" · WordBoundary ||| "Access" ||| "Lock" ||| "Strike"), 0.5,
      "Access Control", "access");
    (* Siren *)
    ((IGNORECASE, \b "Siren" · WordBoundary ||| "Horn"), 0.5, "Siren", "siren");
    (* Power *)
    ((IGNORECASE, \b "UPS" · WordBoundary ||| "PSU" ||| "Power Supply"), 0.5, "Power",
      "power") ]%Q.

(** *** [guess_category] *)

(** The values a material dict holds under its text keys. *)
Inductive pyval :=
  | PyNone
  | PyStr (s : string).

(** [str(v)] *)
Definition str (v : pyval) : string :=
  match v with
  | PyNone => "None"
  | PyStr s => s
  end.

(** [" ".join(parts)] *)
Fixpoint join (sep : string) (parts : list string) : string :=
  match parts with
  | [] => ""
  | [p] => p
  | p :: rest => p +:+ sep +:+ join sep rest
  end.

(** [d[key] += w] on a [defaultdict(float)]: a dict keeps its keys in the
    order of their first insertion. *)
Fixpoint add_score (key : string) (w : Q) (d : list (string * Q)) : list (string * Q) :=
  match d with
  | [] => [(key, (0 + w)%Q)]
  | (k, v) :: d' =>
      if String.eqb k key then (k, (v + w)%Q) :: d' else (k, v) :: add_score key w d'
  end.

(** [d[key].append(label)] on a [defaultdict(list)]. *)
Fixpoint add_evidence (key label : string) (d : list (string * list string))
    : list (string * list string) :=
  match d with
  | [] => [(key, [label])]
  | (k, v) :: d' =>
      if String.eqb k key then (k, (v ++ [label])%list) :: d'
      else (k, v) :: add_evidence key label d'
  end.

Definition lookup_assoc {V} (key : string) (d : list (string * V)) : option V :=
  snd <$> find (λ kv, String.eqb kv.1 key) d.

(** [max(scores, key=scores.get)]: the first key, in iteration order, whose
    score no later key exceeds. *)
Fixpoint max_key (best : string * Q) (d : list (string * Q)) : string * Q :=
  match d with
  | [] => best
  | (k, v) :: d' =>
      if Qle_bool v best.2 then max_key best d' else max_key (k, v) d'
  end.

(** [set(text.split())]: the distinct tokens. Python does not fix the order
    in which a set is iterated; the model keeps the tokens in the order of
    their last occurrence, and the order only matters for which of several
    top-scoring categories wins. *)
Definition token_set (tokens : list string) : list string := remove_dups tokens.

Definition guess_category (material : gmap string pyval)
    (alias_map : list (string * string))
    : outcome (option string * Q * string * list string) :=
  let text :=
    normalize
      (join " " ((λ k, str (default (PyStr "") (material !! k)))
                 <$> ["name"; "model"; "producer"; "description"])) in
  match extract_family (str (default (PyStr "") (material !! "model"))) with
  | Raise e => Raise e
  | Ok family =>
      (* Pattern matches *)
      let '(scores, evidence) :=
        foldl (λ '(scores, evidence) '(pattern, weight, cat, label),
                 if search pattern text
                 then (add_score cat weight scores, add_evidence cat label evidence)
                 else (scores, evidence))
          ([], []) CATEGORY_PATTERNS in
      (* Aliases *)
      let '(scores, evidence) :=
        foldl (λ '(scores, evidence) token,
                 match lookup_assoc token alias_map with
                 | Some cat =>
                     (add_score cat 0.25%Q scores,
                      add_evidence cat ("alias:" +:+ token) evidence)
                 | None => (scores, evidence)
                 end)
          (scores, evidence) (token_set (split text)) in
      match scores with
      | [] => Ok (None, 0%Q, family, [])
      | first :: others =>
          let '(best_cat, score) := max_key first others in
          let confidence := if Qle_bool 1 score then 1%Q else score in
          Ok (Some best_cat, confidence, family,
              default [] (lookup_assoc best_cat evidence))
      end
  end.

(** *** [get_alias_map] *)

(** [d[key] = value] on a dict, which keeps its keys in the order of their
    first insertion. *)
Fixpoint dict_set {V} (key : string) (value : V) (d : list (string * V))
    : list (string * V) :=
  match d with
  | [] => [(key, value)]
  | (k, v) :: d' =>
      if String.eqb k key then (k, value) :: d' else (k, v) :: dict_set key value d'
  end.

(** [{row[0].lower(): row[1] for row in cur.fetchall()}] over the rows of
    [category_aliases], read in rowid order. The SELECT fails when the table
    is missing; the handler then returns the empty dict (its warning goes to
    the logger of categorizer.py, of which the model keeps no record). *)
Definition get_alias_map : M (list (string * string)) :=
  λ c, if decide ("category_aliases" ∈ objects (live c))
       then (c, Ok (foldl (λ d row, dict_set (lower row.1) row.2 d) []
                      (category_aliases (live c))))
       else (c, Ok []).

End categorizer.

(** * database.py: dynamic categorisation

    The methods of [Database] that call the categorizer. *)

Module dynamic_categorisation.

Import database categorizer.

(** A nullable text column as the value of [dict(row)]. *)
Definition column (v : option string) : pyval :=
  match v with
  | Some s => PyStr s
  | None => PyNone
  end.

(** [dict(row)] for a row of [materials], on the four keys that
    [guess_category] reads. *)
Definition material_dict (r : material_row) : gmap string pyval :=
  {[ "name" := PyStr (m_name r); "model" := PyStr (m_model r);
     "producer" := column (m_producer r);
     "description" := column (m_description r) ]}.

Definition with_auto (cat : option string) (conf : Q) (family : string)
    (last_modified : Z) (r : material_row) : material_row :=
  MaterialRow (m_name r) (m_model r) (m_producer r) (m_description r)
    (m_image_path r) (m_retail_price r) (m_is_used r) (m_warranty_months r)
    (m_category r) cat conf (Some family) last_modified.

(** UPDATE materials SET auto_category=?, auto_confidence=?, model_family=?,
    last_modified=... WHERE id=? *)
Definition update_material_auto (now : clock) (material_id : Z) (cat : option string)
    (conf : Q) (family : string) (t : tables) : outcome tables :=
  Ok (set_materials (alter (with_auto cat conf family (epoch now)) material_id) t).

(** The dict that is returned is the row that was read, with the three
    entries of the guess; its [last_modified] is the one that was read. *)
Definition autocategorize_material (now : clock) (material_id : Z) : M material_row :=
  let! row := query (λ t, materials t !! material_id) in
  match row with
  | None =>
      raise (ValueError ("Material with id " +:+ pretty material_id +:+ " does not exist"))
  | Some material =>
      let! alias_map := get_alias_map in
      match guess_category (material_dict material) alias_map with
      | Raise e => raise e
      | Ok (cat, conf, family, _ev) =>
          execute (update_material_auto now material_id cat conf family) ;;;
          commit ;;;
          ret (with_auto cat conf family (m_last_modified material) material)
      end
  end.

(** INSERT OR REPLACE INTO category_aliases (token, category): [token] is
    UNIQUE, so a row that holds the token is deleted first; the new row gets
    the next rowid and comes last. *)
Definition replace_alias (token category : string) (t : tables) : outcome tables :=
  Ok (set_category_aliases
        (λ rows, filter (λ row, row.1 ≠ token) rows ++ [(token, category)]) t).

Definition learn_category_alias (token category : string) : M unit :=
  execute (replace_alias (lower token) category) ;;;
  commit.

End dynamic_categorisation.

(** * gui/user_management_gui.py: the role hierarchy *)

Module user_management_gui.

Definition ROLE_LEVELS : list (string * Z) :=
  [("viewer", 0); ("operator", 1); ("admin3", 2); ("admin2", 3); ("admin1", 4)].

Definition ALL_ROLES : list string :=
  ["viewer"; "operator"; "admin3"; "admin2"; "admin1"].

(** [ROLE_LEVELS.get(role, -1)] *)
Definition _role_level (role : string) : Z :=
  default (-1) (snd <$> find (λ kv, String.eqb kv.1 role) ROLE_LEVELS).

(** [self._can_manage_role(target_role)] on a tab whose [current_role] is
    the first argument. *)
Definition _can_manage_role (current_role target_role : string) : bool :=
  _role_level target_role <? _role_level current_role.

Definition _allowed_new_roles (current_role : string) : list string :=
  let my_level := _role_level current_role in
  filter (λ role, String.eqb current_role "admin1" = true
                  ∨ _role_level role < my_level) ALL_ROLES.

(** ** The actions of [UsersTab]

    A handler is a function of what the user does in the dialogs it opens;
    it returns what it shows and logs. [current_role] and [current_username]
    are the fields of the tab; [selected] holds the values of the row that is
    selected in the tree, if any. *)

Import database.

Inductive event :=
  | Showwarning (title message : string)
  | Showerror (title message : string)
  | Showinfo (title message : string)
  | Logged_error (message : string).

(** [str(exc)] *)
Definition exn_str (e : exn) : string :=
  match e with
  | ValueError msg | IntegrityError msg | OperationalError msg | TypeError msg
  | IndexError msg => msg
  end.

(** [try: body; except Exception as exc: handler(exc)] around a body that
    returns the events it produced. *)
Definition try_except (body : M (list event)) (handler : exn → list event)
    : M (list event) :=
  λ c, match body c with
       | (c', Ok events) => (c', Ok events)
       | (c', Raise exc) => (c', Ok (handler exc))
       end.

(** [refresh]: the tree is filled again; a failure of [list_users] is
    reported. *)
Definition refresh : M (list event) :=
  try_except (list_users ;;; ret [])
    (λ exc, [Logged_error ("Failed to list users: " +:+ exn_str exc);
             Showerror "Error" ("Failed to load users: " +:+ exn_str exc)]).

(** What the user does in the dialog of [_choose_role]: Cancel, or OK (or
    closing the window) after picking the entry [pick] of the read-only
    list, if any. *)
Inductive choice :=
  | Cancel
  | Accept (pick : option nat).

Definition _choose_role (roles : list string) (preselect : option string)
    (user : choice) : option string :=
  let first := default "" (head roles) in
  let value :=
    match preselect with
    | Some role => if decide (role ∈ roles) then role else first
    | None => first
    end in
  match user with
  | Cancel => None
  | Accept pick => Some (default value (pick ≫= (roles !!.)))
  end.

(** [not s] for a value that is a string or None. *)
Definition falsy (s : option string) : bool :=
  match s with
  | None | Some "" => true
  | Some _ => false
  end.

(** [username], [password] and [confirm] are the results of the three
    [askstring] dialogs; [salt] is what [os.urandom] gives [add_user]. *)
Definition _add_user (current_role : string) (salt : string)
    (username password confirm : option string) (user : choice) : M (list event) :=
  let options := _allowed_new_roles current_role in
  match options with
  | [] =>
      ret [Showwarning "Access denied" "You do not have permission to add users."]
  | _ :: _ =>
      if falsy username then ret [] else
      let username := default "" username in
      let! users := list_users in
      let existing_users := users.*1 in
      if decide (username ∈ existing_users)
      then ret [Showerror "Error" ("User '" +:+ username +:+ "' already exists.")]
      else
        if falsy password then ret [] else
        if negb (bool_decide (password = confirm))
        then ret [Showerror "Error" "Passwords do not match."]
        else
          let password := default "" password in
          let role := _choose_role options None user in
          if falsy role then ret [] else
          let role := default "" role in
          try_except
            (add_user salt username password role ;;;
             let! events := refresh in
             ret (Showinfo "User created"
                    ("User '" +:+ username +:+ "' created with role '" +:+ role +:+ "'.")
                  :: events))
            (λ exc, [Logged_error ("Failed to add user: " +:+ exn_str exc);
                     Showerror "Error" ("Failed to add user: " +:+ exn_str exc)])
  end.

Definition _change_role (current_role current_username : string)
    (selected : option (string * string)) (user : choice) : M (list event) :=
  match selected with
  | None => ret [Showwarning "Select user" "Please select a user to change role."]
  | Some (username, target_role) =>
      if String.eqb username current_username
      then ret [Showwarning "Not allowed" "You cannot change your own role."]
      else if negb (_can_manage_role current_role target_role)
      then ret [Showwarning "Access denied"
                  ("You do not have permission to change the role of '"
                   +:+ username +:+ "'.")]
      else
        let my_level := _role_level current_role in
        let allowed_roles := filter (λ r, _role_level r < my_level) ALL_ROLES in
        let allowed_roles :=
          if String.eqb current_role "admin1" then ALL_ROLES else allowed_roles in
        let new_role :=
          _choose_role allowed_roles (Some target_role) user in
        if falsy new_role || bool_decide (new_role = Some target_role) then ret [] else
        let new_role := default "" new_role in
        try_except
          (update_user_role username new_role ;;;
           let! events := refresh in
           ret (Showinfo "Role updated"
                  ("Updated role for '" +:+ username +:+ "' to '" +:+ new_role +:+ "'.")
                :: events))
          (λ exc, [Logged_error ("Failed to update user role: " +:+ exn_str exc);
                   Showerror "Error" ("Failed to update user role: " +:+ exn_str exc)])
  end.

(** [askyesno] is the answer to the confirmation. *)
Definition _delete_user (current_role current_username : string)
    (selected : option (string * string)) (askyesno : bool) : M (list event) :=
  match selected with
  | None => ret [Showwarning "Select user" "Please select a user to delete."]
  | Some (username, role) =>
      if String.eqb username current_username
      then ret [Showwarning "Not allowed" "You cannot delete your own account."]
      else if negb (_can_manage_role current_role role)
      then ret [Showwarning "Access denied"
                  ("You do not have permission to delete '" +:+ username +:+ "'.")]
      else if negb askyesno then ret []
      else
        try_except
          (delete_user username ;;;
           let! events := refresh in
           ret (Showinfo "User deleted" ("User '" +:+ username +:+ "' deleted.")
                :: events))
          (λ exc, [Logged_error ("Failed to delete user: " +:+ exn_str exc);
                   Showerror "Error" ("Failed to delete user: " +:+ exn_str exc)])
  end.

End user_management_gui.

(** * gui/customer_gui.py: assigning serials to a customer *)

Module customer_gui.

Import database categorizer user_management_gui.

Local Open Scope char_scope.


Local Open Scope string_scope.






End customer_gui.

Import database categorizer dynamic_categorisation user_management_gui customer_gui.

(** * Notions the properties are stated with *)

(** The assignment records of a serial, and those with [deleted=0]. *)
Definition records_of (serial : string) (t : tables) : list assignment_row :=
  filter (λ a, a_serial a = serial) (assignments t).

Definition active_records (serial : string) (t : tables) : list assignment_row :=
  filter (is_active serial) (assignments t).

Definition inventory_tables : list string :=
  ["customers"; "materials"; "serial_numbers"; "assignments"].

(** What holds of the inventory tables between two method calls: the tables
    exist, the foreign keys of [assignments.serial] and
    [serial_numbers.material_id] are satisfied, assignment ids are distinct,
    and a serial has one active record when it is assigned and none when it
    is not. *)
Record inv (t : tables) : Prop := Inv {
  inv_schema : ∀ name, name ∈ inventory_tables → name ∈ objects t;
  inv_assignment_serial :
    ∀ a, a ∈ assignments t → is_Some (serial_numbers t !! a_serial a);
  inv_serial_material :
    ∀ s r, serial_numbers t !! s = Some r → is_Some (materials t !! s_material_id r);
  inv_ids : NoDup (a_id <$> assignments t);
  inv_active :
    ∀ s r, serial_numbers t !! s = Some r →
      length (active_records s t)
      = match s_assigned_to r with Some _ => 1%nat | None => 0%nat end }.

Definition good (c : conn) : Prop := inv (live c) ∧ inv (durable c).

(** A method that writes neither [serial_numbers] nor [assignments] and
    leaves in place every material that a serial refers to. This is all the
    invariant needs to know of [update_customer], [set_material_fields],
    [set_material_category], [autocategorize_material],
    [batch_autocategorize], [learn_category_alias] and the user methods. *)
Definition other_write (t t' : tables) : Prop :=
  objects t' = objects t
  ∧ serial_numbers t' = serial_numbers t
  ∧ assignments t' = assignments t
  ∧ ∀ s r, serial_numbers t !! s = Some r → is_Some (materials t' !! s_material_id r).

(** The connections the program can be in between two method calls, from
    the first [Database(path)] on a new file. *)
Inductive reachable : conn → Prop :=
  | reach_new salt : reachable (Database salt empty_store)
  | reach_reopen c salt : reachable c → reachable (Database salt (durable c))
  | reach_add_customer c now customer_id name phone email pin4 :
      reachable c →
      reachable (after (add_customer now customer_id name phone email pin4) c)
  | reach_add_material c now name model producer description image_path
      retail_price is_used warranty_months :
      reachable c →
      reachable (after (add_material now name model producer description image_path
                          retail_price is_used warranty_months) c)
  | reach_add_serials c now material_id serials production_date acquisition_date
      retail_price :
      reachable c →
      reachable (after (add_serials_to_material now material_id serials
                          production_date acquisition_date retail_price) c)
  | reach_delete_serials c serials :
      reachable c → reachable (after (delete_serials serials) c)
  | reach_assign c now customer_id serial :
      reachable c → reachable (after (assign_serial_to_customer now customer_id serial) c)
  | reach_unassign c now serial force :
      reachable c → reachable (after (unassign_serial now serial force) c)
  | reach_transfer c now serials from_customer :
      reachable c →
      reachable (after (transfer_serials_to_used now serials from_customer) c)
  | reach_other c t' :
      reachable c → other_write (live c) t' →
      reachable (Conn t' t' false (logged c)).

(** The invariant of the specification, on one content of the store. *)
Definition assigned_iff_one_active (t : tables) : Prop :=
  ∀ serial r, serial_numbers t !! serial = Some r →
    (s_assigned_to r ≠ None ↔ length (active_records serial t) = 1%nat).

(** A method keeps the invariant, on what the connection sees and on what is
    committed. *)
Definition preserves {A} (m : M A) : Prop := ∀ c, good c → good (after m c).

(** The record that a successful [assign_serial_to_customer] inserts for the
    serial row [r] of material [m]. *)
Definition assignment_record (now : clock) (customer_id serial : string)
    (r : serial_row) (m : material_row) (t : tables) : assignment_row :=
  AssignmentRow (next_assignment_id t) customer_id serial (today now)
    (s_material_id r) (m_name m) (m_model m) (s_warranty_expiration r)
    (epoch now) 0 None.

(** The targets of the migrations that a run has announced, in order. *)
Definition applied_migrations (c : conn) : list Z :=
  omap (λ r, match r with Applying_migration target => Some target | _ => None end)
    (logged c).

(** The version that [_ensure_schema] works with on a store: the marker of
    the table [schema_version], or 0 when the table or its row is still to be
    created. *)
Definition stored_version (t : tables) : Z :=
  if decide ("schema_version" ∈ objects t) then default 0 (head (schema_version t))
  else 0.

(** A serial that exists and is assigned to nobody. *)
Definition available (serial : string) (t : tables) : Prop :=
  ∃ r, serial_numbers t !! serial = Some r ∧ s_assigned_to r = None.

(** The call ends in an exception. *)
Definition raises {A} (m : M A) (c : conn) : Prop := ∃ e, result m c = Raise e.

(** The content that a successful [assign_serial_to_customer] leaves. *)
Definition assigned_tables (now : clock) (customer_id serial : string)
    (r : serial_row) (m : material_row) (t : tables) : tables :=
  set_serial_numbers <[serial := with_assigned_to now (Some customer_id) r]>
    (set_assignments_seq (next_assignment_id t)
       (set_assignments
          (λ l, l ++ [assignment_record now customer_id serial r m t]) t)).


(** The content that [unassign_serial] leaves. *)
Definition unassigned_tables (now : clock) (serial : string) (force : bool)
    (t : tables) : tables :=
  set_serial_numbers (alter (with_assigned_to now None) serial)
    (match select_active_assignment serial t with
     | Some assignment_id =>
         set_assignments
           (if force then filter (λ a, a_id a ≠ assignment_id)
            else fmap (λ a, if decide (a_id a = assignment_id)
                            then with_deleted 1 a else a)) t
     | None => t
     end).


(** The material of the scenario: a dict with the two keys [name] and
    [model]. *)
Definition camera_4mp : gmap string pyval :=
  {[ "name" := PyStr "Camera 4MP"; "model" := PyStr "DS-2CD2343G2-I" ]}.

(** The same material with the two other text fields present and empty. *)
Definition camera_4mp_empty_fields : gmap string pyval :=
  {[ "name" := PyStr "Camera 4MP"; "model" := PyStr "DS-2CD2343G2-I";
     "producer" := PyStr ""; "description" := PyStr "" ]}.


(** What one round of the loop of [transfer_serials_to_used] leaves. *)
Definition transferred_one (now : clock) (from_customer : option string)
    (t : tables) (serial : string) : tables :=
  match select_holder_and_material serial t with
  | None => t
  | Some (assigned_to, material_id) =>
      set_serial_numbers (alter (with_s_last_modified now) serial)
        (set_materials (alter (with_is_used now 1) material_id)
           (if holder_matches assigned_to from_customer
            then unassigned_tables now serial false t else t))
  end.



(** The rows of the table [users]; a table that is still to be created has
    none. *)
Definition users_table (t : tables) : gmap string user_row :=
  if decide ("users" ∈ objects t) then users t else ∅.

(** A statement that leaves the table [schema_version] and its row alone,
    and the table [users] too. *)
Definition keeps_marker_and_users (f : tables → tables) : Prop :=
  ∀ t, "schema_version" ∈ objects t →
    "schema_version" ∈ objects (f t)
    ∧ schema_version (f t) = schema_version t
    ∧ users_table (f t) = users_table t
    ∧ ("users" ∈ objects t → "users" ∈ objects (f t)).

(** What a migration leaves of the marker and of the users, from [c] to
    [c1]. *)
Definition kept (c c1 : conn) : Prop :=
  "schema_version" ∈ objects (live c1)
  ∧ schema_version (live c1) = schema_version (live c)
  ∧ users_table (live c1) = users_table (live c)
  ∧ ("users" ∈ objects (live c) → "users" ∈ objects (live c1)).

(** The record of the default administrator. *)
Definition default_admin (salt : string) : user_row :=
  UserRow (_hash_password "admin" salt) salt "admin1".

(** The committed content after the first start of the program. *)
Definition migrated_store : tables := durable (Database "5a17" empty_store).

(** The store after the only user has been deleted, and the next start. *)
Definition emptied_store : tables :=
  durable (after (delete_user "admin") (Database "5a17" empty_store)).


(** A click on one of the three buttons of the users tab, with what the user
    does in the dialogs that the handler opens. *)
Inductive click :=
  | Add_user (salt : string) (username password confirm : option string) (user : choice)
  | Change_role (selected : option (string * string)) (user : choice)
  | Delete (selected : option (string * string)) (askyesno : bool).

(** The command that [_create_widgets] binds to the button. *)
Definition command (current_role current_username : string) (b : click)
    : M (list event) :=
  match b with
  | Add_user salt username password confirm user =>
      _add_user current_role salt username password confirm user
  | Change_role selected user => _change_role current_role current_username selected user
  | Delete selected askyesno => _delete_user current_role current_username selected askyesno
  end.

(** The connection after a series of clicks. *)
Definition session (current_role current_username : string) (clicks : list click)
    (c : conn) : conn :=
  foldl (λ c b, after (command current_role current_username b) c) c clicks.




(** Every assignment record that is active names the customer that the row
    of its serial names as holder. *)
Definition holder_recorded (t : tables) : Prop :=
  ∀ a, a ∈ assignments t → a_deleted a = 0 →
    ∃ r, serial_numbers t !! a_serial a = Some r
         ∧ s_assigned_to r = Some (a_customer_id a).

(** [t'] has the serials and the assignment records of [t]. *)
Definition same_rows (t t' : tables) : Prop :=
  serial_numbers t' = serial_numbers t ∧ assignments t' = assignments t.

(** A method that keeps the invariant and writes no serial and no
    assignment record. *)
Definition keeps_rows {A} (m : M A) : Prop :=
  ∀ t c, good c → same_rows t (live c) → same_rows t (durable c) →
    good (after m c) ∧ same_rows t (live (after m c))
    ∧ same_rows t (durable (after m c)).

(** * Proofs *)

(** ** Row ids *)

Lemma foldr_max_bound (seq : Z) (ids : list Z) :
  seq ≤ foldr Z.max seq ids ∧ ∀ x, x ∈ ids → x ≤ foldr Z.max seq ids.
Proof.
  induction ids as [|i ids [IH1 IH2]]; simpl.
  - split; [lia|]. intros x Hx. inversion Hx.
  - split; [lia|]. intros x Hx. apply elem_of_cons in Hx as [->|Hx]; [lia|].
    specialize (IH2 x Hx). lia.
Qed.

Lemma next_rowid_fresh (seq : Z) (ids : list Z) : next_rowid seq ids ∉ ids.
Proof.
  intros Hin. apply (foldr_max_bound seq) in Hin. unfold next_rowid in Hin. lia.
Qed.


Lemma same_id_same_row (l : list assignment_row) (a b : assignment_row) :
  NoDup (a_id <$> l) → a ∈ l → b ∈ l → a_id a = a_id b → a = b.
Proof.
  induction l as [|x l IH]; simpl; intros Hnd Ha Hb Heq; [inversion Ha|].
  apply NoDup_cons in Hnd as [Hx Hnd].
  apply elem_of_cons in Ha as [->|Ha]; apply elem_of_cons in Hb as [->|Hb]; auto.
  - exfalso. apply Hx. rewrite Heq. apply list_elem_of_fmap. eauto.
  - exfalso. apply Hx. rewrite <- Heq. apply list_elem_of_fmap. eauto.
Qed.

(** ** Deleting keys *)

Lemma lookup_foldr_delete {V} (m : gmap string V) (l : list string) (s : string) :
  foldr delete m l !! s = if decide (s ∈ l) then None else m !! s.
Proof.
  induction l as [|x l IH]; simpl.
  - destruct (decide (s ∈ [])) as [H|]; [inversion H|done].
  - destruct (decide (x = s)) as [->|Hne].
    + rewrite lookup_delete_eq. rewrite decide_True; [done|]. apply elem_of_cons; auto.
    + rewrite lookup_delete_ne by done. rewrite IH.
      destruct (decide (s ∈ l)) as [Hin|Hnin].
      * rewrite decide_True; [done|]. apply elem_of_cons; auto.
      * rewrite decide_False; [done|]. intros [->|H]%elem_of_cons; done.
Qed.

(** ** Filters over the assignment rows *)

Lemma filter_fmap_length {A} (P Q : A → Prop) `{∀ x, Decision (P x)}
    `{∀ x, Decision (Q x)} (f : A → A) (l : list A) :
  (∀ b, b ∈ l → (P (f b) ↔ Q b)) →
  length (filter P (f <$> l)) = length (filter Q l).
Proof.
  induction l as [|x l IH]; intros Hf; [done|].
  rewrite fmap_cons, !filter_cons.
  assert (Hx : P (f x) ↔ Q x) by (apply Hf; left).
  assert (IH' : length (filter P (f <$> l)) = length (filter Q l)).
  { apply IH. intros b Hb. apply Hf. by right. }
  destruct (decide (P (f x))), (decide (Q x)); simpl; tauto || lia.
Qed.

Lemma filter_filter_implied {A} (P Q : A → Prop) `{∀ x, Decision (P x)}
    `{∀ x, Decision (Q x)} (l : list A) :
  (∀ b, b ∈ l → P b → Q b) → filter P (filter Q l) = filter P l.
Proof.
  induction l as [|x l IH]; intros Hf; [done|].
  assert (IH' : filter P (filter Q l) = filter P l).
  { apply IH. intros b Hb. apply Hf. by right. }
  rewrite (filter_cons Q). destruct (decide (Q x)) as [Hq|Hq].
  - rewrite !filter_cons. destruct (decide (P x)); by rewrite IH'.
  - rewrite IH'. rewrite filter_cons_False; [done|].
    intros Hp. apply Hq, Hf; [left|done].
Qed.

Lemma filter_length_0 {A} (P : A → Prop) `{∀ x, Decision (P x)} (l : list A) :
  (∀ b, b ∈ l → ¬ P b) → filter P l = [].
Proof.
  induction l as [|x l IH]; intros Hf; [done|].
  rewrite filter_cons_False by (apply Hf; left).
  apply IH. intros b Hb. apply Hf. by right.
Qed.

Lemma latest_singleton (a : assignment_row) : latest [a] = Some a.
Proof. reflexivity. Qed.

Lemma latest_None (l : list assignment_row) : latest l = None → l = [].
Proof.
  destruct l as [|a l]; [done|]. simpl.
  destruct (latest l); [|done]. by destruct (String.ltb _ _).
Qed.

Lemma latest_elem_of (l : list assignment_row) (a : assignment_row) :
  latest l = Some a → a ∈ l.
Proof.
  revert a. induction l as [|x l IH]; intros a; simpl; [done|].
  destruct (latest l) as [b|].
  - destruct (String.ltb _ _); intros [= <-]; [right; by apply IH|left].
  - intros [= <-]. left.
Qed.

(** ** The invariant under each statement *)

Lemma inv_frame (t t' : tables) :
  (∀ name, name ∈ inventory_tables → name ∈ objects t → name ∈ objects t') →
  serial_numbers t' = serial_numbers t →
  assignments t' = assignments t →
  (∀ s r, serial_numbers t !! s = Some r → is_Some (materials t' !! s_material_id r)) →
  inv t → inv t'.
Proof.
  intros Ho Hs Ha Hm [I1 I2 I3 I4 I5].
  constructor; unfold active_records; rewrite ?Hs, ?Ha; auto.
Qed.

Lemma inv_insert_customer now customer_id name phone email pin4 t t' :
  insert_customer now customer_id name phone email pin4 t = Ok t' → inv t → inv t'.
Proof.
  unfold insert_customer. destruct (customers t !! customer_id); [done|].
  intros [= <-] Hinv. eapply inv_frame; [| | | |exact Hinv]; simpl; auto.
  apply Hinv.
Qed.

Lemma inv_insert_material now name model producer description image_path
    retail_price is_used warranty_months t t' :
  insert_material now name model producer description image_path retail_price
    is_used warranty_months t = Ok t' →
  inv t → inv t'.
Proof.
  unfold insert_material. intros [= <-] Hinv.
  eapply inv_frame; [| | | |exact Hinv]; simpl; auto.
  intros s r Hs. destruct (inv_serial_material _ Hinv s r Hs) as [m Hm].
  destruct (decide (next_material_id t = s_material_id r)) as [<-|Hne].
  - rewrite lookup_insert_eq. eauto.
  - rewrite lookup_insert_ne by done. eauto.
Qed.

Lemma inv_alter_material (f : material_row → material_row) material_id t :
  inv t → inv (set_materials (alter f material_id) t).
Proof.
  intros Hinv. eapply inv_frame; [| | | |exact Hinv]; simpl; auto.
  intros s r Hs. destruct (inv_serial_material _ Hinv s r Hs) as [m Hm].
  apply lookup_alter_is_Some. eauto.
Qed.

Lemma no_record_of_missing_serial t s :
  inv t → serial_numbers t !! s = None → records_of s t = [].
Proof.
  intros Hinv Hs. apply filter_length_0. intros b Hb Heq.
  destruct (inv_assignment_serial _ Hinv b Hb) as [r Hr]. congruence.
Qed.

Lemma no_active_of_missing_serial t s :
  inv t → serial_numbers t !! s = None → active_records s t = [].
Proof.
  intros Hinv Hs. apply filter_length_0. intros b Hb [Heq _].
  destruct (inv_assignment_serial _ Hinv b Hb) as [r Hr]. congruence.
Qed.

Lemma inv_insert_serial now serial material_id production_date acquisition_date
    retail_price t t' :
  insert_serial now serial material_id production_date acquisition_date
    retail_price t = Ok t' →
  inv t → inv t'.
Proof.
  unfold insert_serial.
  destruct (serial_numbers t !! serial) eqn:Hs; [done|].
  destruct (materials t !! material_id) eqn:Hm; [|done].
  intros [= <-] Hinv. pose proof Hinv as [I1 I2 I3 I4 I5].
  constructor; unfold active_records; simpl; auto.
  - intros a Ha. destruct (decide (serial = a_serial a)) as [->|Hne].
    + rewrite lookup_insert_eq. eauto.
    + rewrite lookup_insert_ne by done. auto.
  - intros s r. destruct (decide (serial = s)) as [->|Hne].
    + rewrite lookup_insert_eq. intros [= <-]. simpl. eauto.
    + rewrite lookup_insert_ne by done. apply I3.
  - intros s r. destruct (decide (serial = s)) as [->|Hne].
    + rewrite lookup_insert_eq. intros [= <-]. simpl.
      fold (active_records s t). by rewrite no_active_of_missing_serial.
    + rewrite lookup_insert_ne by done. apply I5.
Qed.

Lemma inv_delete_serial_rows serials t : inv t → inv (delete_serial_rows serials t).
Proof.
  intros Hinv. pose proof Hinv as [I1 I2 I3 I4 I5].
  constructor; unfold active_records, delete_serial_rows; simpl; auto.
  - intros a [Hkeep Ha]%list_elem_of_filter. rewrite lookup_foldr_delete.
    destruct (decide (a_serial a ∈ serials)) as [Hin|]; [|by apply I2].
    exfalso. apply Hkeep. split; [done|by apply I2].
  - intros s r. rewrite lookup_foldr_delete.
    destruct (decide (s ∈ serials)); [done|]. apply I3.
  - eapply sublist_NoDup; [exact I4|]. apply fmap_sublist, sublist_filter.
  - intros s r. rewrite lookup_foldr_delete.
    destruct (decide (s ∈ serials)) as [|Hnin]; [done|]. intros Hs.
    rewrite filter_filter_implied; [by apply I5|].
    intros b _ [Heq _] [Hin _]. apply Hnin. by rewrite <- Heq.
Qed.

Lemma inv_alter_serial (f : serial_row → serial_row) serial t :
  (∀ r, s_material_id (f r) = s_material_id r) →
  (∀ r, s_assigned_to (f r) = s_assigned_to r) →
  inv t → inv (set_serial_numbers (alter f serial) t).
Proof.
  intros Hm Ha [I1 I2 I3 I4 I5].
  constructor; unfold active_records; simpl; auto.
  - intros a Hin. apply lookup_alter_is_Some. auto.
  - intros s r. destruct (decide (serial = s)) as [->|Hne].
    + rewrite lookup_alter_eq. destruct (serial_numbers t !! s) as [r0|] eqn:Hs; [|done].
      simpl. intros [= <-]. rewrite Hm. eauto.
    + rewrite lookup_alter_ne by done. apply I3.
  - intros s r. destruct (decide (serial = s)) as [->|Hne].
    + rewrite lookup_alter_eq. destruct (serial_numbers t !! s) as [r0|] eqn:Hs; [|done].
      simpl. intros [= <-]. rewrite Ha. by apply I5.
    + rewrite lookup_alter_ne by done. apply I5.
Qed.

(** The two writes of [assign_serial_to_customer], taken together. *)
Lemma inv_assign now customer_id serial material_id mat_name mat_model warranty_exp
    r t t1 t2 :
  inv t →
  serial_numbers t !! serial = Some r → s_assigned_to r = None →
  insert_assignment now customer_id serial material_id mat_name mat_model
    warranty_exp t = Ok t1 →
  update_serial_assigned_to now customer_id serial t1 = Ok t2 →
  inv t2.
Proof.
  intros Hinv Hs Hfree. pose proof Hinv as [I1 I2 I3 I4 I5].
  unfold insert_assignment. rewrite Hs.
  destruct (customers t !! customer_id) eqn:Hc; [|done].
  destruct (materials t !! material_id) eqn:Hm; [|done].
  intros [= <-]. unfold update_serial_assigned_to. simpl. rewrite Hs, Hc.
  intros [= <-].
  constructor; unfold active_records; simpl; auto.
  - intros a [Ha|Ha]%elem_of_app.
    + apply lookup_insert_is_Some'. right. auto.
    + apply list_elem_of_singleton in Ha as ->. simpl. rewrite lookup_insert_eq. eauto.
  - intros s r'. destruct (decide (serial = s)) as [->|Hne].
    + rewrite lookup_insert_eq. intros [= <-]. simpl. eauto.
    + rewrite lookup_insert_ne by done. apply I3.
  - rewrite fmap_app. apply NoDup_app. split; [done|]. split; [|apply NoDup_singleton].
    intros x Hx Hx'. apply list_elem_of_singleton in Hx'. subst x.
    by apply next_rowid_fresh in Hx.
  - intros s r'. rewrite filter_app, length_app.
    destruct (decide (serial = s)) as [->|Hne].
    + rewrite lookup_insert_eq. intros [= <-]. simpl.
      specialize (I5 s r Hs). rewrite Hfree in I5. unfold active_records in I5.
      rewrite I5. by rewrite filter_cons_True by (by split).
    + rewrite lookup_insert_ne by done. intros Hs'.
      rewrite filter_cons_False by (intros [Heq _]; simpl in Heq; done).
      simpl. rewrite Nat.add_0_r. by apply I5.
Qed.

(** The writes of [unassign_serial], taken together. *)
Lemma inv_unassign now serial (force : bool) t t1 t2 :
  inv t →
  match select_active_assignment serial t with
  | Some assignment_id =>
      if force then delete_assignment assignment_id t
      else mark_assignment_deleted assignment_id t
  | None => Ok t
  end = Ok t1 →
  clear_serial_assigned_to now serial t1 = Ok t2 →
  inv t2.
Proof.
  intros Hinv. pose proof Hinv as [I1 I2 I3 I4 I5].
  unfold select_active_assignment. fold (active_records serial t).
  destruct (active_records serial t) as [|a rest] eqn:HA.
  - (* nothing to retire *)
    simpl. intros [= <-] [= <-].
    constructor; unfold active_records; simpl; auto.
    + intros b Hb. apply lookup_alter_is_Some. auto.
    + intros s r. destruct (decide (serial = s)) as [->|Hne].
      * rewrite lookup_alter_eq.
        destruct (serial_numbers t !! s) as [r0|] eqn:Hs; [|done].
        simpl. intros [= <-]. simpl. eauto.
      * rewrite lookup_alter_ne by done. apply I3.
    + intros s r. destruct (decide (serial = s)) as [->|Hne].
      * rewrite lookup_alter_eq.
        destruct (serial_numbers t !! s) as [r0|] eqn:Hs; [|done].
        simpl. intros [= <-]. simpl. fold (active_records s t). by rewrite HA.
      * rewrite lookup_alter_ne by done. apply I5.
  - (* the serial has an active record: it is the only one *)
    destruct (serial_numbers t !! serial) as [r|] eqn:Hs;
      [|by rewrite no_active_of_missing_serial in HA].
    pose proof (I5 serial r Hs) as Hone. rewrite HA in Hone.
    destruct rest as [|? ?]; [|by destruct (s_assigned_to r)].
    rewrite latest_singleton. simpl.
    assert (Ha : is_active serial a ∧ a ∈ assignments t).
    { apply (list_elem_of_filter (is_active serial)).
      fold (active_records serial t). rewrite HA. left. }
    destruct Ha as [[Haser Hadel] Hain].
    assert (Honly : ∀ b, b ∈ assignments t → is_active serial b → b = a).
    { intros b Hb Hact.
      assert (Hin : b ∈ active_records serial t)
        by (by apply (list_elem_of_filter (is_active serial))).
      rewrite HA in Hin. by apply list_elem_of_singleton in Hin. }
    assert (Hsame : ∀ b, b ∈ assignments t → a_id b = a_id a → b = a).
    { intros b Hb Hid. by apply (same_id_same_row (assignments t)). }
    intros Ht1 [= <-].
    destruct force; injection Ht1 as <-.
    + (* DELETE *)
      constructor; unfold active_records; simpl; auto.
      * intros b [_ Hb]%list_elem_of_filter. apply lookup_alter_is_Some. auto.
      * intros s r'. destruct (decide (serial = s)) as [->|Hne].
        -- rewrite lookup_alter_eq, Hs. simpl. intros [= <-]. simpl. eauto.
        -- rewrite lookup_alter_ne by done. apply I3.
      * eapply sublist_NoDup; [exact I4|]. apply fmap_sublist, sublist_filter.
      * intros s r'. destruct (decide (serial = s)) as [->|Hne].
        -- rewrite lookup_alter_eq, Hs. simpl. intros [= <-]. simpl.
           rewrite filter_length_0; [done|].
           intros b [Hid Hb]%list_elem_of_filter Hact. apply Hid.
           by rewrite (Honly b Hb Hact).
        -- rewrite lookup_alter_ne by done. intros Hs'.
           rewrite filter_filter_implied; [by apply I5|].
           intros b Hb [Hser _] Hid. rewrite (Hsame b Hb Hid) in Hser. congruence.
    + (* UPDATE ... SET deleted=1 *)
      constructor; unfold active_records; simpl; auto.
      * intros b' [b [-> Hb]]%list_elem_of_fmap. apply lookup_alter_is_Some.
        destruct (decide (a_id b = a_id a)); simpl; auto.
      * intros s r'. destruct (decide (serial = s)) as [->|Hne].
        -- rewrite lookup_alter_eq, Hs. simpl. intros [= <-]. simpl. eauto.
        -- rewrite lookup_alter_ne by done. apply I3.
      * rewrite <- list_fmap_compose.
        erewrite list_fmap_ext; [exact I4|]. intros i b _. simpl.
        by destruct (decide (a_id b = a_id a)).
      * intros s r'. destruct (decide (serial = s)) as [->|Hne].
        -- rewrite lookup_alter_eq, Hs. simpl. intros [= <-]. simpl.
           rewrite filter_length_0; [done|].
           intros b' [b [-> Hb]]%list_elem_of_fmap.
           destruct (decide (a_id b = a_id a)) as [Hid|Hid].
           ++ intros [_ Hdel]. simpl in Hdel. done.
           ++ intros Hact. apply Hid. by rewrite (Honly b Hb Hact).
        -- rewrite lookup_alter_ne by done. intros Hs'.
           rewrite (filter_fmap_length _ (is_active s)); [by apply I5|].
           intros b Hb. destruct (decide (a_id b = a_id a)) as [Hid|Hid]; [|done].
           rewrite (Hsame b Hb Hid). unfold is_active. simpl. split; intros [? _]; congruence.
Qed.

(** ** The invariant under each method *)

Lemma preserves_ret {A} (a : A) : preserves (ret a).
Proof. by intros c Hc. Qed.

Lemma preserves_raise {A} (e : exn) : preserves (@raise A e).
Proof. by intros c Hc. Qed.

Lemma preserves_query {A} (f : tables → A) : preserves (query f).
Proof. by intros c Hc. Qed.

Lemma preserves_log (r : log_record) : preserves (log r).
Proof. by intros c Hc. Qed.

Lemma preserves_commit : preserves commit.
Proof. intros c [Hl _]. by split. Qed.

Lemma preserves_bind {A B} (m : M A) (k : A → M B) :
  preserves m → (∀ a, preserves (k a)) → preserves (bind m k).
Proof.
  intros Hm Hk c Hc. specialize (Hm c Hc). unfold after, bind in *.
  destruct (m c) as [c' [a|e]]; simpl in *; [by apply Hk|done].
Qed.

Lemma preserves_execute (f : tables → outcome tables) :
  (∀ t t', f t = Ok t' → inv t → inv t') → preserves (execute f).
Proof.
  intros Hf c [Hl Hd]. unfold after, execute.
  destruct (f (live c)) as [t'|e] eqn:Ht; simpl; split; eauto.
Qed.

Lemma preserves_execute_ddl (f : tables → tables) :
  (∀ t, inv t → inv (f t)) → preserves (execute_ddl f).
Proof.
  intros Hf c [Hl Hd]. unfold after, execute_ddl.
  destruct (in_transaction c); simpl; split; simpl; auto.
Qed.

Lemma preserves_executescript (f : tables → tables) :
  (∀ t, inv t → inv (f t)) → preserves (executescript f).
Proof.
  intros Hf. apply preserves_bind; [apply preserves_commit|].
  intros _. by apply preserves_execute_ddl.
Qed.

Lemma preserves_except_IntegrityError (body : M unit) (handler : exn → M unit) :
  preserves body → (∀ e, preserves (handler e)) →
  preserves (except_IntegrityError body handler).
Proof.
  intros Hb Hh c Hc. specialize (Hb c Hc). unfold after, except_IntegrityError in *.
  destruct (body c) as [c' [a|[]]]; simpl in *; try done. by apply Hh.
Qed.

Lemma preserves_except_Exception (body : M unit) (handler : exn → M unit) :
  preserves body → (∀ e, preserves (handler e)) →
  preserves (except_Exception body handler).
Proof.
  intros Hb Hh c Hc. specialize (Hb c Hc). unfold after, except_Exception in *.
  destruct (body c) as [c' [a|e]]; simpl in *; [done|]. by apply Hh.
Qed.

Create HintDb preserves.
#[local] Hint Resolve preserves_ret preserves_raise preserves_query preserves_log
  preserves_commit : preserves.

(** Writes that leave the inventory tables alone. *)
Lemma inv_set_users f t : inv t → inv (set_users f t).
Proof. intros H. eapply inv_frame; [| | | |exact H]; simpl; auto. apply H. Qed.

Lemma inv_set_schema_version f t : inv t → inv (set_schema_version f t).
Proof. intros H. eapply inv_frame; [| | | |exact H]; simpl; auto. apply H. Qed.

Lemma inv_set_category_aliases f t : inv t → inv (set_category_aliases f t).
Proof. intros H. eapply inv_frame; [| | | |exact H]; simpl; auto. apply H. Qed.

Lemma inv_create_table name no_rows t :
  (name ∈ inventory_tables ∨ ∀ t, inv t → inv (no_rows t)) →
  inv t → inv (create_table_if_not_exists name no_rows t).
Proof.
  intros Hn H. unfold create_table_if_not_exists.
  destruct (decide (name ∈ objects t)) as [Hin|Hnin]; [done|].
  destruct Hn as [Hn|Hn]; [exfalso; by apply Hnin, H|].
  apply Hn. eapply inv_frame; [| | | |exact H]; simpl; auto.
  - intros n' _ Hn'. apply elem_of_union. by left.
  - apply H.
Qed.

Lemma inv_create_index name t : inv t → inv (create_index_if_not_exists name t).
Proof.
  intros H. eapply inv_frame; [| | | |exact H]; simpl; auto.
  - intros n' _ Hn'. apply elem_of_union. by left.
  - apply H.
Qed.

Lemma inv_create_schema_version t : inv t → inv (create_schema_version t).
Proof.
  apply inv_create_table. right. intros t'. apply inv_set_schema_version.
Qed.

Lemma preserves_add_customer now customer_id name phone email pin4 :
  preserves (add_customer now customer_id name phone email pin4).
Proof.
  apply preserves_bind; [|auto with preserves].
  apply preserves_execute. intros t t'. apply inv_insert_customer.
Qed.

Lemma preserves_add_material now name model producer description image_path
    retail_price is_used warranty_months :
  preserves (add_material now name model producer description image_path
               retail_price is_used warranty_months).
Proof.
  apply preserves_bind; [auto with preserves|]. intros material_id.
  apply preserves_bind.
  - apply preserves_execute. intros t t'. apply inv_insert_material.
  - intros _. apply preserves_bind; auto with preserves.
Qed.

Lemma preserves_add_serials_to_material now material_id serials production_date
    acquisition_date retail_price :
  preserves (add_serials_to_material now material_id serials production_date
               acquisition_date retail_price).
Proof.
  apply preserves_bind; [|auto with preserves].
  induction serials as [|serial rest IH]; simpl; [auto with preserves|].
  apply preserves_bind; [|by intros _].
  apply preserves_except_IntegrityError; [|auto with preserves].
  apply preserves_execute. intros t t'. apply inv_insert_serial.
Qed.

Lemma preserves_delete_serials serials : preserves (delete_serials serials).
Proof.
  apply preserves_bind; [|auto with preserves].
  apply preserves_execute. intros t t' [= <-]. apply inv_delete_serial_rows.
Qed.

Lemma preserves_assign_serial_to_customer now customer_id serial :
  preserves (assign_serial_to_customer now customer_id serial).
Proof.
  intros c [Hl Hd].
  unfold after, assign_serial_to_customer, bind, query, raise, execute, commit,
    select_available_serial, select_material_name_model.
  destruct (serial_numbers (live c) !! serial) as [r|] eqn:Hs; [|done].
  destruct (s_assigned_to r) eqn:Hfree; [done|].
  destruct (materials (live c) !! s_material_id r) as [m|] eqn:Hm; [|done]. simpl.
  destruct (insert_assignment _ _ _ _ _ _ _ (live c)) as [t1|e] eqn:H1; [|done]. simpl.
  assert (Hc : is_Some (customers t1 !! customer_id) ∧ serial_numbers t1 !! serial = Some r).
  { unfold insert_assignment in H1. rewrite Hs, Hm in H1.
    destruct (customers (live c) !! customer_id) eqn:Hc; [|done].
    injection H1 as <-. simpl. split; eauto. }
  destruct Hc as [[cr Hc] Hs1].
  destruct (update_serial_assigned_to _ _ _ t1) as [t2|e] eqn:H2; simpl.
  - assert (inv t2) by exact (inv_assign _ _ _ _ _ _ _ _ _ _ _ Hl Hs Hfree H1 H2).
    by split.
  - unfold update_serial_assigned_to in H2. by rewrite Hs1, Hc in H2.
Qed.

Lemma preserves_unassign_serial now serial force :
  preserves (unassign_serial now serial force).
Proof.
  intros c [Hl Hd].
  assert (Hinv : ∀ t1 t2,
    match select_active_assignment serial (live c) with
    | Some assignment_id =>
        if force then delete_assignment assignment_id (live c)
        else mark_assignment_deleted assignment_id (live c)
    | None => Ok (live c)
    end = Ok t1 →
    clear_serial_assigned_to now serial t1 = Ok t2 → inv t2)
    by (intros t1 t2; by apply inv_unassign).
  unfold after, unassign_serial, bind, query, ret, execute, commit in *.
  destruct (select_active_assignment serial (live c)) as [assignment_id|]; simpl.
  - destruct force; simpl; split; eapply Hinv; reflexivity.
  - split; eapply Hinv; reflexivity.
Qed.

Lemma preserves_transfer_serials_to_used now serials from_customer :
  preserves (transfer_serials_to_used now serials from_customer).
Proof.
  apply preserves_bind; [|auto with preserves].
  induction serials as [|serial rest IH]; simpl; [auto with preserves|].
  apply preserves_bind; [auto with preserves|]. intros [[assigned_to material_id]|]; [|done].
  apply preserves_bind.
  { destruct (holder_matches _ _);
      [apply preserves_unassign_serial|auto with preserves]. }
  intros _. apply preserves_bind.
  { apply preserves_execute. intros t t' [= <-]. apply inv_alter_material. }
  intros _. apply preserves_bind; [|by intros _].
  apply preserves_execute. intros t t' [= <-]. by apply inv_alter_serial.
Qed.

Lemma preserves__ensure_default_admin_user salt :
  preserves (_ensure_default_admin_user salt).
Proof.
  apply preserves_bind; [auto with preserves|]. intros [|]; [|auto with preserves].
  apply preserves_bind; [auto with preserves|]. intros [|n]; [|auto with preserves].
  apply preserves_bind; [auto with preserves|]. intros _.
  apply preserves_bind; [|auto with preserves].
  apply preserves_execute. intros t t'. unfold insert_user.
  destruct (decide _); [|done]. destruct (users t !! "admin"); [done|].
  intros [= <-]. apply inv_set_users.
Qed.

Lemma preserves_migration (migration : M unit) :
  migration ∈ migrations → preserves migration.
Proof.
  unfold migrations. rewrite !elem_of_cons, elem_of_nil.
  intros [->|[->|[->|[]]]].
  - apply preserves_bind; [|intros _]; apply preserves_executescript.
    + intros t Ht. unfold script. simpl.
      apply inv_create_schema_version.
      apply inv_create_table; [right; apply inv_set_category_aliases|].
      apply inv_create_table; [left; set_solver|].
      apply inv_create_table; [left; set_solver|].
      apply inv_create_table; [left; set_solver|].
      apply inv_create_table; [left; set_solver|]. done.
    + intros t Ht. unfold script. simpl. do 7 apply inv_create_index. done.
  - apply preserves_ret.
  - apply preserves_bind; [|intros _]; apply preserves_execute_ddl.
    + intros t. apply inv_create_table. right. intros t'. apply inv_set_users.
    + intros t. apply inv_create_index.
Qed.

Lemma preserves_migration_loop version start (steps : list (M unit)) :
  (∀ migration, migration ∈ steps → preserves migration) →
  preserves (migration_loop version (enumerate start steps)).
Proof.
  revert start. induction steps as [|migration rest IH]; intros start Hall; simpl;
    [auto with preserves|].
  apply preserves_bind.
  - destruct (version <? start); [|auto with preserves].
    apply preserves_bind; [auto with preserves|]. intros _.
    apply preserves_bind; [apply Hall; left|]. intros _.
    apply preserves_bind; [|auto with preserves].
    apply preserves_execute. intros t t' [= <-]. apply inv_set_schema_version.
  - intros _. apply IH. intros m Hm. apply Hall. by right.
Qed.

Lemma preserves__ensure_schema salt : preserves (_ensure_schema salt).
Proof.
  apply preserves_bind.
  { apply preserves_execute_ddl. intros t. apply inv_create_schema_version. }
  intros _. apply preserves_bind; [auto with preserves|]. intros count.
  apply preserves_bind.
  { destruct count; [|auto with preserves].
    apply preserves_bind; [|auto with preserves].
    apply preserves_execute. intros t t' [= <-]. apply inv_set_schema_version. }
  intros _. apply preserves_bind.
  { apply preserves_bind; [auto with preserves|].
    intros [version|]; auto with preserves. }
  intros version. apply preserves_bind.
  { apply preserves_migration_loop, preserves_migration. }
  intros _. apply preserves_except_Exception; [|auto with preserves].
  apply preserves__ensure_default_admin_user.
Qed.


Lemma good_new_database salt : good (Database salt empty_store).
Proof.
  assert (Hs : serial_numbers (live (Database salt empty_store)) = ∅)
    by (vm_compute; reflexivity).
  assert (Ha : assignments (live (Database salt empty_store)) = [])
    by (vm_compute; reflexivity).
  assert (Hd : durable (Database salt empty_store) = live (Database salt empty_store))
    by (vm_compute; reflexivity).
  assert (Hl : ∀ x, x ∈ inventory_tables →
               x ∈ objects (live (Database salt empty_store))).
  { intros x. unfold inventory_tables. rewrite !elem_of_cons, elem_of_nil.
    intros [->|[->|[->|[->|[]]]]]; apply (bool_decide_unpack _); vm_compute; exact I. }
  assert (inv (live (Database salt empty_store))); [|split; [|rewrite Hd]; assumption].
  constructor; unfold active_records; rewrite ?Hs, ?Ha.
  - exact Hl.
  - intros a Hin. inversion Hin.
  - intros s r Hr. rewrite lookup_empty in Hr. discriminate.
  - constructor.
  - intros s r Hr. rewrite lookup_empty in Hr. discriminate.
Qed.

Lemma reachable_good c : reachable c → good c.
Proof.
  induction 1 as [salt|c salt _ IH| | | | | | | |c t' _ IH Hother].
  - apply good_new_database.
  - apply preserves__ensure_schema. destruct IH as [_ Hd]. by split.
  - by apply preserves_add_customer.
  - by apply preserves_add_material.
  - by apply preserves_add_serials_to_material.
  - by apply preserves_delete_serials.
  - by apply preserves_assign_serial_to_customer.
  - by apply preserves_unassign_serial.
  - by apply preserves_transfer_serials_to_used.
  - destruct IH as [Hl _], Hother as (Ho & Hs & Ha & Hm).
    assert (inv t'); [|by split].
    eapply inv_frame; [| | | |exact Hl]; auto. intros name _. by rewrite Ho.
Qed.

Lemma inv_assigned_iff_one_active t : inv t → assigned_iff_one_active t.
Proof.
  intros Hinv serial r Hs. rewrite (inv_active _ Hinv serial r Hs).
  destruct (s_assigned_to r); split; intros H; done.
Qed.

Lemma smoke_store_reachable : reachable smoke_store.
Proof.
  apply reach_add_serials, reach_add_material, reach_add_customer, reach_new.
Qed.


(** ** [assign_serial_to_customer], case by case *)

Lemma assign_unavailable now customer_id serial c :
  ¬ available serial (live c) →
  assign_serial_to_customer now customer_id serial c
  = (c, Raise (ValueError ("Serial " +:+ serial +:+ " not available or does not exist"))).
Proof.
  intros Hna. unfold assign_serial_to_customer, bind, query, raise,
    select_available_serial.
  destruct (serial_numbers (live c) !! serial) as [r|] eqn:Hs; [|done].
  destruct (s_assigned_to r) eqn:Hfree; [done|].
  exfalso. apply Hna. by exists r.
Qed.

Lemma assign_no_material now customer_id serial r c :
  serial_numbers (live c) !! serial = Some r → s_assigned_to r = None →
  materials (live c) !! s_material_id r = None →
  assign_serial_to_customer now customer_id serial c
  = (c, Raise (ValueError ("Material for serial " +:+ serial +:+ " not found"))).
Proof.
  intros Hs Hfree Hm. unfold assign_serial_to_customer, bind, query, raise,
    select_available_serial, select_material_name_model.
  by rewrite Hs, Hfree, Hm.
Qed.

Lemma assign_no_customer now customer_id serial r m c :
  serial_numbers (live c) !! serial = Some r → s_assigned_to r = None →
  materials (live c) !! s_material_id r = Some m →
  customers (live c) !! customer_id = None →
  assign_serial_to_customer now customer_id serial c
  = (Conn (durable c) (live c) true (logged c),
     Raise (IntegrityError "FOREIGN KEY constraint failed")).
Proof.
  intros Hs Hfree Hm Hc. unfold assign_serial_to_customer, bind, query, raise,
    execute, select_available_serial, select_material_name_model, insert_assignment.
  rewrite Hs, Hfree. simpl. rewrite Hm. simpl. by rewrite Hs, Hc.
Qed.

Lemma assign_ok now customer_id serial r m cr c :
  serial_numbers (live c) !! serial = Some r → s_assigned_to r = None →
  materials (live c) !! s_material_id r = Some m →
  customers (live c) !! customer_id = Some cr →
  assign_serial_to_customer now customer_id serial c
  = (let t' := assigned_tables now customer_id serial r m (live c) in
     Conn t' t' false (logged c), Ok tt).
Proof.
  intros Hs Hfree Hm Hc. unfold assign_serial_to_customer, bind, query, raise,
    execute, commit, select_available_serial, select_material_name_model,
    insert_assignment, update_serial_assigned_to.
  rewrite Hs, Hfree. simpl. rewrite Hm. simpl. rewrite Hs, Hc, Hm. simpl.
  rewrite Hs, Hc. reflexivity.
Qed.

Lemma available_dec serial t : Decision (available serial t).
Proof.
  unfold available. destruct (serial_numbers t !! serial) as [r|] eqn:Hs.
  - destruct (s_assigned_to r) eqn:Hfree.
    + right. intros (r' & [= <-] & Hr). congruence.
    + left. eauto.
  - right. by intros (r' & ? & _).
Defined.


(** ** [unassign_serial] *)

Lemma unassign_run now serial force c :
  unassign_serial now serial force c
  = (let t' := unassigned_tables now serial force (live c) in
     Conn t' t' false (logged c), Ok tt).
Proof.
  unfold unassign_serial, unassigned_tables, bind, query, ret, execute, commit.
  destruct (select_active_assignment serial (live c)) as [assignment_id|];
    [destruct force|]; reflexivity.
Qed.

Lemma available_no_active serial t :
  inv t → available serial t → active_records serial t = [].
Proof.
  intros Hinv (r & Hs & Hfree). apply length_zero_iff_nil.
  by rewrite (inv_active _ Hinv serial r Hs), Hfree.
Qed.



(** ** [delete_serials] and [get_serials_by_material] *)

Lemma elem_of_select_serials_of_material material_id include_assigned t s r :
  (s, r) ∈ select_serials_of_material material_id include_assigned t →
  serial_numbers t !! s = Some r.
Proof.
  unfold select_serials_of_material. rewrite merge_sort_Permutation.
  rewrite elem_of_map_to_list. by intros [? _]%map_lookup_filter_Some.
Qed.


(** ** [resolve_serials_for_customer] *)

Lemma resolve_loop_filter (seen : gmap string (option string)) serials valid invalid :
  resolve_loop seen serials valid invalid
  = (valid ++ filter (λ s, seen !! s = Some None) serials,
     invalid ++ filter (λ s, seen !! s ≠ Some None) serials).
Proof.
  revert valid invalid. induction serials as [|s rest IH]; intros valid invalid; simpl.
  - by rewrite !app_nil_r.
  - rewrite !filter_cons. destruct (seen !! s) as [[h|]|] eqn:Hs; rewrite IH.
    + rewrite decide_False, decide_True by done. by rewrite <- app_assoc.
    + rewrite decide_True by done. rewrite decide_False by (intros H; by apply H).
      by rewrite <- app_assoc.
    + rewrite decide_False, decide_True by done. by rewrite <- app_assoc.
Qed.

Lemma seen_lookup (serials : list string) (t : tables) (s : string) :
  s ∈ serials →
  (list_to_map (select_serials_in serials t) : gmap string (option string)) !! s
  = s_assigned_to <$> serial_numbers t !! s.
Proof.
  intros Hs. unfold select_serials_in.
  rewrite list_to_map_fmap, list_to_map_to_list, lookup_fmap.
  destruct (serial_numbers t !! s) as [r|] eqn:Hr; simpl.
  - erewrite (proj2 (map_lookup_filter_Some _ _ _ _)); [done|]. by split.
  - rewrite (proj2 (map_lookup_filter_None _ _ _)); [done|]. by left.
Qed.


(** ** [transfer_serials_to_used] *)

Lemma transfer_loop_run now from_customer serials c :
  ∃ d b,
    transfer_loop now serials from_customer c
    = (Conn d (foldl (transferred_one now from_customer) (live c) serials) b (logged c),
       Ok tt).
Proof.
  revert c. induction serials as [|serial rest IH]; intros c; simpl.
  - exists (durable c), (in_transaction c). by destruct c.
  - unfold bind at 1. unfold query at 1. simpl.
    unfold transferred_one at 2.
    destruct (select_holder_and_material serial (live c))
      as [[assigned_to material_id]|] eqn:Hsel; [|apply IH].
    unfold bind at 1.
    destruct (holder_matches assigned_to from_customer).
    + rewrite unassign_run. simpl. unfold bind at 1, execute at 1. simpl.
      unfold bind at 1, execute at 1. simpl.
      match goal with |- ∃ d b, transfer_loop _ _ _ ?c1 = _ =>
        destruct (IH c1) as (d & b & ->) end.
      eauto.
    + simpl. unfold bind at 1, execute at 1. simpl.
      unfold bind at 1, execute at 1. simpl.
      match goal with |- ∃ d b, transfer_loop _ _ _ ?c1 = _ =>
        destruct (IH c1) as (d & b & ->) end.
      eauto.
Qed.

Lemma transfer_run now from_customer serials c :
  transfer_serials_to_used now serials from_customer c
  = (let t' := foldl (transferred_one now from_customer) (live c) serials in
     Conn t' t' false (logged c), Ok tt).
Proof.
  unfold transfer_serials_to_used, bind.
  destruct (transfer_loop_run now from_customer serials c) as (d & b & ->).
  reflexivity.
Qed.


Lemma serial_numbers_unassigned now serial force t :
  serial_numbers (unassigned_tables now serial force t)
  = alter (with_assigned_to now None) serial (serial_numbers t).
Proof.
  unfold unassigned_tables. by destruct (select_active_assignment serial t).
Qed.













(** ** The migrator *)

Lemma users_table_add_object name f t :
  name ≠ "users" →
  objects (f t) = objects t ∪ {[name]} → users (f t) = users t →
  users_table (f t) = users_table t ∧ ("users" ∈ objects t → "users" ∈ objects (f t)).
Proof.
  intros Hne Ho Hu. unfold users_table. rewrite Ho, Hu. split.
  - destruct (decide ("users" ∈ objects t)) as [Hin|Hnin].
    + rewrite decide_True; [done|]. apply elem_of_union. by left.
    + rewrite decide_False; [done|].
      intros [?|Heq%elem_of_singleton]%elem_of_union; done.
  - intros Hin. apply elem_of_union. by left.
Qed.

Lemma keeps_create_table name no_rows :
  name ≠ "users" →
  (∀ t, objects (no_rows t) = objects t ∧ schema_version (no_rows t) = schema_version t
        ∧ users (no_rows t) = users t) →
  keeps_marker_and_users (create_table_if_not_exists name no_rows).
Proof.
  intros Hne Hn t Ht. unfold create_table_if_not_exists.
  destruct (decide (name ∈ objects t)); [done|].
  destruct (Hn (set_objects (λ o, o ∪ {[name]}) t)) as (Ho & Hv & Hu).
  split; [rewrite Ho; simpl; apply elem_of_union; by left|].
  split; [by rewrite Hv|].
  apply (users_table_add_object name
           (λ t, no_rows (set_objects (λ o, o ∪ {[name]}) t))); [done|by rewrite Ho|].
  by rewrite Hu.
Qed.

Lemma keeps_create_schema_version : keeps_marker_and_users create_schema_version.
Proof.
  intros t Ht. unfold create_schema_version, create_table_if_not_exists.
  by rewrite decide_True.
Qed.

Lemma keeps_create_users :
  keeps_marker_and_users (create_table_if_not_exists "users" (set_users (λ _, ∅))).
Proof.
  intros t Ht. unfold create_table_if_not_exists, users_table.
  destruct (decide ("users" ∈ objects t)) as [Hin|Hnin]; [by rewrite decide_True|].
  simpl. assert (Hnew : "users" ∈ objects t ∪ {["users"]}).
  { apply elem_of_union. right. by apply elem_of_singleton. }
  rewrite decide_True by done.
  split; [apply elem_of_union; by left|]. by repeat split.
Qed.

Lemma keeps_create_index name :
  name ≠ "users" → keeps_marker_and_users (create_index_if_not_exists name).
Proof.
  intros Hne t Ht. split; [simpl; apply elem_of_union; by left|]. split; [done|].
  by apply (users_table_add_object name (create_index_if_not_exists name)).
Qed.

Lemma keeps_script statements :
  Forall keeps_marker_and_users statements → keeps_marker_and_users (script statements).
Proof.
  unfold script. induction 1 as [|f l Hf _ IH]; intros t Ht; simpl; [done|].
  destruct (Hf t Ht) as (Ho & Hv & Hu & Hk). destruct (IH (f t) Ho) as (Ho' & Hv' & Hu' & Hk').
  split; [done|]. split; [by rewrite Hv'|]. split; [by rewrite Hu'|]. auto.
Qed.

Lemma bind_run {A B} (m : M A) (k : A → M B) (c c1 : conn) (a : A) :
  m c = (c1, Ok a) → bind m k c = k a c1.
Proof. intros H. unfold bind. by rewrite H. Qed.

Lemma two_scripts_effect (f1 f2 : tables → tables) (c : conn) :
  keeps_marker_and_users f1 → keeps_marker_and_users f2 →
  "schema_version" ∈ objects (live c) →
  ∃ c1, bind (executescript f1) (λ _, executescript f2) c = (c1, Ok tt)
        ∧ logged c1 = logged c ∧ kept c c1.
Proof.
  intros H1 H2 Hc.
  destruct (H1 _ Hc) as (Ho1 & Hv1 & Hu1 & Hk1).
  destruct (H2 _ Ho1) as (Ho2 & Hv2 & Hu2 & Hk2).
  exists (Conn (f2 (f1 (live c))) (f2 (f1 (live c))) false (logged c)).
  split; [reflexivity|]. split; [reflexivity|]. unfold kept. cbn [live].
  split; [exact Ho2|]. split; [by rewrite Hv2|]. split; [by rewrite Hu2|]. auto.
Qed.

Lemma two_ddl_effect (f1 f2 : tables → tables) (c : conn) :
  keeps_marker_and_users f1 → keeps_marker_and_users f2 →
  "schema_version" ∈ objects (live c) →
  ∃ c1, bind (execute_ddl f1) (λ _, execute_ddl f2) c = (c1, Ok tt)
        ∧ logged c1 = logged c ∧ kept c c1 ∧ live c1 = f2 (f1 (live c)).
Proof.
  intros H1 H2 Hc.
  destruct (H1 _ Hc) as (Ho1 & Hv1 & Hu1 & Hk1).
  destruct (H2 _ Ho1) as (Ho2 & Hv2 & Hu2 & Hk2).
  unfold bind, execute_ddl, kept.
  destruct (in_transaction c); cbn [in_transaction live];
    (eexists; split; [reflexivity|]; split; [reflexivity|]; cbn [live];
     split; [|reflexivity];
     split; [exact Ho2|]; split; [by rewrite Hv2|]; split; [by rewrite Hu2|]; auto).
Qed.

Lemma _migration_1_effect (c : conn) :
  "schema_version" ∈ objects (live c) →
  ∃ c1, _migration_1 c = (c1, Ok tt) ∧ logged c1 = logged c ∧ kept c c1.
Proof.
  intros Hc. apply two_scripts_effect; [| |done].
  - apply keeps_script.
    repeat (apply Forall_cons; split;
            [first [apply keeps_create_schema_version
                   |apply keeps_create_table; [done|intros t; repeat split]]|]).
    constructor.
  - apply keeps_script. rewrite Forall_fmap.
    repeat (apply Forall_cons; split; [by apply keeps_create_index|]). constructor.
Qed.

Lemma _migration_2_effect (c : conn) :
  "schema_version" ∈ objects (live c) →
  ∃ c1, _migration_2 c = (c1, Ok tt) ∧ logged c1 = logged c ∧ kept c c1.
Proof. intros Hc. exists c. by repeat split. Qed.

Lemma _migration_3_effect (c : conn) :
  "schema_version" ∈ objects (live c) →
  ∃ c1, _migration_3 c = (c1, Ok tt) ∧ logged c1 = logged c ∧ kept c c1
        ∧ "users" ∈ objects (live c1).
Proof.
  intros Hc.
  destruct (two_ddl_effect
              (create_table_if_not_exists "users" (set_users (λ _, ∅)))
              (create_index_if_not_exists "idx_users_role") c)
    as (c1 & Hrun & Hlog & Hkept & Hlive); [apply keeps_create_users| |done|].
  { by apply keeps_create_index. }
  exists c1. split; [exact Hrun|]. split; [done|]. split; [done|].
  rewrite Hlive. simpl. apply elem_of_union. left.
  unfold create_table_if_not_exists. destruct (decide _); [done|]. simpl.
  apply elem_of_union. right. by apply elem_of_singleton.
Qed.

Lemma migration_effect (migration : M unit) (c : conn) :
  migration ∈ migrations →
  "schema_version" ∈ objects (live c) →
  ∃ c1, migration c = (c1, Ok tt) ∧ logged c1 = logged c ∧ kept c c1.
Proof.
  unfold migrations. rewrite !elem_of_cons, elem_of_nil.
  intros [->|[->|[->|[]]]] Hc.
  - by apply _migration_1_effect.
  - by apply _migration_2_effect.
  - destruct (_migration_3_effect c Hc) as (c1 & ? & ? & ? & _). eauto.
Qed.

(** One round of the loop, for a migration [migration] that behaves as the
    three of [migrations] do; [creates_users] says whether it leaves the
    table [users] in place. *)
Lemma migration_step_effect (version target : Z) (migration : M unit)
    (creates_users : Prop) (c : conn) :
  (∀ c0, "schema_version" ∈ objects (live c0) →
     ∃ c1, migration c0 = (c1, Ok tt) ∧ logged c1 = logged c0 ∧ kept c0 c1
           ∧ (creates_users → "users" ∈ objects (live c1))) →
  "schema_version" ∈ objects (live c) → schema_version (live c) ≠ [] →
  ∃ c1, migration_step version (target, migration) c = (c1, Ok tt)
        ∧ logged c1
          = logged c ++ (if decide (version < target) then [Applying_migration target]
                         else [])
        ∧ "schema_version" ∈ objects (live c1)
        ∧ schema_version (live c1) ≠ []
        ∧ stored_version (live c1)
          = (if decide (version < target) then target else stored_version (live c))
        ∧ (durable c = live c → durable c1 = live c1)
        ∧ (version < target → durable c1 = live c1)
        ∧ (¬ version < target → c1 = c)
        ∧ users_table (live c1) = users_table (live c)
        ∧ ("users" ∈ objects (live c) → "users" ∈ objects (live c1))
        ∧ (creates_users → version < target → "users" ∈ objects (live c1)).
Proof.
  intros Hm Ho Hrows. unfold migration_step.
  destruct (decide (version < target)) as [Hlt|Hge].
  - rewrite (proj2 (Z.ltb_lt _ _) Hlt).
    unfold bind at 1. unfold log at 1.
    match goal with |- context [bind migration _ ?c0] =>
      destruct (Hm c0 Ho) as (c1 & Hrun & Hlog & (Ho1 & Hv1 & Hu1 & Hk1) & Hcr) end.
    unfold bind at 1. rewrite Hrun. unfold bind, execute, commit. cbn [live logged].
    eexists. split; [reflexivity|].
    cbn [live logged durable schema_version set_schema_version objects] in *.
    split; [done|]. split; [done|].
    destruct (schema_version (live c)) as [|row rows] eqn:Hr; [done|].
    split; [by rewrite Hv1|]. split.
    { unfold stored_version. cbn [objects schema_version set_schema_version].
      rewrite decide_True by done. by rewrite Hv1. }
    split; [done|]. split; [done|]. split; [done|]. split; [|split; [|auto]].
    + unfold users_table in *. exact Hu1.
    + exact Hk1.
  - rewrite (proj2 (Z.ltb_ge _ _)) by lia. exists c. rewrite app_nil_r.
    unfold ret. by repeat split.
Qed.

Lemma migration_loop_effect (version : Z) (c : conn) :
  "schema_version" ∈ objects (live c) → schema_version (live c) ≠ [] →
  durable c = live c →
  let targets := filter (λ target, version < target) [1; 2; 3] in
  ∃ c3, migration_loop version (enumerate 1 migrations) c = (c3, Ok tt)
        ∧ logged c3 = logged c ++ (Applying_migration <$> targets)
        ∧ "schema_version" ∈ objects (live c3)
        ∧ schema_version (live c3) ≠ []
        ∧ stored_version (live c3) = default (stored_version (live c)) (last targets)
        ∧ durable c3 = live c3
        ∧ (targets = [] → c3 = c)
        ∧ users_table (live c3) = users_table (live c)
        ∧ ("users" ∈ objects (live c) ∨ version < 3 → "users" ∈ objects (live c3)).
Proof.
  intros Ho Hrows Hd targets.
  destruct (migration_step_effect version 1 _migration_1 False c)
    as (c1 & Hrun1 & Hlog1 & Ho1 & Hrows1 & Hv1 & Hd1 & _ & Hsame1 & Hu1 & Hk1 & _);
    [|done|done|].
  { intros c0 H0. destruct (_migration_1_effect c0 H0) as (x & ? & ? & ?).
    exists x. split; [done|]. split; [done|]. split; [done|]. intros []. }
  destruct (migration_step_effect version 2 _migration_2 False c1)
    as (c2 & Hrun2 & Hlog2 & Ho2 & Hrows2 & Hv2 & Hd2 & _ & Hsame2 & Hu2 & Hk2 & _);
    [|done|done|].
  { intros c0 H0. destruct (_migration_2_effect c0 H0) as (x & ? & ? & ?).
    exists x. split; [done|]. split; [done|]. split; [done|]. intros []. }
  destruct (migration_step_effect version 3 _migration_3 True c2)
    as (c3 & Hrun3 & Hlog3 & Ho3 & Hrows3 & Hv3 & Hd3 & _ & Hsame3 & Hu3 & Hk3 & Hcr3);
    [|done|done|].
  { intros c0 H0. destruct (_migration_3_effect c0 H0) as (x & ? & ? & ? & ?).
    exists x. split; [done|]. split; [done|]. split; [done|]. done. }
  exists c3. split.
  { unfold migrations. cbn [enumerate migration_loop].
    rewrite (bind_run _ _ _ _ _ Hrun1). change (1 + 1) with 2.
    rewrite (bind_run _ _ _ _ _ Hrun2). change (2 + 1) with 3.
    by rewrite (bind_run _ _ _ _ _ Hrun3). }
  unfold targets. rewrite !filter_cons, filter_nil.
  split.
  { rewrite Hlog3, Hlog2, Hlog1, <- !app_assoc. f_equal.
    repeat (destruct (decide _)); reflexivity. }
  split; [done|]. split; [done|]. split.
  { rewrite Hv3, Hv2, Hv1. repeat (destruct (decide _)); try reflexivity; lia. }
  split; [auto|]. split.
  { intros Hnil. rewrite Hsame3, Hsame2, Hsame1; [done| | |];
      intros Hlt; repeat (destruct (decide _)); done || lia. }
  split; [by rewrite Hu3, Hu2, Hu1|].
  intros [Hin|Hlt]; [auto|]. by apply Hcr3.
Qed.

Lemma applied_migrations_log c l :
  omap (λ r, match r with Applying_migration target => Some target | _ => None end)
    (logged c ++ (Applying_migration <$> l))
  = applied_migrations c ++ l.
Proof.
  unfold applied_migrations. rewrite omap_app. f_equal.
  induction l as [|x l IH]; [done|]. simpl. f_equal. exact IH.
Qed.

Lemma ensure_admin_effect salt (c : conn) :
  ∃ c4, except_Exception (_ensure_default_admin_user salt)
          (λ exc, log (Failed_default_admin exc)) c = (c4, Ok tt)
        ∧ applied_migrations c4 = applied_migrations c
        ∧ objects (live c4) = objects (live c)
        ∧ schema_version (live c4) = schema_version (live c)
        ∧ (durable c = live c → durable c4 = live c4)
        ∧ ("users" ∈ objects (live c) →
           if decide (users (live c) = ∅)
           then users (live c4) = {[ "admin" := default_admin salt ]}
                ∧ logged c4 = logged c ++ [No_users_found]
           else users (live c4) = users (live c) ∧ logged c4 = logged c).
Proof.
  unfold except_Exception, _ensure_default_admin_user, bind, query, ret.
  cbn [fst snd].
  destruct (bool_decide ("users" ∈ objects (live c))) eqn:Hu.
  2:{ exists c. repeat (split; [done|]). intros Hin.
      apply bool_decide_eq_false in Hu. done. }
  destruct (size (users (live c))) eqn:Hsize.
  2:{ exists c. repeat (split; [done|]). intros _.
      rewrite decide_False; [done|]. intros Hempty. rewrite Hempty in Hsize.
      by rewrite map_size_empty in Hsize. }
  apply map_size_empty_iff in Hsize.
  unfold log, add_user, bind, execute, commit, insert_user. cbn [live logged durable].
  apply bool_decide_eq_true in Hu. rewrite decide_True by done.
  rewrite Hsize, lookup_empty. cbn [live logged durable set_users users].
  eexists. split; [reflexivity|]. unfold applied_migrations. cbn [logged live durable].
  rewrite omap_app. simpl. rewrite app_nil_r.
  repeat (split; [done|]). intros _. rewrite decide_True by done.
  rewrite Hsize. by rewrite insert_empty.
Qed.

Lemma ensure_schema_from_marker salt (c2 : conn) :
  "schema_version" ∈ objects (live c2) → schema_version (live c2) ≠ [] →
  durable c2 = live c2 →
  let v := stored_version (live c2) in
  let targets := filter (λ target, v < target) [1; 2; 3] in
  ∃ c3 c4,
    bind get_schema_version
      (λ version,
         bind (migration_loop version (enumerate 1 migrations))
           (λ _, except_Exception (_ensure_default_admin_user salt)
                   (λ exc, log (Failed_default_admin exc)))) c2
    = (c4, Ok tt)
    ∧ applied_migrations c4 = applied_migrations c2 ++ targets
    ∧ stored_version (live c4) = default v (last targets)
    ∧ durable c4 = live c4
    ∧ (targets = [] →
       schema_version (live c4) = schema_version (live c2)
       ∧ objects (live c4) = objects (live c2))
    ∧ users_table (live c3) = users_table (live c2)
    ∧ logged c3 = logged c2 ++ (Applying_migration <$> targets)
    ∧ ("users" ∈ objects (live c2) ∨ v < 3 →
       "users" ∈ objects (live c3)
       ∧ if decide (users (live c3) = ∅)
         then users (live c4) = {[ "admin" := default_admin salt ]}
              ∧ logged c4 = logged c3 ++ [No_users_found]
         else users (live c4) = users (live c3) ∧ logged c4 = logged c3).
Proof.
  intros Ho Hrows Hd v targets.
  assert (Hget : get_schema_version c2 = (c2, Ok v)).
  { unfold get_schema_version, bind, query, v, stored_version.
    rewrite decide_True by done.
    destruct (schema_version (live c2)); [done|reflexivity]. }
  rewrite (bind_run _ _ _ _ _ Hget).
  destruct (migration_loop_effect v c2 Ho Hrows Hd)
    as (c3 & Hrun3 & Hlog3 & Ho3 & Hrows3 & Hv3 & Hd3 & Hsame & Hu3 & Hk3).
  fold targets in Hlog3, Hv3, Hsame.
  rewrite (bind_run _ _ _ _ _ Hrun3).
  destruct (ensure_admin_effect salt c3) as (c4 & Hrun4 & Happ4 & Ho4 & Hv4 & Hd4 & Hadm).
  exists c3, c4. split; [done|]. split; [|split; [|split; [|split; [|split; [|split]]]]].
  - rewrite Happ4. unfold applied_migrations at 1. rewrite Hlog3.
    apply applied_migrations_log.
  - unfold stored_version in *. rewrite Ho4, Hv4. exact Hv3.
  - by apply Hd4.
  - intros Hnil. rewrite Ho4, Hv4. by rewrite (Hsame Hnil).
  - exact Hu3.
  - exact Hlog3.
  - intros Hu. split; [by apply Hk3|]. apply Hadm. by apply Hk3.
Qed.

Lemma targets_above (v : Z) :
  filter (λ target, v < target) [1; 2; 3]
  = if decide (v < 1) then [1; 2; 3]
    else if decide (v < 2) then [2; 3]
    else if decide (v < 3) then [3] else [].
Proof.
  rewrite !filter_cons, filter_nil.
  repeat (destruct (decide _)); try reflexivity; lia.
Qed.

Lemma ensure_schema_marker salt (t : tables) :
  ∃ c2,
    "schema_version" ∈ objects (live c2) ∧ schema_version (live c2) ≠ []
    ∧ durable c2 = live c2 ∧ logged c2 = []
    ∧ stored_version (live c2) = stored_version t
    ∧ (stored_version t = 3 → live c2 = t)
    ∧ _ensure_schema salt (connect t)
      = bind get_schema_version
          (λ version,
             bind (migration_loop version (enumerate 1 migrations))
               (λ _, except_Exception (_ensure_default_admin_user salt)
                       (λ exc, log (Failed_default_admin exc)))) c2
    ∧ users_table (live c2) = users_table t
    ∧ ("users" ∈ objects t → "users" ∈ objects (live c2)).
Proof.
  set (v := stored_version t).
  assert (Hu : users_table (create_schema_version t) = users_table t
               ∧ ("users" ∈ objects t → "users" ∈ objects (create_schema_version t))).
  { unfold create_schema_version, create_table_if_not_exists.
    destruct (decide ("schema_version" ∈ objects t)); [done|].
    by apply (users_table_add_object "schema_version"
                (λ t, set_schema_version (λ _, [])
                        (set_objects (λ o, o ∪ {["schema_version"]}) t))). }
  destruct Hu as [Hu Hk].
  unfold _ensure_schema.
  rewrite (bind_run _ _ (connect t)
             (Conn (create_schema_version t) (create_schema_version t) false []) tt)
    by reflexivity.
  unfold bind at 1. unfold query at 1. cbn [live].
  assert (Hcreated : "schema_version" ∈ objects (create_schema_version t)).
  { unfold create_schema_version, create_table_if_not_exists.
    destruct (decide _); [done|]. simpl. apply elem_of_union. right.
    by apply elem_of_singleton. }
  assert (Hv : stored_version (create_schema_version t) = v).
  { unfold v, stored_version. rewrite (decide_True _ _ Hcreated).
    unfold create_schema_version, create_table_if_not_exists.
    destruct (decide ("schema_version" ∈ objects t)); reflexivity. }
  assert (Hsame : "schema_version" ∈ objects t → create_schema_version t = t).
  { intros Hin. unfold create_schema_version, create_table_if_not_exists.
    by rewrite decide_True. }
  destruct (schema_version (create_schema_version t)) as [|row rows] eqn:Hrows;
    cbn [length].
  - exists (let t2 := set_schema_version (λ rows, rows ++ [0]) (create_schema_version t)
            in Conn t2 t2 false []).
    split; [|split; [|split; [|split; [|split; [|split; [|split; [|split]]]]]]];
      try reflexivity.
    + exact Hcreated.
    + cbn [live set_schema_version schema_version]. rewrite Hrows. done.
    + rewrite <- Hv. unfold stored_version.
      cbn [live set_schema_version schema_version objects].
      rewrite !(decide_True _ _ Hcreated). by rewrite Hrows.
    + intros H3. exfalso. unfold stored_version in Hv.
      rewrite (decide_True _ _ Hcreated), Hrows in Hv. simpl in Hv. lia.
    + exact Hu.
    + exact Hk.
  - exists (Conn (create_schema_version t) (create_schema_version t) false []).
    split; [|split; [|split; [|split; [|split; [|split; [|split; [|split]]]]]]];
      try reflexivity.
    + exact Hcreated.
    + cbn [live]. by rewrite Hrows.
    + exact Hv.
    + intros H3. cbn [live]. apply Hsame.
      destruct (decide ("schema_version" ∈ objects t)) as [|Hnin]; [done|].
      exfalso. unfold v, stored_version in H3. rewrite (decide_False _ _ Hnin) in H3.
      lia.
    + exact Hu.
    + exact Hk.
Qed.

Lemma role_level_at_most_admin1 (role : string) :
  _role_level role ≤ _role_level "admin1".
Proof.
  change (_role_level "admin1") with 4. unfold _role_level, ROLE_LEVELS.
  cbn [find fst snd].
  repeat (destruct (String.eqb _ role); [cbn; lia|]). cbn. lia.
Qed.

(** * The claims *)

(** C1. In every reachable state of the database, committed or seen by the
    connection, a serial's [assigned_to] is non-null if and only if exactly
    one assignment record with [deleted=0] references the serial; and the
    state after each of [assign_serial_to_customer], [unassign_serial],
    [transfer_serials_to_used], [delete_serials] and
    [add_serials_to_material] satisfies it again. *)
Theorem assigned_iff_exactly_one_active_record (c : conn) :
  reachable c →
  assigned_iff_one_active (live c) ∧ assigned_iff_one_active (durable c)
  ∧ (∀ now customer_id serial,
       assigned_iff_one_active
         (live (after (assign_serial_to_customer now customer_id serial) c)))
  ∧ (∀ now serial force,
       assigned_iff_one_active (live (after (unassign_serial now serial force) c)))
  ∧ (∀ now serials from_customer,
       assigned_iff_one_active
         (live (after (transfer_serials_to_used now serials from_customer) c)))
  ∧ (∀ serials, assigned_iff_one_active (live (after (delete_serials serials) c)))
  ∧ (∀ now material_id serials production_date acquisition_date retail_price,
       assigned_iff_one_active
         (live (after (add_serials_to_material now material_id serials
                         production_date acquisition_date retail_price) c))).
Proof.
  intros Hc. pose proof (reachable_good c Hc) as Hgood.
  split; [apply inv_assigned_iff_one_active, Hgood|].
  split; [apply inv_assigned_iff_one_active, Hgood|].
  split; [intros now customer_id serial; apply inv_assigned_iff_one_active;
          by apply preserves_assign_serial_to_customer|].
  split; [intros now serial force; apply inv_assigned_iff_one_active;
          by apply preserves_unassign_serial|].
  split; [intros now serials from_customer; apply inv_assigned_iff_one_active;
          by apply preserves_transfer_serials_to_used|].
  split; [intros serials; apply inv_assigned_iff_one_active;
          by apply preserves_delete_serials|].
  intros now material_id serials production_date acquisition_date retail_price.
  apply inv_assigned_iff_one_active. by apply preserves_add_serials_to_material.
Qed.

Lemma assigned_iff_exactly_one_active_record_witness :
  assigned_iff_one_active (live smoke_assigned)
  ∧ ∃ r, serial_numbers (live smoke_assigned) !! "S001" = Some r
         ∧ s_assigned_to r = Some "C001"
         ∧ length (active_records "S001" (live smoke_assigned)) = 1%nat.
Proof.
  assert (Hr : reachable smoke_assigned).
  { unfold smoke_assigned, smoke_store.
    apply reach_assign. apply reach_add_serials. apply reach_add_material.
    apply reach_add_customer. apply reach_new. }
  split; [exact (proj1 (assigned_iff_exactly_one_active_record smoke_assigned Hr))|].
  eexists. split; [vm_compute; reflexivity|]. split; vm_compute; reflexivity.
Defined.







(** C2 (amended). In a reachable state [delete_serials(serials)] removes the
    rows of the listed serials, so that no call of [get_serials_by_material]
    returns them, and with them every assignment record of those serials
    (the [ON DELETE CASCADE] of [assignments.serial]); the rows and the
    assignment records of all other serials are unchanged, and the result is
    committed. *)
Theorem delete_serials_removes_rows_and_records (c : conn) (serials : list string) :
  reachable c →
  let c' := after (delete_serials serials) c in
  (∀ s, s ∈ serials →
     serial_numbers (live c') !! s = None
     ∧ (∀ material_id include_assigned rows,
          result (get_serials_by_material material_id include_assigned) c' = Ok rows →
          s ∉ rows.*1)
     ∧ records_of s (live c') = [])
  ∧ (∀ s, s ∉ serials →
       serial_numbers (live c') !! s = serial_numbers (live c) !! s
       ∧ records_of s (live c') = records_of s (live c))
  ∧ durable c' = live c'.
Proof.
  intros Hreach c'. pose proof (reachable_good c Hreach) as [Hinv _].
  assert (Hlive : live c' = delete_serial_rows serials (live c)) by reflexivity.
  assert (Hgone : ∀ s, s ∈ serials → serial_numbers (live c') !! s = None).
  { intros s Hs. rewrite Hlive. unfold delete_serial_rows. simpl.
    rewrite lookup_foldr_delete. by rewrite decide_True. }
  split; [|split; [|reflexivity]].
  - intros s Hs. split; [by apply Hgone|]. split.
    + intros material_id include_assigned rows [= <-].
      intros [[s' r] [-> Hin]]%list_elem_of_fmap. simpl in Hin.
      apply elem_of_select_serials_of_material in Hin.
      simpl in Hs. pose proof (Hgone _ Hs) as Hnone. congruence.
    + rewrite Hlive. unfold records_of, delete_serial_rows. simpl.
      apply filter_length_0. intros a [Hkeep Ha]%list_elem_of_filter Heq.
      apply Hkeep. split; [by rewrite Heq|]. by apply (inv_assignment_serial _ Hinv).
  - intros s Hs. rewrite Hlive. unfold records_of, delete_serial_rows. simpl. split.
    + rewrite lookup_foldr_delete. by rewrite decide_False.
    + apply filter_filter_implied. intros a _ Heq [Hin _]. apply Hs. by rewrite <- Heq.
Qed.

Lemma delete_serials_removes_rows_and_records_witness :
  let c' := after (delete_serials ["S001"]) smoke_unassigned in
  (∀ s, s ∈ ["S001"] →
     serial_numbers (live c') !! s = None
     ∧ (∀ material_id include_assigned rows,
          result (get_serials_by_material material_id include_assigned) c' = Ok rows →
          s ∉ rows.*1)
     ∧ records_of s (live c') = [])
  ∧ (∀ s, s ∉ ["S001"] →
       serial_numbers (live c') !! s = serial_numbers (live smoke_unassigned) !! s
       ∧ records_of s (live c') = records_of s (live smoke_unassigned))
  ∧ durable c' = live c'.
Proof.
  apply (delete_serials_removes_rows_and_records smoke_unassigned ["S001"]).
  unfold smoke_unassigned, smoke_assigned, smoke_store.
  apply reach_unassign. apply reach_assign. apply reach_add_serials.
  apply reach_add_material. apply reach_add_customer. apply reach_new.
Defined.

(** C2 as stated fails: "S001" has one assignment record after it was
    assigned and unassigned; deleting the serial deletes that record too. *)
Lemma delete_serials_drops_history :
  let c' := after (delete_serials ["S001"]) smoke_unassigned in
  reachable smoke_unassigned
  ∧ length (records_of "S001" (live smoke_unassigned)) = 1%nat
  ∧ records_of "S001" (live c') = []
  ∧ records_of "S001" (live c') ≠ records_of "S001" (live smoke_unassigned).
Proof.
  split.
  { unfold smoke_unassigned, smoke_assigned, smoke_store.
    apply reach_unassign. apply reach_assign. apply reach_add_serials.
    apply reach_add_material. apply reach_add_customer. apply reach_new. }
  split; [vm_compute; reflexivity|]. split; [vm_compute; reflexivity|].
  vm_compute. discriminate.
Qed.

(** C6. For every list of serials and every content of the store,
    [resolve_serials_for_customer] returns two lists [valid] and [invalid],
    without changing anything, such that no serial is in both, a serial is
    in the input exactly when it is in one of them, [valid] holds exactly the
    input serials that exist with [assigned_to] null, and [invalid] exactly
    those that are missing or assigned. *)
Theorem resolve_serials_for_customer_partitions (serials : list string) (c : conn) :
  ∃ valid invalid,
    resolve_serials_for_customer serials c = (c, Ok (valid, invalid))
    ∧ (∀ s, s ∈ valid → s ∉ invalid)
    ∧ (∀ s, s ∈ serials ↔ s ∈ valid ∨ s ∈ invalid)
    ∧ (∀ s, s ∈ valid ↔ s ∈ serials ∧ available s (live c))
    ∧ (∀ s, s ∈ invalid ↔
            s ∈ serials
            ∧ (serial_numbers (live c) !! s = None
               ∨ ∃ r holder, serial_numbers (live c) !! s = Some r
                             ∧ s_assigned_to r = Some holder)).
Proof.
  set (seen := list_to_map (select_serials_in serials (live c))
               : gmap string (option string)).
  exists (filter (λ s, seen !! s = Some None) serials),
         (filter (λ s, seen !! s ≠ Some None) serials).
  assert (Hv : ∀ s, s ∈ filter (λ s, seen !! s = Some None) serials
                    ↔ s ∈ serials ∧ available s (live c)).
  { intros s. rewrite list_elem_of_filter. split.
    - intros [Hseen Hs]. split; [done|]. unfold seen in Hseen.
      rewrite seen_lookup in Hseen by done. unfold available.
      destruct (serial_numbers (live c) !! s) as [r|]; [|done].
      simpl in Hseen. injection Hseen as Hseen. eauto.
    - intros [Hs (r & Hr & Hfree)]. split; [|done]. unfold seen.
      rewrite seen_lookup by done. by rewrite Hr; simpl; rewrite Hfree. }
  assert (Hi : ∀ s, s ∈ filter (λ s, seen !! s ≠ Some None) serials
                    ↔ s ∈ serials
                      ∧ (serial_numbers (live c) !! s = None
                         ∨ ∃ r holder, serial_numbers (live c) !! s = Some r
                                       ∧ s_assigned_to r = Some holder)).
  { intros s. rewrite list_elem_of_filter. split.
    - intros [Hseen Hs]. split; [done|]. unfold seen in Hseen.
      rewrite seen_lookup in Hseen by done.
      destruct (serial_numbers (live c) !! s) as [r|]; [|by left].
      right. simpl in Hseen. destruct (s_assigned_to r) as [holder|] eqn:Hh; [eauto|done].
    - intros [Hs Hcase]. split; [|done]. unfold seen. rewrite seen_lookup by done.
      destruct Hcase as [->|(r & holder & -> & Hh)]; simpl; [done|]. by rewrite Hh. }
  split; [|split; [|split; [|split]]]; [| | |exact Hv|exact Hi].
  - unfold resolve_serials_for_customer. destruct serials as [|s0 rest]; [done|].
    unfold bind, query, ret. fold seen. by rewrite resolve_loop_filter.
  - intros s [Hseen _]%list_elem_of_filter [Hnot _]%list_elem_of_filter. done.
  - intros s. rewrite Hv, Hi. unfold available.
    destruct (serial_numbers (live c) !! s) as [r|] eqn:Hr.
    + destruct (s_assigned_to r) as [holder|] eqn:Hh.
      * split; [intros Hs; right; split; [done|]; right; eauto|by intros [[? _]|[? _]]].
      * split; [intros Hs; left; eauto|by intros [[? _]|[? _]]].
    + split; [intros Hs; right; split; [done|by left]|by intros [[? _]|[? _]]].
Qed.

(** C3 (the code at the scenario). For the material with name "Camera 4MP"
    and model "DS-2CD2343G2-I", the other text fields absent or empty, and
    an empty alias table, [guess_category] returns no category, confidence
    0 and family "DS-2CD": the normalized text is lower case and without
    hyphens, so no pattern of [CATEGORY_PATTERNS] matches it, and group 1 of
    the family pattern stops after the letters that follow the first run of
    digits. *)
Theorem guess_category_camera_4mp :
  guess_category camera_4mp [] = Ok (None, 0%Q, "DS-2CD", [])
  ∧ guess_category camera_4mp_empty_fields [] = Ok (None, 0%Q, "DS-2CD", [])
  ∧ normalize "Camera 4MP DS-2CD2343G2-I  " = "camera 4mp ds 2cd2343g2 i"
  ∧ Forall (λ '(pattern, _, _, _), search pattern "camera 4mp ds 2cd2343g2 i" = false)
      CATEGORY_PATTERNS
  ∧ extract_family "DS-2CD2343G2-I" = Ok "DS-2CD".
Proof.
  split; [vm_compute; reflexivity|]. split; [vm_compute; reflexivity|].
  split; [vm_compute; reflexivity|]. split; [|vm_compute; reflexivity].
  unfold CATEGORY_PATTERNS. repeat constructor.
Qed.

(** C10 (the code at the failing input). [_can_manage_role] is the strict
    comparison of the two levels, for every pair of roles and with no
    exemption: a tab whose current role is admin1 may not manage an admin1
    target, although [_allowed_new_roles] lets admin1 assign every role. *)
Theorem admin1_cannot_manage_admin1 :
  _can_manage_role "admin1" "admin1" = false
  ∧ (∀ current_role target_role,
       _can_manage_role current_role target_role = true
       ↔ _role_level target_role < _role_level current_role)
  ∧ _allowed_new_roles "admin1" = ALL_ROLES.
Proof.
  split; [reflexivity|]. split; [|vm_compute; reflexivity].
  intros current_role target_role. unfold _can_manage_role. apply Z.ltb_lt.
Qed.




(** C8. [_ensure_schema] on any store returns normally. The migrations it
    announces are the targets among 1, 2, 3 that are above the stored
    version, in increasing order, each once; afterwards the stored version
    is 3 (or the stored one when that was already 3 or more) and it is
    committed. On a store whose stored version is 3 no migration is applied
    and the version rows and the schema objects are unchanged. One round of
    the loop with a target above the version it compares with announces the
    target, runs the migration, sets the stored version to the target and
    commits; a round with any other target does nothing. *)
Theorem migrations_run_once_in_order (salt : string) (t : tables) :
  let c' := after (_ensure_schema salt) (connect t) in
  let v := stored_version t in
  result (_ensure_schema salt) (connect t) = Ok tt
  ∧ applied_migrations c' = filter (λ target, v < target) [1; 2; 3]
  ∧ stored_version (live c') = (if decide (v < 3) then 3 else v)
  ∧ durable c' = live c'
  ∧ (v = 3 →
     applied_migrations c' = []
     ∧ schema_version (live c') = schema_version t
     ∧ objects (live c') = objects t)
  ∧ (∀ c0 version target migration,
       migration ∈ migrations →
       "schema_version" ∈ objects (live c0) → schema_version (live c0) ≠ [] →
       if version <? target
       then ∃ c1, migration_step version (target, migration) c0 = (c1, Ok tt)
                  ∧ logged c1 = logged c0 ++ [Applying_migration target]
                  ∧ stored_version (live c1) = target
                  ∧ durable c1 = live c1
       else migration_step version (target, migration) c0 = (c0, Ok tt)).
Proof.
  intros c' v.
  destruct (ensure_schema_marker salt t)
    as (c2 & Ho & Hrows & Hd & Hlog & Hv & Hsame & Hrun & _).
  destruct (ensure_schema_from_marker salt c2 Ho Hrows Hd)
    as (c3 & c4 & Hrun4 & Happ4 & Hv4 & Hd4 & Hnil4 & _).
  fold v in Hv. rewrite Hv in *.
  assert (Hc' : c' = c4) by (unfold c', after; by rewrite Hrun, Hrun4).
  split; [unfold result; by rewrite Hrun, Hrun4|].
  split; [rewrite Hc', Happ4; unfold applied_migrations; by rewrite Hlog|].
  split.
  { rewrite Hc', Hv4, targets_above.
    repeat (destruct (decide _)); try reflexivity; lia. }
  split; [by rewrite Hc'|].
  split.
  { intros H3. assert (Hnil : filter (λ target, v < target) [1; 2; 3] = []).
    { rewrite targets_above. repeat (destruct (decide _)); try reflexivity; lia. }
    destruct (Hnil4 Hnil) as [Hs4 Ho4].
    rewrite Hc', Happ4, Hnil, Hs4, Ho4, (Hsame H3).
    unfold applied_migrations. by rewrite Hlog. }
  intros c0 version target migration Hm Ho0 Hrows0.
  destruct (migration_step_effect version target migration False c0)
    as (c1 & Hrun1 & Hlog1 & _ & _ & Hv1 & _ & Hd1 & Hsame1 & _); [|done|done|].
  { intros c Hc. destruct (migration_effect migration c Hm Hc) as (x & ? & ? & ?).
    exists x. split; [done|]. split; [done|]. split; [done|]. intros []. }
  destruct (version <? target) eqn:Hlt.
  - apply Z.ltb_lt in Hlt. rewrite decide_True in Hlog1 by done.
    rewrite decide_True in Hv1 by done.
    exists c1. split; [done|]. split; [done|]. split; [done|]. by apply Hd1.
  - apply Z.ltb_ge in Hlt. rewrite Hrun1. rewrite Hsame1; [done|lia].
Qed.

Lemma migrations_run_once_in_order_witness :
  let c' := after (_ensure_schema "77aa") (connect migrated_store) in
  stored_version migrated_store = 3
  ∧ applied_migrations c' = []
  ∧ schema_version (live c') = schema_version migrated_store
  ∧ objects (live c') = objects migrated_store.
Proof.
  assert (H3 : stored_version migrated_store = 3) by (vm_compute; reflexivity).
  split; [exact H3|].
  exact (proj1 (proj2 (proj2 (proj2 (proj2
           (migrations_run_once_in_order "77aa" migrated_store))))) H3).
Defined.

(** C9 (amended). On every start of the program, once the migrations have
    run and the table [users] exists, [_ensure_schema] creates the account
    "admin" with role "admin1", the highest level of [ROLE_LEVELS], exactly
    when the table [users] has no row, and then it is the only account;
    otherwise the users are left as they are. The test is made at every
    start, not once. *)
Theorem default_admin_when_users_empty (salt : string) (t : tables) :
  "users" ∈ objects t ∨ stored_version t < 3 →
  let c' := Database salt t in
  (if decide (users_table t = ∅)
   then users (live c') = {[ "admin" := default_admin salt ]}
        ∧ No_users_found ∈ logged c'
   else users (live c') = users_table t ∧ No_users_found ∉ logged c')
  ∧ u_role (default_admin salt) = "admin1"
  ∧ (∀ role, _role_level role ≤ _role_level (u_role (default_admin salt)))
  ∧ durable c' = live c'.
Proof.
  intros Husers c'.
  destruct (ensure_schema_marker salt t)
    as (c2 & Ho & Hrows & Hd & Hlog & Hv & _ & Hrun & Hu2 & Hk2).
  destruct (ensure_schema_from_marker salt c2 Ho Hrows Hd)
    as (c3 & c4 & Hrun4 & _ & _ & Hd4 & _ & Hu3 & Hlog3 & Hadm).
  assert (Hc' : c' = c4) by (unfold c', Database, after; by rewrite Hrun, Hrun4).
  destruct Hadm as [Hin3 Hadm].
  { rewrite Hv. destruct Husers; [left|right]; auto. }
  assert (Hrows3 : users (live c3) = users_table t).
  { rewrite <- Hu2, <- Hu3. unfold users_table. by rewrite decide_True. }
  rewrite Hrows3 in Hadm. rewrite Hlog in Hlog3. simpl in Hlog3.
  assert (Hnot : No_users_found ∉ logged c3).
  { rewrite Hlog3. intros (x & Hx & _)%list_elem_of_fmap. done. }
  split; [|split; [reflexivity|split; [apply role_level_at_most_admin1|by rewrite Hc']]].
  rewrite Hc'. destruct (decide (users_table t = ∅)).
  - destruct Hadm as [-> ->]. split; [done|]. apply elem_of_app. right. left.
  - destruct Hadm as [-> ->]. done.
Qed.

Lemma default_admin_when_users_empty_witness :
  let c' := Database "5a17" empty_store in
  (users (live c') = {[ "admin" := default_admin "5a17" ]}
   ∧ No_users_found ∈ logged c')
  ∧ u_role (default_admin "5a17") = "admin1"
  ∧ (∀ role, _role_level role ≤ _role_level (u_role (default_admin "5a17")))
  ∧ durable c' = live c'.
Proof.
  assert (H : "users" ∈ objects empty_store ∨ stored_version empty_store < 3).
  { right. vm_compute. reflexivity. }
  exact (default_admin_when_users_empty "5a17" empty_store H).
Defined.

(** C9 as stated fails: after the first start has seeded "admin" and
    [delete_user] has removed it, the store is at version 3 with no user,
    and the next start makes the test again and seeds "admin" again. *)
Lemma default_admin_seeded_again :
  logged (Database "5a17" empty_store)
  = [Applying_migration 1; Applying_migration 2; Applying_migration 3; No_users_found]
  ∧ stored_version emptied_store = 3
  ∧ users emptied_store = ∅
  ∧ logged (Database "77aa" emptied_store) = [No_users_found]
  ∧ users (live (Database "77aa" emptied_store))
    = {[ "admin" := default_admin "77aa" ]}.
Proof.
  split; [vm_compute; reflexivity|].
  split; [vm_compute; reflexivity|]. split; [vm_compute; reflexivity|].
  split; vm_compute; reflexivity.
Qed.

(** * Further properties of the code

    Read off the methods themselves; each is stated for every connection
    (or every reachable one) and every argument. *)

(** ** Customers *)

(** X1. [add_customer] followed by [get_customer_by_id]: when the id is new,
    the call returns, the customer is read back with the values given and
    the time of the call, every other customer is read as before, and the
    row is committed; when the id is taken, the call raises
    [IntegrityError] and neither the connection's view nor the committed
    content changes. *)
Theorem add_customer_then_get now customer_id name phone email pin4 (c : conn) :
  let call := add_customer now customer_id name phone email pin4 in
  let c' := after call c in
  match customers (live c) !! customer_id with
  | None =>
      result call c = Ok tt
      ∧ result (get_customer_by_id customer_id) c'
        = Ok (Some (CustomerRow name phone email pin4 (epoch now)))
      ∧ (∀ other, other ≠ customer_id →
           result (get_customer_by_id other) c' = result (get_customer_by_id other) c)
      ∧ durable c' = live c'
  | Some _ =>
      result call c = Raise (IntegrityError "UNIQUE constraint failed: customers.id")
      ∧ live c' = live c ∧ durable c' = durable c
  end.
Proof.
  intros call c'. unfold c', call, after, result, add_customer, bind, execute, commit,
    insert_customer, get_customer_by_id, query.
  destruct (customers (live c) !! customer_id) eqn:Hc; simpl.
  - done.
  - rewrite lookup_insert_eq. split; [done|]. split; [done|]. split; [|done].
    intros other Hne. by rewrite lookup_insert_ne.
Qed.

Lemma update_customer_keys (fields : gmap string (option string)) (k : string) :
  k ∈ filter (λ k, k ∈ allowed) (map_to_list fields).*1
  ↔ k ∈ allowed ∧ is_Some (fields !! k).
Proof.
  rewrite list_elem_of_filter, list_elem_of_fmap. split.
  - intros [Ha ([k' v] & -> & Hin)]. split; [done|].
    apply elem_of_map_to_list in Hin. eauto.
  - intros [Ha [v Hv]]. split; [done|]. exists (k, v). split; [done|].
    by apply elem_of_map_to_list.
Qed.

(** X2. [update_customer] writes at most the row of the customer named: no
    customer appears or disappears and no other table changes; when the
    keyword arguments hold none of [name], [phone], [email], [pin4] the call
    does nothing at all (not even a commit); it raises exactly when the
    customer exists and [name=None] is passed, and then the tables are as
    before; otherwise each of the four columns takes the value passed for
    it, or keeps its own when none is passed, and [last_modified] is set. *)
Theorem update_customer_effect now customer_id (fields : gmap string (option string))
    (c : conn) :
  let call := update_customer now customer_id fields in
  let c' := after call c in
  (∀ other, other ≠ customer_id →
     customers (live c') !! other = customers (live c) !! other)
  ∧ (is_Some (customers (live c') !! customer_id)
     ↔ is_Some (customers (live c) !! customer_id))
  ∧ serial_numbers (live c') = serial_numbers (live c)
  ∧ assignments (live c') = assignments (live c)
  ∧ materials (live c') = materials (live c)
  ∧ ((∀ k, k ∈ allowed → fields !! k = None) → call c = (c, Ok tt))
  ∧ (raises call c
     ↔ is_Some (customers (live c) !! customer_id) ∧ fields !! "name" = Some None)
  ∧ (raises call c → live c' = live c ∧ durable c' = durable c)
  ∧ (∀ r, customers (live c) !! customer_id = Some r →
       (∃ k, k ∈ allowed ∧ is_Some (fields !! k)) → fields !! "name" ≠ Some None →
       customers (live c') !! customer_id
       = Some (CustomerRow
                 (default (c_name r) (default (Some (c_name r)) (fields !! "name")))
                 (default (c_phone r) (fields !! "phone"))
                 (default (c_email r) (fields !! "email"))
                 (default (c_pin4 r) (fields !! "pin4"))
                 (epoch now))).
Proof.
  intros call c'.
  unfold c', call, after, raises, result, update_customer.
  pose proof (update_customer_keys fields) as Hk.
  set (keys := filter (λ k, k ∈ allowed) (map_to_list fields).*1) in *.
  clearbody keys.
  assert (Hval : ∀ column old, column ∈ allowed →
            (if decide (column ∈ keys) then default None (fields !! column) else old)
            = default old (fields !! column)).
  { intros column old Ha.
    destruct (fields !! column) as [v|] eqn:Hf.
    - rewrite decide_True; [done|]. apply Hk. rewrite Hf. eauto.
    - rewrite decide_False; [done|]. intros [_ [v Hv]]%Hk. congruence. }
  assert (Hname : "name" ∈ allowed) by (apply (bool_decide_unpack _); exact I).
  assert (Hphone : "phone" ∈ allowed) by (apply (bool_decide_unpack _); exact I).
  assert (Hemail : "email" ∈ allowed) by (apply (bool_decide_unpack _); exact I).
  assert (Hpin : "pin4" ∈ allowed) by (apply (bool_decide_unpack _); exact I).
  destruct keys as [|k0 ks].
  { (* no allowed key: nothing is executed *)
    unfold ret. simpl. repeat (split; [done|]).
    split; [split; [by intros [e He]|]|split; [by intros [e He]|]].
    - intros [_ Hn]. assert (Hin : "name" ∈ @nil string); [|by apply elem_of_nil in Hin].
      apply Hk. rewrite Hn. eauto.
    - intros r _ (k & Ha & Hs) _. exfalso.
      assert (Hin : k ∈ @nil string); [|by apply elem_of_nil in Hin].
      by apply Hk. }
  assert (Hsome : ∃ k, k ∈ allowed ∧ is_Some (fields !! k)).
  { exists k0. apply Hk. left. }
  unfold bind, execute, commit, update_customer_columns.
  destruct (customers (live c) !! customer_id) as [r|] eqn:Hc; simpl.
  2:{ rewrite Hc. repeat (split; [done|]).
      split.
      { intros Hnone. destruct Hsome as (k & Ha & [v Hv]). rewrite Hnone in Hv; done. }
      split; [split; [by intros [e He]|by intros [[? ?] _]]|].
      split; [by intros [e He]|done]. }
  rewrite (Hval "name" (Some (c_name r)) Hname).
  destruct (default (Some (c_name r)) (fields !! "name")) as [name|] eqn:Hn; simpl.
  - rewrite lookup_insert_eq.
    split; [intros other Hne; by rewrite lookup_insert_ne|].
    split; [split; eauto|]. repeat (split; [done|]).
    split.
    { intros Hnone. destruct Hsome as (k & Ha & [v Hv]). rewrite Hnone in Hv; done. }
    split.
    { split; [by intros [e He]|]. intros [_ Hf]. rewrite Hf in Hn. done. }
    split; [by intros [e He]|].
    intros r' [= <-] _ _.
    rewrite (Hval "phone" _ Hphone), (Hval "email" _ Hemail), (Hval "pin4" _ Hpin). destruct (fields !! "name") as [[?|]|]; simpl in *; congruence.
  - rewrite Hc. repeat (split; [done|]).
    assert (Hf : fields !! "name" = Some None).
    { destruct (fields !! "name") as [[v|]|]; done. }
    split.
    { intros Hnone. rewrite (Hnone "name" Hname) in Hf. done. }
    split; [split; [eauto|eauto]|]. split; [done|].
    intros r' _ _ Hne. done.
Qed.

(** ** Materials and serials *)



Lemma add_serials_loop_run now material_id serials production_date acquisition_date
    retail_price (c : conn) :
  ∃ sn b lg,
    add_serials_loop now material_id serials production_date acquisition_date
      retail_price c
    = (Conn (durable c) (set_serial_numbers (λ _, sn) (live c)) b lg, Ok tt)
    ∧ ∀ s, sn !! s
           = if decide (s ∈ serials ∧ serial_numbers (live c) !! s = None
                        ∧ is_Some (materials (live c) !! material_id))
             then Some (SerialRow material_id production_date acquisition_date None
                          None (epoch now) None retail_price)
             else serial_numbers (live c) !! s.
Proof.
  revert c. induction serials as [|serial rest IH]; intros c.
  - exists (serial_numbers (live c)), (in_transaction c), (logged c). split.
    + simpl. unfold ret. by destruct c as [d [] b lg].
    + intros s. rewrite decide_False; [done|]. intros [H _]. by apply elem_of_nil in H.
  - simpl. unfold bind at 1. unfold except_IntegrityError, execute, insert_serial.
    destruct (serial_numbers (live c) !! serial) as [r|] eqn:Hs.
    { (* the serial exists: UNIQUE fails, the row is skipped *)
      unfold unique_failed, log. cbn [live durable logged in_transaction].
      destruct (IH (Conn (durable c) (live c) true
                      (logged c ++ [Serial_skipped serial
                         (IntegrityError ("UNIQUE constraint failed: " +:+
                                          "serial_numbers.serial"))])))
        as (sn & b & lg & Hrun & Hsn).
      exists sn, b, lg. split; [exact Hrun|].
      intros s. rewrite Hsn. cbn [live].
      destruct (decide (s ∈ rest ∧ _)) as [(Hin & Hn & Hm)|Hno].
      - rewrite decide_True; [done|]. split; [by right|done].
      - rewrite decide_False; [done|]. intros (Hin & Hn & Hm).
        apply elem_of_cons in Hin as [->|Hin]; [congruence|]. by apply Hno. }
    destruct (materials (live c) !! material_id) as [m|] eqn:Hm.
    2:{ (* no such material: FOREIGN KEY fails, the row is skipped *)
      unfold fk_failed, log. cbn [live durable logged in_transaction].
      destruct (IH (Conn (durable c) (live c) true
                      (logged c ++ [Serial_skipped serial
                         (IntegrityError "FOREIGN KEY constraint failed")])))
        as (sn & b & lg & Hrun & Hsn).
      exists sn, b, lg. split; [exact Hrun|].
      intros s. rewrite Hsn. cbn [live]. rewrite Hm.
      rewrite !decide_False; [done| |]; intros (_ & _ & [? ?]); done. }
    cbn [live durable logged in_transaction].
    set (row := SerialRow material_id production_date acquisition_date None None
                  (epoch now) None retail_price).
    destruct (IH (Conn (durable c) (set_serial_numbers <[serial:=row]> (live c)) true
                    (logged c))) as (sn & b & lg & Hrun & Hsn).
    exists sn, b, lg. split.
    { rewrite Hrun. cbn [live durable]. done. }
    intros s. rewrite Hsn. cbn [live]. simpl. rewrite Hm.
    destruct (decide (s = serial)) as [->|Hne].
    + rewrite lookup_insert_eq. rewrite decide_False; [|by intros (_ & ? & _)].
      rewrite decide_True; [done|]. split; [left|]. split; [done|eauto].
    + rewrite lookup_insert_ne by done.
      destruct (decide (s ∈ rest ∧ _)) as [(Hin & Hn & Hm')|Hno].
      * rewrite decide_True; [done|]. split; [by right|done].
      * rewrite decide_False; [done|]. intros (Hin & Hn & Hm').
        apply elem_of_cons in Hin as [->|Hin]; [done|]. by apply Hno.
Qed.


#[local] Instance production_date_le_total : Total production_date_le.
Proof.
  intros x y. unfold production_date_le.
  destruct (s_production_date x.2) as [d|], (s_production_date y.2) as [e|]; auto.
  destruct (String.leb_total d e); auto.
Qed.


(** X6. [delete_serials] is idempotent: a second call with the same list
    changes nothing. A call that lists only serials without a row (the
    empty list among them) leaves every table as it was; no call touches
    customers or materials. *)
Theorem delete_serials_idempotent (serials : list string) (c : conn) :
  let c' := after (delete_serials serials) c in
  after (delete_serials serials) c' = c'
  ∧ ((∀ s, s ∈ serials → serial_numbers (live c) !! s = None) → live c' = live c)
  ∧ customers (live c') = customers (live c)
  ∧ materials (live c') = materials (live c).
Proof.
  assert (Hnoop : ∀ t, (∀ s, s ∈ serials → serial_numbers t !! s = None) →
            delete_serial_rows serials t = t).
  { intros t Hnone. unfold delete_serial_rows.
    assert (Hsn : foldr delete (serial_numbers t) serials = serial_numbers t).
    { apply map_eq. intros s. rewrite lookup_foldr_delete.
      destruct (decide (s ∈ serials)) as [Hin|]; [by rewrite Hnone|done]. }
    assert (Hk : filter (λ a, ¬ (a_serial a ∈ serials
                                 ∧ is_Some (serial_numbers t !! a_serial a)))
                   (assignments t) = assignments t).
    { induction (assignments t) as [|a l IH]; [done|].
      rewrite filter_cons_True, IH; [done|].
      intros [Hin [r Hr]]. rewrite Hnone in Hr; done. }
    destruct t. unfold set_assignments, set_serial_numbers. simpl in *.
    by rewrite Hsn, Hk. }
  intros c'. unfold c', after, delete_serials, bind, execute, commit. simpl.
  split; [|split; [|done]].
  - rewrite Hnoop; [done|]. intros s Hs. unfold delete_serial_rows. simpl.
    rewrite lookup_foldr_delete. by rewrite decide_True.
  - intros Hnone. by apply Hnoop.
Qed.



(** The serial is assigned: the one record that is active for it. *)
Lemma assigned_active_record (t : tables) serial r holder :
  inv t → serial_numbers t !! serial = Some r → s_assigned_to r = Some holder →
  ∃ a, active_records serial t = [a] ∧ select_active_assignment serial t = Some (a_id a)
       ∧ a ∈ assignments t ∧ a_serial a = serial ∧ a_deleted a = 0.
Proof.
  intros Hinv Hs Hh. pose proof (inv_active _ Hinv serial r Hs) as Hlen.
  rewrite Hh in Hlen.
  destruct (active_records serial t) as [|a [|b l]] eqn:Hact; try done.
  exists a. split; [done|]. unfold select_active_assignment.
  fold (active_records serial t). rewrite Hact. split; [done|].
  assert (Hin : a ∈ active_records serial t) by (rewrite Hact; left).
  apply (list_elem_of_filter (is_active serial)) in Hin as [[? ?] ?]. done.
Qed.

Lemma filter_all {A} (P : A → Prop) `{∀ x, Decision (P x)} (l : list A) :
  (∀ b, b ∈ l → P b) → filter P l = l.
Proof.
  induction l as [|b l IH]; intros Hall; [done|].
  rewrite filter_cons_True by (apply Hall; left). f_equal.
  apply IH. intros ? ?. apply Hall. by right.
Qed.

Lemma filter_without_row (P : assignment_row → Prop) `{∀ x, Decision (P x)}
    (l : list assignment_row) (a : assignment_row) :
  NoDup (a_id <$> l) → a ∈ l → P a →
  S (length (filter P (filter (λ b, a_id b ≠ a_id a) l))) = length (filter P l).
Proof.
  induction l as [|b l IH]; intros Hnd Hin HP; [by apply elem_of_nil in Hin|].
  rewrite fmap_cons in Hnd. apply NoDup_cons in Hnd as [Hb Hnd].
  apply elem_of_cons in Hin as [<-|Hin].
  - rewrite (filter_cons_False (λ b, a_id b ≠ a_id a)) by (intros Hne; by apply Hne).
    rewrite (filter_cons_True P) by done. simpl. f_equal.
    rewrite (filter_all (λ b, a_id b ≠ a_id a)); [done|]. intros x Hx Heq. apply Hb. rewrite <- Heq.
    apply list_elem_of_fmap. eauto.
  - assert (Hne : a_id b ≠ a_id a).
    { intros Heq. apply Hb. rewrite Heq. apply list_elem_of_fmap. eauto. }
    rewrite (filter_cons_True (λ b, a_id b ≠ a_id a)) by done.
    destruct (decide (P b)) as [Hp|Hp].
    + rewrite !(filter_cons_True P) by done. simpl. f_equal. by apply IH.
    + rewrite !(filter_cons_False P) by done. by apply IH.
Qed.

(** X8. In a reachable state, [unassign_serial(serial, force=True)] on a
    serial that is assigned removes its one active record from
    [assignments] and nothing else: every other record stays, the serial has
    one record less, and it is unassigned afterwards. *)
Theorem unassign_serial_force_removes_record now serial r holder (c : conn) :
  reachable c →
  serial_numbers (live c) !! serial = Some r → s_assigned_to r = Some holder →
  let c' := after (unassign_serial now serial true) c in
  ∃ a, active_records serial (live c) = [a]
       ∧ assignments (live c') = filter (λ b, a_id b ≠ a_id a) (assignments (live c))
       ∧ (a ∉ assignments (live c'))
       ∧ (∀ b, b ∈ assignments (live c) → b ≠ a → b ∈ assignments (live c'))
       ∧ S (length (records_of serial (live c'))) = length (records_of serial (live c))
       ∧ available serial (live c').
Proof.
  intros Hreach Hs Hh c'. pose proof (reachable_good c Hreach) as [Hinv _].
  destruct (assigned_active_record _ _ _ _ Hinv Hs Hh)
    as (a & Hact & Hsel & Hin & Hser & Hdel).
  assert (Hlive : live c' = unassigned_tables now serial true (live c)).
  { unfold c', after. by rewrite unassign_run. }
  assert (Hasg : assignments (live c')
                 = filter (λ b, a_id b ≠ a_id a) (assignments (live c))).
  { rewrite Hlive. unfold unassigned_tables. by rewrite Hsel. }
  exists a. split; [done|]. split; [done|]. split; [|split; [|split]].
  - rewrite Hasg. intros [Hne _]%list_elem_of_filter. done.
  - intros b Hb Hne. rewrite Hasg. apply list_elem_of_filter. split; [|done].
    intros Heq. apply Hne.
    by apply (same_id_same_row (assignments (live c)) b a (inv_ids _ Hinv)).
  - unfold records_of. rewrite Hasg.
    by apply (filter_without_row (λ b, a_serial b = serial) _ a (inv_ids _ Hinv)).
  - exists (with_assigned_to now None r). split; [|done].
    rewrite Hlive, serial_numbers_unassigned, lookup_alter_eq, Hs. done.
Qed.

Lemma unassign_serial_force_removes_record_witness :
  let c' := after (unassign_serial t0 "S001" true) smoke_assigned in
  ∃ a, active_records "S001" (live smoke_assigned) = [a]
       ∧ assignments (live c')
         = filter (λ b, a_id b ≠ a_id a) (assignments (live smoke_assigned))
       ∧ (a ∉ assignments (live c'))
       ∧ (∀ b, b ∈ assignments (live smoke_assigned) → b ≠ a →
            b ∈ assignments (live c'))
       ∧ S (length (records_of "S001" (live c')))
         = length (records_of "S001" (live smoke_assigned))
       ∧ available "S001" (live c').
Proof.
  apply (unassign_serial_force_removes_record t0 "S001"
           (SerialRow 1 (Some "2024-01-01") None None (Some "C001") (epoch t0) None None)
           "C001" smoke_assigned).
  - apply reach_assign, smoke_store_reachable.
  - vm_compute. reflexivity.
  - reflexivity.
Defined.

(** X9. In a reachable state, [unassign_serial] on a serial that is not
    assigned, or that does not exist, returns without touching
    [assignments], customers, materials or any other serial; of the serial's
    own row, when there is one, only [last_modified] changes. *)
Theorem unassign_serial_without_holder now serial force (c : conn) :
  reachable c →
  (∀ r, serial_numbers (live c) !! serial = Some r → s_assigned_to r = None) →
  let call := unassign_serial now serial force in
  let c' := after call c in
  result call c = Ok tt
  ∧ assignments (live c') = assignments (live c)
  ∧ customers (live c') = customers (live c)
  ∧ materials (live c') = materials (live c)
  ∧ (∀ x, x ≠ serial → serial_numbers (live c') !! x = serial_numbers (live c) !! x)
  ∧ serial_numbers (live c') !! serial
    = with_s_last_modified now <$> serial_numbers (live c) !! serial.
Proof.
  intros Hreach Hfree call c'. pose proof (reachable_good c Hreach) as [Hinv _].
  assert (Hnone : select_active_assignment serial (live c) = None).
  { unfold select_active_assignment. fold (active_records serial (live c)).
    destruct (serial_numbers (live c) !! serial) as [r|] eqn:Hs.
    - rewrite (available_no_active serial (live c) Hinv); [done|].
      exists r. split; [done|]. by apply Hfree.
    - by rewrite (no_active_of_missing_serial _ _ Hinv Hs). }
  unfold c', call, after, result. rewrite unassign_run. cbn [fst snd live].
  unfold unassigned_tables. rewrite Hnone. simpl.
  split; [done|]. split; [done|]. split; [done|]. split; [done|]. split.
  - intros x Hne. by rewrite lookup_alter_ne.
  - rewrite lookup_alter_eq.
    destruct (serial_numbers (live c) !! serial) as [r|] eqn:Hs; [|done]. simpl.
    unfold with_s_last_modified. by rewrite (Hfree r).
Qed.

Lemma unassign_serial_without_holder_witness :
  let call := unassign_serial t0 "S002" true in
  let c' := after call smoke_assigned in
  result call smoke_assigned = Ok tt
  ∧ assignments (live c') = assignments (live smoke_assigned)
  ∧ customers (live c') = customers (live smoke_assigned)
  ∧ materials (live c') = materials (live smoke_assigned)
  ∧ (∀ x, x ≠ "S002" →
       serial_numbers (live c') !! x = serial_numbers (live smoke_assigned) !! x)
  ∧ serial_numbers (live c') !! "S002"
    = with_s_last_modified t0 <$> serial_numbers (live smoke_assigned) !! "S002".
Proof.
  apply (unassign_serial_without_holder t0 "S002" true smoke_assigned).
  - apply reach_assign, smoke_store_reachable.
  - intros r. vm_compute. intros [= <-]. reflexivity.
Defined.

(** ** The history of a customer *)

#[local] Instance history_order_total : Total history_order.
Proof.
  intros x y. unfold history_order, String.ltb.
  rewrite (String.compare_antisym (a_assigned_date x.1.1) (a_assigned_date y.1.1)).
  destruct (String.compare (a_assigned_date y.1.1) (a_assigned_date x.1.1)) eqn:Hc;
    simpl; auto.
  apply String.compare_eq_iff in Hc.
  destruct (Z.le_ge_cases (a_id x.1.1) (a_id y.1.1)); [right|left]; right; auto.
Qed.


(** ** Users *)

Lemma authenticate_user_run username password (c : conn) :
  "users" ∈ objects (live c) →
  authenticate_user username password c
  = (c, Ok (match users (live c) !! username with
            | Some r =>
                if decide (_hash_password password (u_salt r) = u_password_hash r)
                then Some (username, u_role r) else None
            | None => None
            end)).
Proof.
  intros Hu. unfold authenticate_user, bind, select_users, ret.
  rewrite (decide_True _ _ Hu).
  destruct (users (live c) !! username) as [r|]; [|done].
  by destruct (decide _).
Qed.

(** X11. On a file that has the table [users]: [add_user] with a new
    username returns, and [authenticate_user] with the same password then
    returns the username with the role given, whatever salt was drawn; the
    other accounts authenticate as before. With a username that is taken it
    raises [IntegrityError] and the account keeps its password and role. *)
Theorem add_user_then_authenticate salt username password role (c : conn) :
  "users" ∈ objects (live c) →
  let call := add_user salt username password role in
  let c' := after call c in
  match users (live c) !! username with
  | None =>
      result call c = Ok tt
      ∧ result (authenticate_user username password) c' = Ok (Some (username, role))
      ∧ result (get_user_role username) c' = Ok (Some role)
      ∧ (∀ other pw, other ≠ username →
           result (authenticate_user other pw) c' = result (authenticate_user other pw) c)
      ∧ durable c' = live c'
  | Some _ =>
      result call c = Raise (IntegrityError "UNIQUE constraint failed: users.username")
      ∧ live c' = live c ∧ durable c' = durable c
      ∧ ∀ pw, result (authenticate_user username pw) c'
              = result (authenticate_user username pw) c
  end.
Proof.
  intros Hu call c'.
  assert (Hrun : call c = match users (live c) !! username with
                          | None =>
                              (let t' := set_users
                                           <[username := UserRow (_hash_password password salt)
                                                           salt role]> (live c) in
                               Conn t' t' false (logged c), Ok tt)
                          | Some _ =>
                              (Conn (durable c) (live c) true (logged c),
                               Raise (IntegrityError
                                        "UNIQUE constraint failed: users.username"))
                          end).
  { unfold call, add_user, bind, execute, commit, insert_user.
    rewrite (decide_True _ _ Hu). by destruct (users (live c) !! username). }
  unfold c', after, result. rewrite Hrun.
  destruct (users (live c) !! username) as [r|] eqn:Hr; cbn [fst snd live durable].
  - split; [done|]. split; [done|]. split; [done|]. intros pw.
    rewrite !authenticate_user_run by done. done.
  - split; [done|].
    rewrite authenticate_user_run by done. cbn [live users set_users].
    rewrite lookup_insert_eq. cbn [u_salt u_password_hash u_role].
    rewrite decide_True by done. split; [done|].
    split. { unfold get_user_role, query. simpl. by rewrite lookup_insert_eq. }
    split; [|done]. intros other pw Hne.
    rewrite !authenticate_user_run by done. cbn [live users set_users fst snd].
    by rewrite lookup_insert_ne.
Qed.

Lemma add_user_then_authenticate_witness :
  let c := Database "5a17" empty_store in
  let call := add_user "00ff" "bob" "secret" "viewer" in
  let c' := after call c in
  result call c = Ok tt
  ∧ result (authenticate_user "bob" "secret") c' = Ok (Some ("bob", "viewer"))
  ∧ result (get_user_role "bob") c' = Ok (Some "viewer")
  ∧ (∀ other pw, other ≠ "bob" →
       result (authenticate_user other pw) c' = result (authenticate_user other pw) c)
  ∧ durable c' = live c'.
Proof.
  apply (add_user_then_authenticate "00ff" "bob" "secret" "viewer"
           (Database "5a17" empty_store)).
  apply (bool_decide_unpack _). vm_compute. exact I.
Defined.

Lemma alter_missing {V} (f : V → V) (k : string) (m : gmap string V) :
  m !! k = None → alter f k m = m.
Proof.
  intros Hk. apply map_eq. intros i. destruct (decide (i = k)) as [->|Hne].
  - by rewrite lookup_alter_eq, Hk.
  - by rewrite lookup_alter_ne.
Qed.

(** X12. [update_user_role] changes the role and nothing else of the
    account: every password authenticates or fails as before, and a
    successful authentication now reports the new role; the other accounts
    are untouched, and for a username that does not exist no row changes. *)
Theorem update_user_role_keeps_password username new_role (c : conn) :
  "users" ∈ objects (live c) →
  let call := update_user_role username new_role in
  let c' := after call c in
  result call c = Ok tt
  ∧ (∀ pw, result (authenticate_user username pw) c'
           = match result (authenticate_user username pw) c with
             | Ok (Some (name, _)) => Ok (Some (name, new_role))
             | r => r
             end)
  ∧ (∀ other pw, other ≠ username →
       result (authenticate_user other pw) c' = result (authenticate_user other pw) c)
  ∧ (users (live c) !! username = None → live c' = live c).
Proof.
  intros Hu call c'. unfold c', call, after, result, update_user_role, bind, execute,
    commit. cbn [fst snd live]. split; [done|]. split; [|split].
  - intros pw. rewrite !authenticate_user_run by done. cbn [live users set_users fst snd].
    rewrite lookup_alter_eq.
    destruct (users (live c) !! username) as [r|]; [|done]. simpl.
    by destruct (decide _).
  - intros other pw Hne. rewrite !authenticate_user_run by done.
    cbn [live users set_users fst snd]. by rewrite lookup_alter_ne.
  - intros Hnone. destruct (live c) as [o sv cu ma ms sn asg aseq ca us] eqn:Ht.
    unfold set_users. simpl in *. by rewrite alter_missing.
Qed.

Lemma update_user_role_keeps_password_witness :
  let c := Database "5a17" empty_store in
  let call := update_user_role "admin" "viewer" in
  let c' := after call c in
  result call c = Ok tt
  ∧ (∀ pw, result (authenticate_user "admin" pw) c'
           = match result (authenticate_user "admin" pw) c with
             | Ok (Some (name, _)) => Ok (Some (name, "viewer"))
             | r => r
             end)
  ∧ (∀ other pw, other ≠ "admin" →
       result (authenticate_user other pw) c' = result (authenticate_user other pw) c)
  ∧ (users (live c) !! "admin" = None → live c' = live c).
Proof.
  apply (update_user_role_keeps_password "admin" "viewer" (Database "5a17" empty_store)).
  apply (bool_decide_unpack _). vm_compute. exact I.
Defined.

(** X13. After [delete_user] no password authenticates the username and
    [get_user_role] returns None; the other accounts authenticate as before,
    and for a username that does not exist no row changes. *)
Theorem delete_user_then_authenticate username (c : conn) :
  "users" ∈ objects (live c) →
  let call := delete_user username in
  let c' := after call c in
  result call c = Ok tt
  ∧ (∀ pw, result (authenticate_user username pw) c' = Ok None)
  ∧ result (get_user_role username) c' = Ok None
  ∧ (∀ other pw, other ≠ username →
       result (authenticate_user other pw) c' = result (authenticate_user other pw) c)
  ∧ (users (live c) !! username = None → live c' = live c).
Proof.
  intros Hu call c'. unfold c', call, after, result, delete_user, bind, execute,
    commit. cbn [fst snd live]. split; [done|]. split; [|split; [|split]].
  - intros pw. rewrite authenticate_user_run by done. cbn [live users set_users fst snd].
    by rewrite lookup_delete_eq.
  - unfold get_user_role, query. simpl. by rewrite lookup_delete_eq.
  - intros other pw Hne. rewrite !authenticate_user_run by done.
    cbn [live users set_users fst snd]. by rewrite lookup_delete_ne.
  - intros Hnone. destruct (live c) as [o sv cu ma ms sn asg aseq ca us] eqn:Ht.
    unfold set_users. simpl in *. by rewrite delete_id.
Qed.

Lemma delete_user_then_authenticate_witness :
  let c := Database "5a17" empty_store in
  let call := delete_user "admin" in
  let c' := after call c in
  result call c = Ok tt
  ∧ (∀ pw, result (authenticate_user "admin" pw) c' = Ok None)
  ∧ result (get_user_role "admin") c' = Ok None
  ∧ (∀ other pw, other ≠ "admin" →
       result (authenticate_user other pw) c' = result (authenticate_user other pw) c)
  ∧ (users (live c) !! "admin" = None → live c' = live c).
Proof.
  apply (delete_user_then_authenticate "admin" (Database "5a17" empty_store)).
  apply (bool_decide_unpack _). vm_compute. exact I.
Defined.

(** ** The role policy and the users tab *)

Lemma role_level_cases (role : string) :
  (role = "viewer" ∧ _role_level role = 0)
  ∨ (role = "operator" ∧ _role_level role = 1)
  ∨ (role = "admin3" ∧ _role_level role = 2)
  ∨ (role = "admin2" ∧ _role_level role = 3)
  ∨ (role = "admin1" ∧ _role_level role = 4)
  ∨ ((role ∉ ALL_ROLES) ∧ _role_level role = -1).
Proof.
  destruct (String.eqb_spec "viewer" role) as [<-|H0];
    [left; split; reflexivity|right].
  destruct (String.eqb_spec "operator" role) as [<-|H1];
    [left; split; reflexivity|right].
  destruct (String.eqb_spec "admin3" role) as [<-|H2];
    [left; split; reflexivity|right].
  destruct (String.eqb_spec "admin2" role) as [<-|H3];
    [left; split; reflexivity|right].
  destruct (String.eqb_spec "admin1" role) as [<-|H4];
    [left; split; reflexivity|right].
  split.
  - unfold ALL_ROLES. rewrite !elem_of_cons, elem_of_nil.
    intros [?|[?|[?|[?|[?|[]]]]]]; congruence.
  - unfold _role_level, ROLE_LEVELS. cbn [find fst snd].
    apply String.eqb_neq in H0, H1, H2, H3, H4. by rewrite H0, H1, H2, H3, H4.
Qed.

(** X14. [_can_manage_role] is a strict order on roles: no role manages
    itself, managing is transitive and never mutual, and of two different
    roles of [ALL_ROLES] one manages the other; a role outside [ROLE_LEVELS]
    manages no role of [ALL_ROLES] and is managed by all of them, [viewer]
    included. *)
Theorem can_manage_role_strict_order :
  (∀ role, _can_manage_role role role = false)
  ∧ (∀ a b c, _can_manage_role a b = true → _can_manage_role b c = true →
       _can_manage_role a c = true)
  ∧ (∀ a b, _can_manage_role a b = true → _can_manage_role b a = false)
  ∧ (∀ a b, a ∈ ALL_ROLES → b ∈ ALL_ROLES → a ≠ b →
       _can_manage_role a b = true ∨ _can_manage_role b a = true)
  ∧ (∀ a b, a ∈ ALL_ROLES → b ∉ ALL_ROLES →
       _can_manage_role a b = true ∧ _can_manage_role b a = false).
Proof.
  unfold _can_manage_role. split; [|split; [|split; [|split]]].
  - intros role. apply Z.ltb_irrefl.
  - intros a b c H1%Z.ltb_lt H2%Z.ltb_lt. apply Z.ltb_lt. lia.
  - intros a b H1%Z.ltb_lt. apply Z.ltb_ge. lia.
  - intros a b Ha Hb Hne. rewrite !Z.ltb_lt.
    destruct (role_level_cases a) as [[-> ->]|[[-> ->]|[[-> ->]|[[-> ->]|[[-> ->]|[? _]]]]]];
      [| | | | |done];
    (destruct (role_level_cases b)
       as [[-> ->]|[[-> ->]|[[-> ->]|[[-> ->]|[[-> ->]|[? _]]]]]]; [| | | | |done]);
    try done; lia.
  - intros a b Ha Hb. rewrite Z.ltb_lt, Z.ltb_ge.
    destruct (role_level_cases b) as [[-> _]|[[-> _]|[[-> _]|[[-> _]|[[-> _]|[_ ->]]]]]];
      try (exfalso; apply Hb; apply (bool_decide_unpack _); exact I).
    destruct (role_level_cases a) as [[_ ->]|[[_ ->]|[[_ ->]|[[_ ->]|[[_ ->]|[? _]]]]]];
      [| | | | |done]; lia.
Qed.

(** The roles offered by [_add_user] and by [_change_role] are the same
    list. *)
Lemma allowed_new_roles_eq current_role :
  _allowed_new_roles current_role
  = if String.eqb current_role "admin1" then ALL_ROLES
    else filter (λ r, _role_level r < _role_level current_role) ALL_ROLES.
Proof.
  unfold _allowed_new_roles. destruct (String.eqb current_role "admin1") eqn:He.
  - apply filter_all. intros; by left.
  - apply list_filter_iff. intros r. split; [intros [?|?]; done|by right].
Qed.

(** X15. [_allowed_new_roles] offers exactly the roles of [ALL_ROLES] that
    the current role can manage, and to [admin1] all of [ALL_ROLES]; the
    list is empty exactly for [viewer] and for roles outside [ROLE_LEVELS];
    the current role itself is offered only to [admin1], which can therefore
    create accounts of a role that it cannot manage afterwards. *)
Theorem allowed_new_roles_options current_role :
  (∀ role, role ∈ _allowed_new_roles current_role
           ↔ role ∈ ALL_ROLES
             ∧ (current_role = "admin1" ∨ _can_manage_role current_role role = true))
  ∧ (_allowed_new_roles current_role = [] ↔ _role_level current_role ≤ 0)
  ∧ (current_role ∈ _allowed_new_roles current_role ↔ current_role = "admin1").
Proof.
  assert (Hmem : ∀ role, role ∈ _allowed_new_roles current_role
           ↔ role ∈ ALL_ROLES
             ∧ (current_role = "admin1" ∨ _can_manage_role current_role role = true)).
  { intros role. unfold _allowed_new_roles, _can_manage_role.
    rewrite list_elem_of_filter, Z.ltb_lt, String.eqb_eq. tauto. }
  split; [exact Hmem|]. split.
  - split.
    + intros Hnil.
      destruct (Z.le_gt_cases (_role_level current_role) 0) as [?|Hpos]; [done|].
      assert (Hin : "viewer" ∈ _allowed_new_roles current_role).
      { apply Hmem. split; [apply (bool_decide_unpack _); exact I|]. right.
        unfold _can_manage_role. apply Z.ltb_lt. change (_role_level "viewer") with 0.
        lia. }
      rewrite Hnil in Hin. by apply elem_of_nil in Hin.
    + intros Hle. rewrite allowed_new_roles_eq.
      destruct (String.eqb_spec current_role "admin1") as [->|_].
      { change (_role_level "admin1") with 4 in Hle. lia. }
      apply filter_length_0. intros r Hr Hlt.
      destruct (role_level_cases r) as [[_ H]|[[_ H]|[[_ H]|[[_ H]|[[_ H]|[? _]]]]]];
        [| | | | |done]; lia.
  - rewrite Hmem. unfold _can_manage_role. rewrite Z.ltb_irrefl. split.
    + intros [_ [?|?]]; done.
    + intros ->. split; [apply (bool_decide_unpack _); exact I|by left].
Qed.

#[local] Instance username_le_total : Total username_le.
Proof. intros x y. unfold username_le. apply String.leb_total. Qed.

Lemma list_users_run (c : conn) :
  list_users c
  = if decide ("users" ∈ objects (live c))
    then (c, Ok (merge_sort username_le (prod_map id u_role <$> map_to_list (users (live c)))))
    else (c, Raise (OperationalError "no such table: users")).
Proof.
  unfold list_users, bind, select_users, ret. by destruct (decide _).
Qed.

Lemma elem_of_listed_users (rows : gmap string user_row) (u : string) :
  u ∈ (merge_sort username_le (prod_map id u_role <$> map_to_list rows)).*1
  ↔ is_Some (rows !! u).
Proof.
  rewrite merge_sort_Permutation, <- list_fmap_compose, list_elem_of_fmap. split.
  - intros ([k r] & -> & Hin). apply elem_of_map_to_list in Hin. simpl. eauto.
  - intros [r Hr]. exists (u, r). split; [done|]. by apply elem_of_map_to_list.
Qed.

Lemma refresh_run (c : conn) : ∃ events, refresh c = (c, Ok events).
Proof.
  unfold refresh, try_except, bind. rewrite list_users_run.
  destruct (decide _); eauto.
Qed.

Lemma choose_role_in roles preselect user role :
  _choose_role roles preselect user = Some role → role ≠ "" → role ∈ roles.
Proof.
  unfold _choose_role. destruct user as [|pick]; [done|]. intros [= <-] Hne.
  assert (Hfirst : default "" (head roles) ≠ "" → default "" (head roles) ∈ roles).
  { destruct roles as [|r roles]; [done|]. intros _. left. }
  assert (Hvalue : ∀ value, (value ≠ "" → value ∈ roles) →
            default value (pick ≫= (roles !!.)) ≠ "" →
            default value (pick ≫= (roles !!.)) ∈ roles).
  { intros value Hv. destruct pick as [i|]; simpl; [|done].
    destruct (roles !! i) as [r|] eqn:Hi; simpl; [|done].
    intros _. by apply list_elem_of_lookup_2 in Hi. }
  revert Hne. apply Hvalue.
  destruct preselect as [p|]; [|done]. by destruct (decide (p ∈ roles)).
Qed.

Lemma falsy_false (s : option string) :
  falsy s = false → ∃ v, s = Some v ∧ v ≠ "".
Proof. destruct s as [[|a v]|]; try done. intros _. eauto. Qed.

Lemma try_except_ok body handler (c c1 : conn) events :
  body c = (c1, Ok events) → try_except body handler c = (c1, Ok events).
Proof. intros H. unfold try_except. by rewrite H. Qed.

(** A write to [users] followed by [refresh] and the message. *)
Lemma write_then_refresh (m : M unit) (c c1 : conn) (shown : event) :
  m c = (c1, Ok tt) →
  ∃ events,
    (m ;;; let! events := refresh in ret (shown :: events)) c = (c1, Ok events).
Proof.
  intros Hm. destruct (refresh_run c1) as [events Hrun].
  exists (shown :: events). rewrite (bind_run _ _ _ _ _ Hm).
  by rewrite (bind_run _ _ _ _ _ Hrun).
Qed.

Lemma delete_user_click current_role current_username selected askyesno (c : conn) :
  let call := _delete_user current_role current_username selected askyesno in
  let c' := after call c in
  (∃ events, result call c = Ok events)
  ∧ (c' = c
     ∨ ∃ username role,
         selected = Some (username, role) ∧ username ≠ current_username
         ∧ _role_level role < _role_level current_role ∧ askyesno = true
         ∧ live c' = set_users (delete username) (live c) ∧ durable c' = live c').
Proof.
  intros call c'. unfold c', call, after, result, _delete_user.
  destruct selected as [[username role]|]; [|split; [eauto|by left]].
  destruct (String.eqb_spec username current_username) as [->|Hne];
    [split; [eauto|by left]|].
  unfold _can_manage_role.
  destruct (Z.ltb_spec (_role_level role) (_role_level current_role)) as [Hlt|Hge];
    simpl; [|split; [eauto|by left]].
  destruct askyesno; simpl; [|split; [eauto|by left]].
  edestruct (write_then_refresh (delete_user username) c) as [events Hbody];
    [reflexivity|].
  rewrite (try_except_ok _ _ _ _ _ Hbody). cbn [fst snd live durable].
  split; [eauto|]. right. exists username, role. done.
Qed.

Lemma change_role_click current_role current_username selected user (c : conn) :
  let call := _change_role current_role current_username selected user in
  let c' := after call c in
  (∃ events, result call c = Ok events)
  ∧ (c' = c
     ∨ ∃ username target_role new_role,
         selected = Some (username, target_role) ∧ username ≠ current_username
         ∧ _role_level target_role < _role_level current_role
         ∧ new_role ∈ _allowed_new_roles current_role ∧ new_role ≠ target_role
         ∧ live c'
           = set_users
               (alter (λ r, UserRow (u_password_hash r) (u_salt r) new_role) username)
               (live c)
         ∧ durable c' = live c').
Proof.
  intros call c'. unfold c', call, after, result, _change_role.
  destruct selected as [[username target_role]|]; [|split; [eauto|by left]].
  destruct (String.eqb_spec username current_username) as [->|Hne];
    [split; [eauto|by left]|].
  unfold _can_manage_role.
  destruct (Z.ltb_spec (_role_level target_role) (_role_level current_role))
    as [Hlt|Hge]; simpl; [|split; [eauto|by left]].
  rewrite <- allowed_new_roles_eq.
  destruct (falsy (_choose_role (_allowed_new_roles current_role) (Some target_role) user))
    eqn:Hf; simpl; [split; [eauto|by left]|].
  destruct (bool_decide_reflect
              (_choose_role (_allowed_new_roles current_role) (Some target_role) user
               = Some target_role)) as [Heq|Hneq]; [split; [eauto|by left]|].
  apply falsy_false in Hf as (new_role & Hnew & Hne').
  rewrite Hnew. cbn [default from_option id].
  edestruct (write_then_refresh (update_user_role username new_role) c)
    as [events Hbody]; [reflexivity|].
  rewrite (try_except_ok _ _ _ _ _ Hbody). cbn [fst snd live durable].
  split; [eauto|]. right. exists username, target_role, new_role.
  split; [done|]. split; [done|]. split; [done|].
  split; [by apply (choose_role_in _ _ _ _ Hnew)|].
  split; [|done]. intros ->. by rewrite Hnew in Hneq.
Qed.

Lemma add_user_click current_role salt username password confirm user (c : conn) :
  let call := _add_user current_role salt username password confirm user in
  (∃ r, call c = (c, r))
  ∨ ∃ name pw role events,
      username = Some name ∧ name ≠ "" ∧ password = Some pw ∧ confirm = Some pw
      ∧ "users" ∈ objects (live c)
      ∧ users (live c) !! name = None
      ∧ role ∈ _allowed_new_roles current_role
      ∧ call c
        = (let t' := set_users <[name := UserRow (_hash_password pw salt) salt role]>
                       (live c) in
           Conn t' t' false (logged c), Ok events).
Proof.
  intros call.
  cut (∀ x, call c = x →
         (∃ r, x = (c, r))
         ∨ ∃ name pw role events,
             username = Some name ∧ name ≠ "" ∧ password = Some pw ∧ confirm = Some pw
             ∧ "users" ∈ objects (live c)
             ∧ users (live c) !! name = None
             ∧ role ∈ _allowed_new_roles current_role
             ∧ x = (let t' := set_users
                                <[name := UserRow (_hash_password pw salt) salt role]>
                                (live c) in
                    Conn t' t' false (logged c), Ok events)).
  { intros H. apply (H (call c) eq_refl). }
  intros x. unfold call, _add_user.
  destruct (_allowed_new_roles current_role) as [|r0 options] eqn:Hopt;
    [intros <-; left; eauto|].
  rewrite <- Hopt.
  destruct (falsy username) eqn:Hfu; [intros <-; left; eauto|].
  apply falsy_false in Hfu as (name & -> & Hname). cbn [default from_option id].
  unfold bind at 1. rewrite list_users_run.
  destruct (decide ("users" ∈ objects (live c))) as [Hu|Hu]; [|intros <-; left; eauto].
  cbv beta iota.
  destruct (decide (name ∈ (merge_sort username_le
                              (prod_map id u_role <$> map_to_list (users (live c)))).*1))
    as [Hin|Hnin]; [intros <-; left; eauto|].
  destruct (falsy password) eqn:Hfp; [intros <-; left; eauto|].
  apply falsy_false in Hfp as (pw & -> & Hpw).
  destruct (bool_decide_reflect (Some pw = confirm)) as [<-|Hc];
    [|intros <-; left; eauto].
  cbn [negb default from_option id].
  destruct (falsy (_choose_role (_allowed_new_roles current_role) None user)) eqn:Hfr;
    [intros <-; left; eauto|].
  apply falsy_false in Hfr as (role & Hrole & Hne). rewrite Hrole.
  cbn [default from_option id].
  assert (Hnone : users (live c) !! name = None).
  { apply eq_None_not_Some. intros Hs. apply Hnin. by apply elem_of_listed_users. }
  edestruct (write_then_refresh (add_user salt name pw role) c) as [events Hbody].
  { unfold add_user, bind, execute, commit, insert_user.
    rewrite (decide_True _ _ Hu), Hnone. reflexivity. }
  rewrite (try_except_ok _ _ _ _ _ Hbody). intros <-.
  right. exists name, pw, role, events.
  split; [done|]. split; [done|]. split; [done|]. split; [done|]. split; [done|].
  split; [done|]. split; [by apply (choose_role_in _ _ _ _ Hrole)|]. reflexivity.
Qed.

(** X16. [_delete_user] never raises and never deletes the account of the
    user who is logged in; the only account it can remove is the selected
    one, and only when the current role can manage the role shown in the
    selected row and the confirmation was answered with yes. Every other
    account is as before. *)
Theorem delete_user_click_effect current_role current_username selected askyesno
    (c : conn) :
  let call := _delete_user current_role current_username selected askyesno in
  let c' := after call c in
  (∃ events, result call c = Ok events)
  ∧ users (live c') !! current_username = users (live c) !! current_username
  ∧ ∀ u, users (live c') !! u = users (live c) !! u
         ∨ (∃ role, selected = Some (u, role)
                    ∧ _can_manage_role current_role role = true)
           ∧ askyesno = true ∧ users (live c') !! u = None.
Proof.
  intros call c'.
  destruct (delete_user_click current_role current_username selected askyesno c)
    as [Hok [Hsame|(username & role & -> & Hne & Hlt & -> & Hlive & _)]];
    fold call in Hok; fold call c' in Hsame || fold call c' in Hlive.
  - split; [done|]. rewrite Hsame. split; [done|]. by left.
  - split; [done|]. rewrite Hlive. simpl. split; [by rewrite lookup_delete_ne|].
    intros u. destruct (decide (u = username)) as [->|Hu].
    + right. split; [|by rewrite lookup_delete_eq]. exists role. split; [done|].
      by apply Z.ltb_lt.
    + left. by rewrite lookup_delete_ne.
Qed.

(** X17. [_change_role] never raises and never touches the account of the
    user who is logged in; the only account it can change is the selected
    one, only when the current role can manage the role shown for it, and
    only to a role of [_allowed_new_roles]; the password hash and the salt
    of that account are kept. *)
Theorem change_role_click_effect current_role current_username selected user
    (c : conn) :
  let call := _change_role current_role current_username selected user in
  let c' := after call c in
  (∃ events, result call c = Ok events)
  ∧ users (live c') !! current_username = users (live c) !! current_username
  ∧ ∀ u, users (live c') !! u = users (live c) !! u
         ∨ ∃ target_role new_role r,
             selected = Some (u, target_role)
             ∧ _can_manage_role current_role target_role = true
             ∧ new_role ∈ _allowed_new_roles current_role
             ∧ users (live c) !! u = Some r
             ∧ users (live c') !! u
               = Some (UserRow (u_password_hash r) (u_salt r) new_role).
Proof.
  intros call c'.
  destruct (change_role_click current_role current_username selected user c)
    as [Hok [Hsame|(username & target & new_role & -> & Hne & Hlt & Hin & _ & Hlive & _)]];
    fold call in Hok; fold call c' in Hsame || fold call c' in Hlive.
  - split; [done|]. rewrite Hsame. split; [done|]. by left.
  - split; [done|]. rewrite Hlive. simpl. split; [by rewrite lookup_alter_ne|].
    intros u. destruct (decide (u = username)) as [->|Hu].
    + rewrite lookup_alter_eq.
      destruct (users (live c) !! username) as [r|] eqn:Hr; [|by left].
      right. exists target, new_role, r. split; [done|].
      split; [by apply Z.ltb_lt|]. done.
    + left. by rewrite lookup_alter_ne.
Qed.

(** X18. [_add_user] never replaces an account: the only account that can
    differ afterwards is a new one under the username entered, created with
    the password that was entered twice and with a role of
    [_allowed_new_roles]. *)
Theorem add_user_click_effect current_role salt username password confirm user
    (c : conn) :
  let call := _add_user current_role salt username password confirm user in
  let c' := after call c in
  ∀ u, users (live c') !! u = users (live c) !! u
       ∨ ∃ pw role,
           username = Some u ∧ password = Some pw ∧ confirm = Some pw
           ∧ role ∈ _allowed_new_roles current_role
           ∧ users (live c) !! u = None
           ∧ users (live c') !! u = Some (UserRow (_hash_password pw salt) salt role).
Proof.
  intros call c' u. unfold c', after.
  destruct (add_user_click current_role salt username password confirm user c)
    as [[r Hsame]|(name & pw & role & events & -> & _ & -> & -> & _ & Hnone & Hin & Hrun)];
    fold call in Hsame || fold call in Hrun.
  - rewrite Hsame. by left.
  - rewrite Hrun. simpl. destruct (decide (u = name)) as [->|Hu].
    + right. exists pw, role. by rewrite lookup_insert_eq.
    + left. by rewrite lookup_insert_ne.
Qed.

Lemma click_users current_role current_username b (c : conn) u r' :
  users (live (after (command current_role current_username b) c)) !! u = Some r' →
  users (live c) !! u = Some r' ∨ u_role r' ∈ _allowed_new_roles current_role.
Proof.
  destruct b as [salt username password confirm user|selected user|selected askyesno];
    unfold command, after.
  - destruct (add_user_click current_role salt username password confirm user c)
      as [[r ->]|(name & pw & role & events & _ & _ & _ & _ & _ & _ & Hin & ->)];
      [by left|]. simpl. destruct (decide (u = name)) as [->|Hu].
    + rewrite lookup_insert_eq. intros [= <-]. by right.
    + rewrite lookup_insert_ne by done. by left.
  - destruct (change_role_click current_role current_username selected user c)
      as [_ [Hsame|(username & target & new_role & _ & _ & _ & Hin & _ & Hlive & _)]];
      unfold after in *.
    + rewrite Hsame. by left.
    + rewrite Hlive. simpl. destruct (decide (u = username)) as [->|Hu].
      * rewrite lookup_alter_eq. destruct (users (live c) !! username); [|done].
        intros [= <-]. by right.
      * rewrite lookup_alter_ne by done. by left.
  - destruct (delete_user_click current_role current_username selected askyesno c)
      as [_ [Hsame|(username & role & _ & _ & _ & _ & Hlive & _)]]; unfold after in *.
    + rewrite Hsame. by left.
    + rewrite Hlive. simpl. destruct (decide (u = username)) as [->|Hu].
      * by rewrite lookup_delete_eq.
      * rewrite lookup_delete_ne by done. by left.
Qed.

Lemma click_own current_role current_username b (c : conn) r :
  users (live c) !! current_username = Some r →
  users (live (after (command current_role current_username b) c)) !! current_username
  = Some r.
Proof.
  intros Hown.
  destruct b as [salt username password confirm user|selected user|selected askyesno];
    unfold command, after.
  - destruct (add_user_click current_role salt username password confirm user c)
      as [[r0 ->]|(name & pw & role & events & _ & _ & _ & _ & _ & Hnone & _ & ->)];
      [done|]. simpl. rewrite lookup_insert_ne; [done|]. intros ->. congruence.
  - destruct (change_role_click current_role current_username selected user c)
      as [_ [Hsame|(username & target & new_role & _ & Hne & _ & _ & _ & Hlive & _)]];
      unfold after in *.
    + by rewrite Hsame.
    + rewrite Hlive. simpl. by rewrite lookup_alter_ne.
  - destruct (delete_user_click current_role current_username selected askyesno c)
      as [_ [Hsame|(username & role & _ & Hne & _ & _ & Hlive & _)]]; unfold after in *.
    + by rewrite Hsame.
    + rewrite Hlive. simpl. by rewrite lookup_delete_ne.
Qed.

(** X19. Whatever a user clicks and enters in the users tab, every account
    that is new or changed at the end of the session has a role of
    [ALL_ROLES], and unless the user is [admin1] it is a role strictly below
    the user's own: nobody but [admin1] can create or promote an account to
    their own level or above. *)
Theorem users_tab_no_privilege_escalation current_role current_username clicks
    (c : conn) :
  let c' := session current_role current_username clicks c in
  ∀ u r', users (live c') !! u = Some r' →
    users (live c) !! u = Some r'
    ∨ (u_role r' ∈ ALL_ROLES
       ∧ (current_role = "admin1"
          ∨ _role_level (u_role r') < _role_level current_role)).
Proof.
  intros c' u r'. unfold c', session. clear c'. revert c.
  induction clicks as [|b rest IH]; intros c; simpl; [by left|].
  intros [Hsame|Hnew]%IH; [|by right].
  apply click_users in Hsame as [?|Hin]; [by left|]. right.
  unfold _allowed_new_roles in Hin. apply list_elem_of_filter in Hin as [Hp Hall].
  split; [done|]. rewrite String.eqb_eq in Hp. done.
Qed.

Lemma users_tab_no_privilege_escalation_witness :
  let c := Database "5a17" empty_store in
  let r' := UserRow (_hash_password "pw" "00ff") "00ff" "operator" in
  users (live c) !! "bob" = Some r'
  ∨ (u_role r' ∈ ALL_ROLES
     ∧ ("admin2" = "admin1" ∨ _role_level (u_role r') < _role_level "admin2")).
Proof.
  apply (users_tab_no_privilege_escalation "admin2" "amy"
           [Add_user "00ff" (Some "bob") (Some "pw") (Some "pw") (Accept (Some 1%nat))]
           (Database "5a17" empty_store) "bob"
           (UserRow (_hash_password "pw" "00ff") "00ff" "operator")).
  vm_compute. reflexivity.
Defined.

(** X20. No series of clicks in the users tab changes the account of the
    user who is logged in: it can neither be deleted nor replaced, and its
    role and password stay. *)
Theorem users_tab_keeps_own_account current_role current_username clicks (c : conn) r :
  users (live c) !! current_username = Some r →
  users (live (session current_role current_username clicks c)) !! current_username
  = Some r.
Proof.
  unfold session. revert c. induction clicks as [|b rest IH]; intros c Hown; [done|].
  simpl. apply IH. by apply click_own.
Qed.

Lemma users_tab_keeps_own_account_witness :
  users (live (session "admin1" "admin"
                 [Delete (Some ("admin", "admin1")) true;
                  Change_role (Some ("admin", "admin1")) (Accept (Some 0%nat));
                  Add_user "00ff" (Some "admin") (Some "x") (Some "x") (Accept None)]
                 (Database "5a17" empty_store))) !! "admin"
  = Some (default_admin "5a17").
Proof.
  apply (users_tab_keeps_own_account "admin1" "admin" _ (Database "5a17" empty_store)).
  vm_compute. reflexivity.
Defined.

(** ** [normalize] *)






















(** ** Patterns that cannot match *)









(** ** [extract_family] *)






Lemma lstrip_not_space (s : string) (c : ascii) (r : string) :
  s = String c r → is_space c = false → lstrip s = s.
Proof. intros -> H. simpl. by rewrite H. Qed.



(** ** [guess_category] *)













(** ** Aliases and automatic categories *)











(** ** The methods that write no serial and no assignment *)

Lemma preserves_try_except body handler :
  preserves body → preserves (try_except body handler).
Proof.
  intros Hb c Hc. specialize (Hb c Hc). unfold after, try_except in *.
  by destruct (body c) as [c' [events|e]].
Qed.

Lemma preserves_select_users : preserves select_users.
Proof. intros c Hc. unfold after, select_users. by destruct (decide _). Qed.

Lemma preserves_list_users : preserves list_users.
Proof.
  apply preserves_bind; [apply preserves_select_users|]. intros rows. apply preserves_ret.
Qed.

Lemma preserves_refresh : preserves refresh.
Proof.
  apply preserves_try_except, preserves_bind; [apply preserves_list_users|].
  intros _. apply preserves_ret.
Qed.

Lemma preserves_add_user salt username password role :
  preserves (add_user salt username password role).
Proof.
  apply preserves_bind; [|intros _; apply preserves_commit].
  apply preserves_execute. intros t t'. unfold insert_user.
  destruct (decide _); [|done]. destruct (users t !! username); [done|].
  intros [= <-]. apply inv_set_users.
Qed.

Lemma preserves_update_user_role username new_role :
  preserves (update_user_role username new_role).
Proof.
  apply preserves_bind; [|intros _; apply preserves_commit].
  apply preserves_execute. intros t t' [= <-]. apply inv_set_users.
Qed.

Lemma preserves_delete_user username : preserves (delete_user username).
Proof.
  apply preserves_bind; [|intros _; apply preserves_commit].
  apply preserves_execute. intros t t' [= <-]. apply inv_set_users.
Qed.

Lemma preserves_update_customer now customer_id fields :
  preserves (update_customer now customer_id fields).
Proof.
  unfold update_customer. destruct (filter _ _) as [|k keys]; [apply preserves_ret|].
  apply preserves_bind; [|intros _; apply preserves_commit].
  apply preserves_execute. intros t t'. unfold update_customer_columns.
  destruct (customers t !! customer_id) as [r|]; [|by intros [= <-]].
  destruct (if decide _ then _ else _) as [name|]; [|done].
  intros [= <-] Hinv. eapply inv_frame; [| | | |exact Hinv]; simpl; auto.
  apply Hinv.
Qed.

Lemma preserves_set_material_category now material_id category :
  preserves (set_material_category now material_id category).
Proof.
  apply preserves_bind; [|intros _; apply preserves_commit].
  apply preserves_execute. intros t t' [= <-]. apply inv_alter_material.
Qed.

Lemma preserves_learn_category_alias token category :
  preserves (learn_category_alias token category).
Proof.
  apply preserves_bind; [|intros _; apply preserves_commit].
  apply preserves_execute. intros t t' [= <-]. apply inv_set_category_aliases.
Qed.

Lemma preserves_autocategorize_material now material_id :
  preserves (autocategorize_material now material_id).
Proof.
  apply preserves_bind; [apply preserves_query|]. intros [r|]; [|apply preserves_raise].
  apply preserves_bind.
  { intros c Hc. unfold after, get_alias_map. by destruct (decide _). }
  intros alias_map.
  destruct (guess_category _ _) as [[[[cat conf] family] ev]|e]; [|apply preserves_raise].
  apply preserves_bind.
  { apply preserves_execute. intros t t' [= <-]. apply inv_alter_material. }
  intros _. apply preserves_bind; [apply preserves_commit|]. intros _. apply preserves_ret.
Qed.

Lemma preserves_command current_role current_username b :
  preserves (command current_role current_username b).
Proof.
  destruct b as [salt username password confirm user|selected user|selected askyesno];
    unfold command.
  - unfold _add_user. destruct (_allowed_new_roles current_role); [apply preserves_ret|].
    destruct (falsy username); [apply preserves_ret|].
    apply preserves_bind; [apply preserves_list_users|]. intros users.
    destruct (decide _); [apply preserves_ret|].
    destruct (falsy password); [apply preserves_ret|].
    destruct (negb _); [apply preserves_ret|].
    destruct (falsy _); [apply preserves_ret|].
    apply preserves_try_except, preserves_bind; [apply preserves_add_user|]. intros _.
    apply preserves_bind; [apply preserves_refresh|]. intros events. apply preserves_ret.
  - unfold _change_role. destruct selected as [[username target_role]|];
      [|apply preserves_ret].
    destruct (String.eqb _ _); [apply preserves_ret|].
    destruct (negb _); [apply preserves_ret|].
    destruct (_ || _); [apply preserves_ret|].
    apply preserves_try_except, preserves_bind; [apply preserves_update_user_role|].
    intros _.
    apply preserves_bind; [apply preserves_refresh|]. intros events. apply preserves_ret.
  - unfold _delete_user. destruct selected as [[username role]|]; [|apply preserves_ret].
    destruct (String.eqb _ _); [apply preserves_ret|].
    destruct (negb _); [apply preserves_ret|].
    destruct (negb _); [apply preserves_ret|].
    apply preserves_try_except, preserves_bind; [apply preserves_delete_user|].
    intros _.
    apply preserves_bind; [apply preserves_refresh|]. intros events. apply preserves_ret.
Qed.

(** X27. The methods that write neither serials nor assignments keep the
    invariant of the inventory (the tables exist, the foreign keys hold,
    assignment ids are distinct, a serial has one active record when it is
    assigned and none when it is not), on what the connection sees and on
    what is committed, also when they raise: [update_customer],
    [set_material_category], [autocategorize_material],
    [learn_category_alias], [add_user], [update_user_role], [delete_user] and
    the three commands of the users tab. *)
Theorem other_methods_keep_invariant :
  (∀ now customer_id fields, preserves (update_customer now customer_id fields))
  ∧ (∀ now material_id category,
       preserves (set_material_category now material_id category))
  ∧ (∀ now material_id, preserves (autocategorize_material now material_id))
  ∧ (∀ token category, preserves (learn_category_alias token category))
  ∧ (∀ salt username password role, preserves (add_user salt username password role))
  ∧ (∀ username new_role, preserves (update_user_role username new_role))
  ∧ (∀ username, preserves (delete_user username))
  ∧ (∀ current_role current_username b,
       preserves (command current_role current_username b)).
Proof.
  split; [exact preserves_update_customer|].
  split; [exact preserves_set_material_category|].
  split; [exact preserves_autocategorize_material|].
  split; [exact preserves_learn_category_alias|].
  split; [exact preserves_add_user|].
  split; [exact preserves_update_user_role|].
  split; [exact preserves_delete_user|].
  exact preserves_command.
Qed.


(** ** The holder of a serial and its active record *)

Lemma keeps_rows_pure {A} (m : M A) :
  (∀ c, after m c = c) → keeps_rows m.
Proof. intros H t c Hg Hl Hd. by rewrite H. Qed.

Lemma keeps_rows_log r : keeps_rows (log r).
Proof. by intros t c Hg Hl Hd. Qed.

Lemma keeps_rows_commit : keeps_rows commit.
Proof. intros t c [Hg _] Hl Hd. by split. Qed.

Lemma keeps_rows_bind {A B} (m : M A) (k : A → M B) :
  keeps_rows m → (∀ a, keeps_rows (k a)) → keeps_rows (bind m k).
Proof.
  intros Hm Hk t c Hg Hl Hd. specialize (Hm t c Hg Hl Hd). unfold after, bind in *.
  destruct (m c) as [c' [a|e]]; simpl in *; [|done].
  destruct Hm as (Hg' & Hl' & Hd'). by apply Hk.
Qed.

Lemma keeps_rows_execute (f : tables → outcome tables) :
  (∀ t t', f t = Ok t' → inv t → inv t' ∧ same_rows t t') → keeps_rows (execute f).
Proof.
  intros Hf t c [Hgl Hgd] Hl Hd. unfold after, execute.
  destruct (f (live c)) as [t'|e] eqn:Ht; simpl; [|done].
  destruct (Hf _ _ Ht Hgl) as [Hi [Hs Ha]]. split; [done|]. split; [|done].
  destruct Hl as [Hs' Ha']. split; congruence.
Qed.

Lemma keeps_rows_execute_ddl (f : tables → tables) :
  (∀ t, inv t → inv (f t) ∧ same_rows t (f t)) → keeps_rows (execute_ddl f).
Proof.
  intros Hf t c [Hgl Hgd] Hl Hd. unfold after, execute_ddl.
  destruct (Hf _ Hgl) as [Hi [Hs Ha]]. destruct Hl as [Hs' Ha'].
  assert (same_rows t (f (live c))) by (split; congruence).
  by destruct (in_transaction c).
Qed.

Lemma keeps_rows_executescript (f : tables → tables) :
  (∀ t, inv t → inv (f t) ∧ same_rows t (f t)) → keeps_rows (executescript f).
Proof.
  intros Hf. apply keeps_rows_bind; [apply keeps_rows_commit|].
  intros _. by apply keeps_rows_execute_ddl.
Qed.

Lemma keeps_rows_except_Exception (body : M unit) (handler : exn → M unit) :
  keeps_rows body → (∀ e, keeps_rows (handler e)) →
  keeps_rows (except_Exception body handler).
Proof.
  intros Hb Hh t c Hg Hl Hd. specialize (Hb t c Hg Hl Hd).
  unfold after, except_Exception in *.
  destruct (body c) as [c' [a|e]]; simpl in *; [done|].
  destruct Hb as (Hg' & Hl' & Hd'). by apply Hh.
Qed.

Lemma same_rows_refl t : same_rows t t.
Proof. by split. Qed.

Lemma same_rows_trans t t1 t2 : same_rows t t1 → same_rows t1 t2 → same_rows t t2.
Proof. intros [? ?] [? ?]. split; congruence. Qed.

Lemma rows_create_table name no_rows t :
  (name ∈ inventory_tables ∨ ∀ t, inv t → inv (no_rows t) ∧ same_rows t (no_rows t)) →
  inv t →
  inv (create_table_if_not_exists name no_rows t)
  ∧ same_rows t (create_table_if_not_exists name no_rows t).
Proof.
  intros Hn Hinv. split.
  { apply inv_create_table; [|done]. destruct Hn as [?|Hn]; [by left|].
    right. intros t' Ht'. by apply Hn. }
  unfold create_table_if_not_exists.
  destruct (decide (name ∈ objects t)) as [Hin|Hnin]; [apply same_rows_refl|].
  destruct Hn as [Hn|Hn]; [exfalso; by apply Hnin, Hinv|].
  assert (Hi : inv (set_objects (λ o, o ∪ {[name]}) t)).
  { eapply inv_frame; [| | | |exact Hinv]; simpl; auto.
    - intros n' _ Hn'. apply elem_of_union. by left.
    - apply Hinv. }
  destruct (Hn _ Hi) as [_ [Hs Ha]]. split; [by rewrite Hs|by rewrite Ha].
Qed.

Lemma rows_create_index name t :
  inv t → inv (create_index_if_not_exists name t)
          ∧ same_rows t (create_index_if_not_exists name t).
Proof. intros Hinv. split; [by apply inv_create_index|by split]. Qed.

Lemma rows_script (statements : list (tables → tables)) t :
  Forall (λ f, ∀ t, inv t → inv (f t) ∧ same_rows t (f t)) statements →
  inv t → inv (script statements t) ∧ same_rows t (script statements t).
Proof.
  unfold script. revert t. induction statements as [|f l IH]; intros t Hall Hinv; simpl.
  - split; [done|apply same_rows_refl].
  - apply Forall_cons in Hall as [Hf Hl]. destruct (Hf t Hinv) as [Hi Hr].
    destruct (IH (f t) Hl Hi) as [Hi' Hr']. split; [done|].
    by apply (same_rows_trans t (f t)).
Qed.

Lemma rows_set_schema_version f t :
  inv t → inv (set_schema_version f t) ∧ same_rows t (set_schema_version f t).
Proof. intros H. split; [by apply inv_set_schema_version|by split]. Qed.

Lemma rows_set_users f t : inv t → inv (set_users f t) ∧ same_rows t (set_users f t).
Proof. intros H. split; [by apply inv_set_users|by split]. Qed.

Lemma rows_set_category_aliases f t :
  inv t → inv (set_category_aliases f t) ∧ same_rows t (set_category_aliases f t).
Proof.
  intros H. split; [by apply inv_set_category_aliases|by split].
Qed.

Lemma rows_create_schema_version t :
  inv t → inv (create_schema_version t) ∧ same_rows t (create_schema_version t).
Proof.
  apply rows_create_table. right. intros t'. apply rows_set_schema_version.
Qed.

Lemma keeps_rows_migration (migration : M unit) :
  migration ∈ migrations → keeps_rows migration.
Proof.
  unfold migrations. rewrite !elem_of_cons, elem_of_nil.
  intros [->|[->|[->|[]]]].
  - apply keeps_rows_bind; [|intros _]; apply keeps_rows_executescript.
    + intros t. apply rows_script. repeat apply Forall_cons_2; [..|apply Forall_nil_2];
        intros t'.
      * apply rows_create_table. left. set_solver.
      * apply rows_create_table. left. set_solver.
      * apply rows_create_table. left. set_solver.
      * apply rows_create_table. left. set_solver.
      * apply rows_create_table. right. intros t''. apply rows_set_category_aliases.
      * apply rows_create_schema_version.
    + intros t. apply rows_script. simpl.
      repeat apply Forall_cons_2; [..|apply Forall_nil_2]; intros t';
        apply rows_create_index.
  - by apply keeps_rows_pure.
  - apply keeps_rows_bind; [|intros _]; apply keeps_rows_execute_ddl.
    + intros t. apply rows_create_table. right. intros t'. apply rows_set_users.
    + intros t. apply rows_create_index.
Qed.

Lemma keeps_rows_migration_loop version start (steps : list (M unit)) :
  (∀ migration, migration ∈ steps → keeps_rows migration) →
  keeps_rows (migration_loop version (enumerate start steps)).
Proof.
  revert start. induction steps as [|migration rest IH]; intros start Hall; simpl;
    [by apply keeps_rows_pure|].
  apply keeps_rows_bind.
  - destruct (version <? start); [|by apply keeps_rows_pure].
    apply keeps_rows_bind; [apply keeps_rows_log|]. intros _.
    apply keeps_rows_bind; [apply Hall; left|]. intros _.
    apply keeps_rows_bind; [|intros _; apply keeps_rows_commit].
    apply keeps_rows_execute. intros t t' [= <-]. apply rows_set_schema_version.
  - intros _. apply IH. intros m Hm. apply Hall. by right.
Qed.

Lemma keeps_rows__ensure_default_admin_user salt :
  keeps_rows (_ensure_default_admin_user salt).
Proof.
  apply keeps_rows_bind; [by apply keeps_rows_pure|].
  intros [|]; [|by apply keeps_rows_pure].
  apply keeps_rows_bind; [by apply keeps_rows_pure|].
  intros [|n]; [|by apply keeps_rows_pure].
  apply keeps_rows_bind; [apply keeps_rows_log|]. intros _.
  apply keeps_rows_bind; [|intros _; apply keeps_rows_commit].
  apply keeps_rows_execute. intros t t'. unfold insert_user.
  destruct (decide _); [|done]. destruct (users t !! "admin"); [done|].
  intros [= <-]. apply rows_set_users.
Qed.

Lemma keeps_rows__ensure_schema salt : keeps_rows (_ensure_schema salt).
Proof.
  apply keeps_rows_bind.
  { apply keeps_rows_execute_ddl. intros t. apply rows_create_schema_version. }
  intros _. apply keeps_rows_bind; [by apply keeps_rows_pure|]. intros count.
  apply keeps_rows_bind.
  { destruct count; [|by apply keeps_rows_pure].
    apply keeps_rows_bind; [|intros _; apply keeps_rows_commit].
    apply keeps_rows_execute. intros t t' [= <-]. apply rows_set_schema_version. }
  intros _. apply keeps_rows_bind.
  { apply keeps_rows_bind; [by apply keeps_rows_pure|].
    intros [version|]; by apply keeps_rows_pure. }
  intros version. apply keeps_rows_bind.
  { apply keeps_rows_migration_loop, keeps_rows_migration. }
  intros _. apply keeps_rows_except_Exception; [|intros e; apply keeps_rows_log].
  apply keeps_rows__ensure_default_admin_user.
Qed.

Lemma Database_same_rows salt t :
  inv t →
  same_rows t (live (Database salt t)) ∧ same_rows t (durable (Database salt t)).
Proof.
  intros Hinv.
  destruct (keeps_rows__ensure_schema salt t (connect t)) as (_ & Hl & Hd);
    [by split|apply same_rows_refl|apply same_rows_refl|].
  by split.
Qed.

Lemma holder_frame t t' : same_rows t t' → holder_recorded t → holder_recorded t'.
Proof. intros [Hs Ha] H a. rewrite Hs, Ha. apply H. Qed.

Lemma inv_unassigned_tables now serial force t :
  inv t → inv (unassigned_tables now serial force t).
Proof.
  intros Hinv. unfold unassigned_tables.
  eapply (inv_unassign now serial force t); [exact Hinv| |reflexivity].
  destruct (select_active_assignment serial t); [|reflexivity].
  by destruct force.
Qed.

Lemma holder_unassigned now serial force t :
  inv t → holder_recorded t → holder_recorded (unassigned_tables now serial force t).
Proof.
  intros Hinv H a' Hin' Hact'.
  pose proof (inv_unassigned_tables now serial force t Hinv) as Hinv'.
  assert (Hne : a_serial a' ≠ serial).
  { intros Heq. destruct (inv_assignment_serial _ Hinv' a' Hin') as [r' Hr'].
    pose proof (inv_active _ Hinv' _ _ Hr') as Hlen. rewrite Heq in Hr'.
    rewrite serial_numbers_unassigned, lookup_alter_eq in Hr'.
    destruct (serial_numbers t !! serial) as [r|]; [|done]. injection Hr' as <-.
    simpl in Hlen. rewrite Heq in Hlen.
    assert (Hel : a' ∈ active_records serial (unassigned_tables now serial force t)).
    { apply (list_elem_of_filter (is_active serial)). by split. }
    destruct (active_records serial _); [by apply elem_of_nil in Hel|done]. }
  rewrite serial_numbers_unassigned, lookup_alter_ne by done.
  apply H; [|done]. revert Hin'. unfold unassigned_tables.
  destruct (select_active_assignment serial t) as [id|]; [|done]. simpl.
  destruct force.
  - by intros [_ ?]%list_elem_of_filter.
  - intros (a & -> & Hin)%list_elem_of_fmap.
    destruct (decide (a_id a = id)); [done|done].
Qed.

Lemma transferred_one_consistent now from_customer t serial :
  inv t → holder_recorded t →
  inv (transferred_one now from_customer t serial)
  ∧ holder_recorded (transferred_one now from_customer t serial).
Proof.
  intros Hinv H. unfold transferred_one.
  destruct (select_holder_and_material serial t) as [[assigned_to material_id]|];
    [|done].
  set (t1 := if holder_matches assigned_to from_customer
             then unassigned_tables now serial false t else t).
  assert (H1 : inv t1 ∧ holder_recorded t1).
  { unfold t1. destruct (holder_matches _ _); [|done].
    split; [by apply inv_unassigned_tables|by apply holder_unassigned]. }
  destruct H1 as [Hi1 Hh1]. split.
  - apply inv_alter_serial; [done|done|]. by apply inv_alter_material.
  - intros a Hin Hact. simpl in *. destruct (Hh1 a Hin Hact) as (r & Hr & Hto).
    destruct (decide (a_serial a = serial)) as [<-|Hne].
    + rewrite lookup_alter_eq, Hr. simpl. eauto.
    + rewrite lookup_alter_ne by done. eauto.
Qed.

Lemma transferred_consistent now from_customer serials t :
  inv t → holder_recorded t →
  holder_recorded (foldl (transferred_one now from_customer) t serials).
Proof.
  revert t. induction serials as [|serial rest IH]; intros t Hinv H; simpl; [done|].
  destruct (transferred_one_consistent now from_customer t serial Hinv H) as [Hi Hh].
  by apply IH.
Qed.

Lemma holder_assigned now customer_id serial r m t :
  serial_numbers t !! serial = Some r → s_assigned_to r = None →
  holder_recorded t →
  holder_recorded (assigned_tables now customer_id serial r m t).
Proof.
  intros Hs Hfree H a. unfold assigned_tables. simpl.
  intros [Hin|Hnew%list_elem_of_singleton]%elem_of_app Hact.
  - destruct (H a Hin Hact) as (r0 & Hr0 & Hto).
    destruct (decide (a_serial a = serial)) as [Heq|Hne].
    + rewrite Heq in Hr0. congruence.
    + rewrite lookup_insert_ne by done. eauto.
  - subst a. simpl. rewrite lookup_insert_eq. eauto.
Qed.

Lemma holder_delete_serial_rows serials t :
  holder_recorded t → holder_recorded (delete_serial_rows serials t).
Proof.
  intros H a. unfold delete_serial_rows. simpl.
  intros [Hkeep Hin]%list_elem_of_filter Hact.
  destruct (H a Hin Hact) as (r & Hr & Hto).
  rewrite lookup_foldr_delete. rewrite decide_False; [eauto|].
  intros Hs. apply Hkeep. split; [done|eauto].
Qed.

(** X28. In every state that the program can reach, on the connection and
    in the committed content, each active assignment record belongs to a
    serial that exists and whose row names the customer of the record as
    holder: the two places that say who has a serial never disagree. *)
Theorem active_record_names_holder (c : conn) :
  reachable c → holder_recorded (live c) ∧ holder_recorded (durable c).
Proof.
  intros Hreach. induction Hreach
    as [salt|c salt Hr IH
       |c now customer_id name phone email pin4 Hr IH
       |c now name model producer description image_path retail_price is_used
          warranty_months Hr IH
       |c now material_id serials production_date acquisition_date retail_price Hr IH
       |c serials Hr IH
       |c now customer_id serial Hr IH
       |c now serial force Hr IH
       |c now serials from_customer Hr IH
       |c t' Hr IH Hother].
  - assert (Ha : assignments (live (Database salt empty_store)) = [])
      by (vm_compute; reflexivity).
    assert (Hd : durable (Database salt empty_store) = live (Database salt empty_store))
      by (vm_compute; reflexivity).
    assert (Hh : holder_recorded (live (Database salt empty_store))).
    { intros a. rewrite Ha. intros Hin. inversion Hin. }
    split; [exact Hh|]. rewrite Hd. exact Hh.
  - destruct IH as [_ Hd]. pose proof (reachable_good c Hr) as [_ Hinv].
    destruct (Database_same_rows salt (durable c) Hinv) as [Hl' Hd'].
    split; by eapply holder_frame.
  - destruct IH as [Hl Hd]. unfold after, add_customer, bind, execute, commit.
    destruct (insert_customer _ _ _ _ _ _ (live c)) as [t'|e] eqn:Hi; simpl; [|done].
    assert (holder_recorded t'); [|done].
    unfold insert_customer in Hi. destruct (customers (live c) !! customer_id); [done|].
    injection Hi as <-. by apply (holder_frame (live c)).
  - destruct IH as [Hl Hd].
    assert (holder_recorded
              (live (after (add_material now name model producer description image_path
                              retail_price is_used warranty_months) c))).
    { by apply (holder_frame (live c)). }
    done.
  - destruct IH as [Hl Hd].
    destruct (add_serials_loop_run now material_id serials production_date
                acquisition_date retail_price c) as (sn & b & lg & Hrun & Hsn).
    unfold after, add_serials_to_material. rewrite (bind_run _ _ _ _ _ Hrun).
    unfold commit. cbn [fst snd live durable].
    assert (holder_recorded (set_serial_numbers (λ _, sn) (live c))); [|done].
    intros a Hin Hact. destruct (Hl a Hin Hact) as (r & Hr' & Hto). exists r.
    split; [|done]. simpl. rewrite Hsn. rewrite decide_False; [done|].
    intros (_ & Hnone & _). congruence.
  - destruct IH as [Hl Hd].
    assert (holder_recorded (delete_serial_rows serials (live c)))
      by (by apply holder_delete_serial_rows).
    done.
  - destruct IH as [Hl Hd]. pose proof (reachable_good c Hr) as [Hinv _].
    destruct (available_dec serial (live c)) as [(r & Hs & Hfree)|Hna].
    2:{ unfold after. by rewrite assign_unavailable. }
    destruct (materials (live c) !! s_material_id r) as [m|] eqn:Hm.
    2:{ unfold after. by rewrite (assign_no_material _ _ _ r). }
    destruct (customers (live c) !! customer_id) as [cr|] eqn:Hc.
    2:{ unfold after. by rewrite (assign_no_customer _ _ _ r m). }
    unfold after. rewrite (assign_ok _ _ _ r m cr) by done. cbn [fst live durable].
    assert (holder_recorded (assigned_tables now customer_id serial r m (live c)))
      by (by apply holder_assigned).
    done.
  - destruct IH as [Hl Hd]. pose proof (reachable_good c Hr) as [Hinv _].
    unfold after. rewrite unassign_run. cbn [fst live durable].
    assert (holder_recorded (unassigned_tables now serial force (live c)))
      by (by apply holder_unassigned).
    done.
  - destruct IH as [Hl Hd]. pose proof (reachable_good c Hr) as [Hinv _].
    unfold after. rewrite transfer_run. cbn [fst live durable].
    assert (holder_recorded (foldl (transferred_one now from_customer) (live c) serials))
      by (by apply transferred_consistent).
    done.
  - destruct IH as [Hl _], Hother as (_ & Hs & Ha & _). simpl.
    assert (holder_recorded t') by (by apply (holder_frame (live c))).
    done.
Qed.

Lemma active_record_names_holder_witness :
  holder_recorded (live smoke_assigned) ∧ holder_recorded (durable smoke_assigned).
Proof.
  apply (active_record_names_holder smoke_assigned).
  apply reach_assign, smoke_store_reachable.
Defined.

(** ** Assigning serials from the customer window *)






(** ** Keyword arguments of [update_customer] *)

Lemma update_customer_columns_ext now keys keys' (fields fields' : gmap string (option string))
    customer_id t :
  (∀ k, k ∈ allowed → (k ∈ keys ↔ k ∈ keys') ∧ fields !! k = fields' !! k) →
  update_customer_columns now keys fields customer_id t
  = update_customer_columns now keys' fields' customer_id t.
Proof.
  intros Hsame. unfold update_customer_columns.
  destruct (customers t !! customer_id) as [r|]; [|done].
  assert (Hval : ∀ column old, column ∈ allowed →
            (if decide (column ∈ keys) then default None (fields !! column) else old)
            = (if decide (column ∈ keys') then default None (fields' !! column) else old)).
  { intros column old Ha. destruct (Hsame column Ha) as [Hk ->].
    destruct (decide (column ∈ keys)) as [Hin|Hnin].
    - by rewrite decide_True by (by apply Hk).
    - by rewrite decide_False by (by rewrite <- Hk). }
  assert (Hname : "name" ∈ allowed) by (apply (bool_decide_unpack _); exact I).
  assert (Hphone : "phone" ∈ allowed) by (apply (bool_decide_unpack _); exact I).
  assert (Hemail : "email" ∈ allowed) by (apply (bool_decide_unpack _); exact I).
  assert (Hpin : "pin4" ∈ allowed) by (apply (bool_decide_unpack _); exact I).
  cbv zeta.
  by rewrite (Hval "name" _ Hname), (Hval "phone" _ Hphone), (Hval "email" _ Hemail),
    (Hval "pin4" _ Hpin).
Qed.

(** X30. [update_customer] reads only the keyword arguments [name],
    [phone], [email] and [pin4]: two calls whose arguments agree on these
    four do the same, whatever else is passed; so no call can change the
    id of a customer or write a [last_modified] of its own. *)
Theorem update_customer_ignores_other_keys now customer_id
    (fields fields' : gmap string (option string)) (c : conn) :
  (∀ k, k ∈ allowed → fields !! k = fields' !! k) →
  update_customer now customer_id fields c = update_customer now customer_id fields' c.
Proof.
  intros Hsame. unfold update_customer.
  pose proof (update_customer_keys fields) as Hk.
  pose proof (update_customer_keys fields') as Hk'.
  set (keys := filter (λ k, k ∈ allowed) (map_to_list fields).*1) in *.
  set (keys' := filter (λ k, k ∈ allowed) (map_to_list fields').*1) in *.
  clearbody keys keys'.
  assert (Hmem : ∀ k, k ∈ keys ↔ k ∈ keys').
  { intros k. rewrite Hk, Hk'. split; intros [Ha Hs]; (split; [done|]).
    - by rewrite <- (Hsame k Ha).
    - by rewrite (Hsame k Ha). }
  assert (Hext : ∀ t, update_customer_columns now keys fields customer_id t
                      = update_customer_columns now keys' fields' customer_id t).
  { intros t. apply update_customer_columns_ext. intros k Ha. split; [apply Hmem|].
    by apply Hsame. }
  destruct keys as [|k0 ks], keys' as [|k0' ks'].
  - done.
  - exfalso. assert (H : k0' ∈ @nil string) by (apply Hmem; left). inversion H.
  - exfalso. assert (H : k0 ∈ @nil string) by (apply Hmem; left). inversion H.
  - unfold bind, execute. by rewrite Hext.
Qed.

Lemma update_customer_ignores_other_keys_witness :
  update_customer t0 "C001"
    {[ "id" := Some "C999"; "last_modified" := Some "0"; "phone" := Some "210" ]}
    smoke_store
  = update_customer t0 "C001" {[ "phone" := Some "210" ]} smoke_store.
Proof.
  apply (update_customer_ignores_other_keys t0 "C001"
           {[ "id" := Some "C999"; "last_modified" := Some "0"; "phone" := Some "210" ]}
           {[ "phone" := Some "210" ]} smoke_store).
  intros k Hk. unfold allowed in Hk.
  repeat (apply elem_of_cons in Hk as [->|Hk]); [vm_compute; reflexivity..|].
  inversion Hk.
Defined.
